(** * Layout optimizer of the formatter: a shallow embedding

    The development follows [common/formatting/layout_optimizer.cc]:
    the piecewise-linear layout functions, the combinators of
    [LayoutFunctionFactory] ([Line], [Indent], [Juxtaposition], [Stack],
    [Choice]), the driver [OptimizeTokenPartitionTree] and the
    [TreeReconstructor].

    Conventions of the embedding.
    - A C++ [int] is a [Z]; signed overflow is undefined behaviour in the
      source and is not modelled (all columns stay far below [kInfinity]).
    - A C++ [float] is an exact rational [Q]: conversions from [int] are
      [inject_Z], the arithmetic is the one of [Q].  Rounding of the 32-bit
      format is outside the model.
    - Iterators into a [LayoutFunction] are indices ([nat]); [end()] is the
      length of the sequence.
    - [CHECK]/[LOG(FATAL)] abort the process: fallible code returns an
      [Outcome], whose [Fail] carries the reason. *)

From Stdlib Require Import List ZArith QArith Qround Bool Lia Lqa Arith.
From Equations Require Import Equations.
Import ListNotations.

Set Implicit Arguments.
Local Open Scope Z_scope.

(** ** Fatal errors *)

Inductive Failure : Type :=
| CheckFailed        (* a CHECK, CHECK_EQ, CHECK_NE, ... did not hold *)
| UnsupportedPolicy  (* LOG(FATAL) << "Unsupported policy: " *)
| PastTheEnd         (* an end iterator was dereferenced *)
| Diverges.          (* a loop of the source does not terminate *)

Inductive Outcome (A : Type) : Type :=
| Ok (a : A)
| Fail (f : Failure).
Arguments Ok {A} a.
Arguments Fail {A} f.

Definition bind {A B} (m : Outcome A) (k : A -> Outcome B) : Outcome B :=
  match m with
  | Ok a => k a
  | Fail f => Fail f
  end.

Declare Scope outcome_scope.
Delimit Scope outcome_scope with outcome.
Notation "x <- m ;; k" := (bind m (fun x => k))
  (at level 61, m at next level, right associativity) : outcome_scope.
Notation "'CHECK' b ;; k" := (if b then k else Fail CheckFailed)
  (at level 61, b at next level, right associativity) : outcome_scope.
Local Open Scope outcome_scope.

Definition is_Ok {A} (m : Outcome A) : bool :=
  match m with Ok _ => true | Fail _ => false end.

(** [back()], when there is one. *)
Definition last_error {A} (l : list A) : option A := last (map Some l) None.

(** [*it] for an iterator [i] of the sequence [l]. *)
Definition deref {A} (l : list A) (i : nat) : Outcome A :=
  match nth_error l i with
  | Some a => Ok a
  | None => Fail PastTheEnd
  end.

(** ** Tokens and unwrapped lines

    [PreFormatToken], [UnwrappedLine] and [PartitionPolicyEnum] are declared
    in headers that are used, but not defined, by the optimizer.  Token
    ranges are pairs of iterators into the shared vector of tokens; they
    are kept as pairs of indices into that vector. *)

Inductive SpacingOptions : Type :=
| Undecided
| MustAppend
| MustWrap.

Definition SpacingOptions_eqb (a b : SpacingOptions) : bool :=
  match a, b with
  | Undecided, Undecided | MustAppend, MustAppend | MustWrap, MustWrap => true
  | _, _ => false
  end.

Record InterTokenInfo : Type := {
  spaces_required : Z;
  break_decision : SpacingOptions
}.

Record PreFormatToken : Type := {
  before : InterTokenInfo;
  text_length : Z          (* PreFormatToken::Length(): width of the text *)
}.

(** Modelled from the spec: the enumerators of [PartitionPolicyEnum] that the
    optimizer names, and [kUninitialized] for the value a freshly
    constructed [UnwrappedLine] carries. *)
Inductive PartitionPolicyEnum : Type :=
| kUninitialized
| kAlwaysExpand
| kFitOnLineElseExpand
| kTabularAlignment
| kAlreadyFormatted
| kAppendFittingSubPartitions
| kOptimalFunctionCallLayout.

Record UnwrappedLine : Type := {
  indentation_spaces : Z;
  tokens_begin : nat;
  tokens_end : nat;
  partition_policy : PartitionPolicyEnum
}.

(** [UnwrappedLine(d, b)]: an empty range starting at [b]. *)
Definition mkUnwrappedLine (d : Z) (b : nat) : UnwrappedLine :=
  {| indentation_spaces := d; tokens_begin := b; tokens_end := b;
     partition_policy := kUninitialized |}.

Definition SpanUpToToken (u : UnwrappedLine) (e : nat) : UnwrappedLine :=
  {| indentation_spaces := indentation_spaces u; tokens_begin := tokens_begin u;
     tokens_end := e; partition_policy := partition_policy u |}.

Definition SetIndentationSpaces (u : UnwrappedLine) (d : Z) : UnwrappedLine :=
  {| indentation_spaces := d; tokens_begin := tokens_begin u;
     tokens_end := tokens_end u; partition_policy := partition_policy u |}.

Definition SetPartitionPolicy (u : UnwrappedLine) (p : PartitionPolicyEnum)
  : UnwrappedLine :=
  {| indentation_spaces := indentation_spaces u; tokens_begin := tokens_begin u;
     tokens_end := tokens_end u; partition_policy := p |}.

Definition IsEmpty (u : UnwrappedLine) : bool :=
  (tokens_begin u =? tokens_end u)%nat.

(** The tokens of the range [b, e) of the shared vector. *)
Definition TokensRange (ftokens : list PreFormatToken) (b e : nat)
  : list PreFormatToken :=
  firstn (e - b) (skipn b ftokens).

(** ** Trees *)

#[local] Unset Elimination Schemes.
Inductive VectorTree (A : Type) : Type :=
| Node (value : A) (children : list (VectorTree A)).
#[local] Set Elimination Schemes.
Arguments Node {A} value children.

Definition Value {A} (t : VectorTree A) : A :=
  match t with Node v _ => v end.

Definition Children {A} (t : VectorTree A) : list (VectorTree A) :=
  match t with Node _ cs => cs end.

Definition is_leaf {A} (t : VectorTree A) : bool :=
  match Children t with [] => true | _ => false end.

(** [AdoptSubtree]: push a copy of [sub] at the back of the children. *)
Definition AdoptSubtree {A} (t sub : VectorTree A) : VectorTree A :=
  Node (Value t) (Children t ++ [sub]).

Definition SetValue {A} (t : VectorTree A) (v : A) : VectorTree A :=
  Node v (Children t).

(** [Children().clear()]. *)
Definition clear_children {A} (t : VectorTree A) : VectorTree A :=
  Node (Value t) [].

Section VectorTree_ind.
Variable A : Type.
Variable P : VectorTree A -> Prop.
Hypothesis HNode : forall v cs, Forall P cs -> P (Node v cs).

Fixpoint VectorTree_ind' (t : VectorTree A) : P t :=
  match t with
  | Node v cs =>
      HNode v
        ((fix go (l : list (VectorTree A)) : Forall P l :=
            match l with
            | [] => Forall_nil P
            | c :: l' => Forall_cons c (VectorTree_ind' c) (go l')
            end) cs)
  end.
End VectorTree_ind.

Definition TokenPartitionTree := VectorTree UnwrappedLine.

(** ** Layout items, layout trees *)

Inductive LayoutType : Type :=
| kLine
| kJuxtaposition
| kStack.

Definition LayoutType_eqb (a b : LayoutType) : bool :=
  match a, b with
  | kLine, kLine | kJuxtaposition, kJuxtaposition | kStack, kStack => true
  | _, _ => false
  end.

Definition is_composite (type : LayoutType) : bool :=
  match type with
  | kLine => false
  | kJuxtaposition | kStack => true
  end.

Record LayoutItem : Type := {
  Type_ : LayoutType;
  IndentationSpaces : Z;
  item_tokens_begin : nat;
  item_tokens_end : nat;
  SpacesBefore : Z;
  MustWrap_ : bool
}.

(** [LayoutItem(type, spacing, must_wrap)]: a composite item, with no tokens
    and no indentation. *)
Definition mkLayoutItem (type : LayoutType) (spacing : Z) (must_wrap : bool)
  : LayoutItem :=
  {| Type_ := type; IndentationSpaces := 0;
     item_tokens_begin := 0; item_tokens_end := 0;
     SpacesBefore := spacing; MustWrap_ := must_wrap |}.

(** Modelled from the spec: [LayoutItem(uwline)], the constructor of a line
    item.  It is declared in [layout_optimizer_internal.h].  The item refers
    to the token range of the line; its leading spacing and its must-wrap
    flag are those of the first token of the range (no spacing, no wrap for
    an empty range), as [LayoutTest.LineLayoutItemToString] shows. *)
Definition LayoutItem_of_line (ftokens : list PreFormatToken) (uwline : UnwrappedLine)
  : LayoutItem :=
  let toks := TokensRange ftokens (tokens_begin uwline) (tokens_end uwline) in
  {| Type_ := kLine; IndentationSpaces := 0;
     item_tokens_begin := tokens_begin uwline;
     item_tokens_end := tokens_end uwline;
     SpacesBefore := match toks with
                     | [] => 0
                     | t :: _ => spaces_required (before t)
                     end;
     MustWrap_ := match toks with
                  | [] => false
                  | t :: _ => SpacingOptions_eqb (break_decision (before t)) MustWrap
                  end |}.

(** Modelled from the spec: [LayoutItem::Length()], the rendered width of a
    line item ("its rendered length (character count)"): the widths of the
    tokens and the spaces between them, without the spaces before the
    first one. *)
Definition Length (ftokens : list PreFormatToken) (item : LayoutItem) : Z :=
  let tokens_ := TokensRange ftokens (item_tokens_begin item) (item_tokens_end item) in
  match tokens_ with
  | [] => 0
  | front :: _ =>
      fold_left (fun len tok => len + spaces_required (before tok) + text_length tok)
                tokens_ 0
      - spaces_required (before front)
  end.

(** Modelled from the spec: [LayoutItem::ToUnwrappedLine()] "returns the
    originating token span with the current indentation". *)
Definition ToUnwrappedLine (item : LayoutItem) : UnwrappedLine :=
  SetIndentationSpaces
    (SpanUpToToken (mkUnwrappedLine 0 (item_tokens_begin item)) (item_tokens_end item))
    (IndentationSpaces item).

Definition SetItemIndentation (item : LayoutItem) (d : Z) : LayoutItem :=
  {| Type_ := Type_ item; IndentationSpaces := d;
     item_tokens_begin := item_tokens_begin item;
     item_tokens_end := item_tokens_end item;
     SpacesBefore := SpacesBefore item; MustWrap_ := MustWrap_ item |}.

Definition LayoutTree := VectorTree LayoutItem.

(** ** Layout functions *)

Record LayoutFunctionSegment : Type := {
  column : Z;
  layout : LayoutTree;
  span : Z;
  intercept : Q;
  gradient : Z
}.

Definition LayoutFunction := list LayoutFunctionSegment.

(** Modelled from the spec: [LayoutFunctionSegment::CostAt], declared in
    [layout_optimizer_internal.h]:
    [cost(x) = intercept + gradient * (x - column)]. *)
Definition CostAt (s : LayoutFunctionSegment) (x : Z) : Q :=
  (intercept s + inject_Z (gradient s * (x - column s)))%Q.

Record BasicFormatStyle : Type := {
  indentation_spaces_ : Z;
  wrap_spaces : Z;
  column_limit : Z;
  over_column_limit_penalty : Z;
  line_break_penalty : Z
}.

(** Largest possible column value, used as infinity. *)
Definition kInfinity : Z := 2147483647.

(** *** [std::lower_bound]

    The binary search of the standard library over the index range
    [first, first + len), with the comparison of [AtOrToTheLeftOf]:
    [s.column <= column]. *)
Equations? lower_bound (lf : LayoutFunction) (col : Z) (first len : nat) : nat
  by wf len lt :=
  lower_bound lf col first 0%nat := first;
  lower_bound lf col first (S n) with nth_error lf (first + S n / 2)%nat := {
    | None => first;
    | Some s with (column s <=? col) := {
        | true => lower_bound lf col (first + S n / 2 + 1)%nat
                              (S n - S n / 2 - 1)%nat;
        | false => lower_bound lf col first (S n / 2)%nat } }.
Proof.
  all: pose proof (Nat.div_lt (S n) 2 ltac:(lia) ltac:(lia)) as Hhalf;
    change (fst (Nat.divmod n 1 0 0)) with (S n / 2)%nat;
    destruct (S n / 2)%nat; lia.
Qed.

(** [LayoutFunction::AtOrToTheLeftOf]. *)
Definition AtOrToTheLeftOf (lf : LayoutFunction) (col : Z) : Outcome nat :=
  match lf with
  | [] => Ok (length lf)
  | _ =>
      let it := lower_bound lf col 0 (length lf) in
      CHECK negb (it =? 0)%nat ;;
      Ok (it - 1)%nat
  end.

Definition empty (lf : LayoutFunction) : bool :=
  match lf with [] => true | _ => false end.

(** ** The combinators of [LayoutFunctionFactory] *)

(** The conversion of a condition to [int] ([true] is 1). *)
Definition Z_of_bool (b : bool) : Z := if b then 1 else 0.

(** [LayoutFunctionFactory::Line]. *)
Definition Line (style_ : BasicFormatStyle) (ftokens : list PreFormatToken)
  (uwline : UnwrappedLine) : LayoutFunction :=
  let layout_ := Node (LayoutItem_of_line ftokens uwline) [] in
  let span_ := Length ftokens (Value layout_) in
  if span_ <? column_limit style_ then
    [ (* 0 <= X < column_limit-span *)
      {| column := 0; layout := layout_; span := span_;
         intercept := inject_Z 0; gradient := 0 |};
      (* column_limit-span <= X *)
      {| column := column_limit style_ - span_; layout := layout_; span := span_;
         intercept := inject_Z 0;
         gradient := over_column_limit_penalty style_ |} ]
  else
    [ {| column := 0; layout := layout_; span := span_;
         intercept :=
           inject_Z ((span_ - column_limit style_) * over_column_limit_penalty style_);
         gradient := over_column_limit_penalty style_ |} ].

(** [new_layout.Value().SetIndentationSpaces(
      new_layout.Value().IndentationSpaces() + indent)]. *)
Definition indent_layout (l : LayoutTree) (indent : Z) : LayoutTree :=
  SetValue l (SetItemIndentation (Value l) (IndentationSpaces (Value l) + indent)).

(** One turn of the loop of [Indent]: the segment pushed for the input
    segment [segment], met at input column [column_]. *)
Definition Indent_segment (style_ : BasicFormatStyle) (indent indent_column column_ : Z)
  (segment : LayoutFunctionSegment) : LayoutFunctionSegment :=
  let columns_over_limit := column_ - column_limit style_ in
  let new_intercept :=
    (CostAt segment column_
     - inject_Z (over_column_limit_penalty style_ * Z.max columns_over_limit 0))%Q in
  let new_gradient :=
    gradient segment
    - over_column_limit_penalty style_ * Z_of_bool (0 <=? columns_over_limit) in
  let new_layout := indent_layout (layout segment) indent in
  let new_span := indent + span segment in
  {| column := indent_column; layout := new_layout; span := new_span;
     intercept := new_intercept; gradient := new_gradient |}.

(** The [while (true)] loop of [Indent]; [rest] holds the segments after
    [segment], so that [++segment == lf.end()] is [rest = []]. *)
Fixpoint Indent_loop (style_ : BasicFormatStyle) (indent indent_column column_ : Z)
  (segment : LayoutFunctionSegment) (rest : list LayoutFunctionSegment)
  (result : LayoutFunction) : LayoutFunction :=
  let result := result ++ [Indent_segment style_ indent indent_column column_ segment] in
  match rest with
  | [] => result
  | next :: rest' =>
      Indent_loop style_ indent (column next - indent) (column next) next rest' result
  end.

(** [LayoutFunctionFactory::Indent]. *)
Definition Indent (style_ : BasicFormatStyle) (lf : LayoutFunction) (indent : Z)
  : Outcome LayoutFunction :=
  CHECK negb (empty lf) ;;
  CHECK (0 <=? indent) ;;
  it <- AtOrToTheLeftOf lf indent ;;
  segment <- deref lf it ;;
  Ok (Indent_loop style_ indent 0 indent segment (skipn (S it) lf) []).

(** [AdoptLayoutAndFlattenIfSameType]: adopts sublayouts of [source] into
    [destination] if the types are equal and [source] has no extra
    indentation; otherwise adopts the whole [source]. *)
Definition AdoptLayoutAndFlattenIfSameType (source destination : LayoutTree)
  : Outcome LayoutTree :=
  let src_item := Value source in
  let dst_item := Value destination in
  if negb (is_leaf source) && LayoutType_eqb (Type_ src_item) (Type_ dst_item)
     && (IndentationSpaces src_item =? 0) then
    match Children source with
    | [] => Fail PastTheEnd
    | first :: _ =>
        let first_subitem := Value first in
        CHECK Bool.eqb (MustWrap_ src_item) (MustWrap_ first_subitem) ;;
        CHECK (SpacesBefore src_item =? SpacesBefore first_subitem) ;;
        Ok (fold_left AdoptSubtree (Children source) destination)
    end
  else
    Ok (AdoptSubtree destination source).

(** The segment at [it + 1], or [kInfinity] when [it + 1] is the end. *)
Definition next_column_of (lf : LayoutFunction) (it : nat) : Z :=
  match nth_error lf (S it) with
  | Some s => column s
  | None => kInfinity
  end.

Definition IsEnd (lf : LayoutFunction) (it : nat) : bool :=
  (length lf <=? it)%nat.

(** The [while (true)] loop of the binary [Juxtaposition]. *)
Fixpoint Juxtaposition_loop (fuel : nat) (style_ : BasicFormatStyle)
  (left right : LayoutFunction) (segment_l segment_r : nat) (column_l column_r : Z)
  (result : LayoutFunction) : Outcome LayoutFunction :=
  match fuel with
  | O => Fail Diverges
  | S fuel' =>
      seg_l <- deref left segment_l ;;
      seg_r <- deref right segment_r ;;
      let columns_over_limit := column_r - column_limit style_ in
      let new_intercept :=
        (CostAt seg_l column_l + CostAt seg_r column_r
         - inject_Z (over_column_limit_penalty style_ * Z.max columns_over_limit 0))%Q in
      let new_gradient :=
        gradient seg_l + gradient seg_r
        - (if 0 <=? columns_over_limit then over_column_limit_penalty style_ else 0) in
      let layout_l := layout seg_l in
      let layout_r := layout seg_r in
      let new_layout :=
        Node (mkLayoutItem kJuxtaposition (SpacesBefore (Value layout_l))
                           (MustWrap_ (Value layout_l))) [] in
      new_layout <- AdoptLayoutAndFlattenIfSameType layout_l new_layout ;;
      new_layout <- AdoptLayoutAndFlattenIfSameType layout_r new_layout ;;
      let new_span := span seg_l + span seg_r + SpacesBefore (Value layout_r) in
      let result :=
        result ++ [ {| column := column_l; layout := new_layout; span := new_span;
                       intercept := new_intercept; gradient := new_gradient |} ] in
      let next_segment_l := S segment_l in
      let next_column_l := next_column_of left segment_l in
      let next_segment_r := S segment_r in
      let next_column_r := next_column_of right segment_r in
      if IsEnd left next_segment_l && IsEnd right next_segment_r then Ok result
      else if IsEnd right next_segment_r
              || (next_column_l - column_l <=? next_column_r - column_r) then
        next_l <- deref left next_segment_l ;;
        let column_l' := next_column_l in
        let column_r' :=
          next_column_l + span next_l + SpacesBefore (Value layout_r) in
        segment_r' <- AtOrToTheLeftOf right column_r' ;;
        Juxtaposition_loop fuel' style_ left right next_segment_l segment_r'
                           column_l' column_r' result
      else
        let column_r' := next_column_r in
        let column_l' :=
          next_column_r - span seg_l - SpacesBefore (Value layout_r) in
        Juxtaposition_loop fuel' style_ left right segment_l next_segment_r
                           column_l' column_r' result
  end.

(** [LayoutFunctionFactory::Juxtaposition(left, right)].  Each turn of the
    loop advances one of the two iterators, so the lengths bound the number
    of turns. *)
Definition Juxtaposition2 (style_ : BasicFormatStyle) (left right : LayoutFunction)
  : Outcome LayoutFunction :=
  CHECK negb (empty left) ;;
  CHECK negb (empty right) ;;
  seg_l <- deref left 0%nat ;;
  seg_r <- deref right 0%nat ;;
  let column_l := 0 in
  let column_r := span seg_l + SpacesBefore (Value (layout seg_r)) in
  segment_r <- AtOrToTheLeftOf right column_r ;;
  Juxtaposition_loop (length left + length right) style_ left right
                     0%nat segment_r column_l column_r [].

(** [LayoutFunctionFactory::Juxtaposition(std::initializer_list)]. *)
Definition Juxtaposition (style_ : BasicFormatStyle) (lfs : list LayoutFunction)
  : Outcome LayoutFunction :=
  match lfs with
  | [] => Ok []
  | [lf] => Ok lf
  | front :: lfs_container =>
      fold_left (fun incremental lf =>
                   inc <- incremental ;; Juxtaposition2 style_ inc lf)
                lfs_container (Ok front)
  end.

(** *** Iterators

    [LayoutFunction::const_iterator] is a reference to a container and an
    index.  Two iterators are equal when they refer to the same container
    object and hold the same index; [container_id] stands for the address
    of the container. *)
Record Iterator : Type := {
  container_id : nat;
  Container : LayoutFunction;
  Index : nat
}.

Definition Iterator_eqb (a b : Iterator) : bool :=
  (container_id a =? container_id b)%nat && (Index a =? Index b)%nat.

Definition it_begin (id : nat) (lf : LayoutFunction) : Iterator :=
  {| container_id := id; Container := lf; Index := 0 |}.

Definition it_end (id : nat) (lf : LayoutFunction) : Iterator :=
  {| container_id := id; Container := lf; Index := length lf |}.

Definition it_deref (it : Iterator) : Outcome LayoutFunctionSegment :=
  deref (Container it) (Index it).

(** Modelled from the spec: [const_iterator::MoveToKnotAtOrToTheLeftOf],
    declared in [layout_optimizer_internal.h]: the iterator "is repositioned
    to the segment covering that knot (using the at-or-to-the-left-of
    lookup)"; on an empty container it stays at the end. *)
Definition MoveToKnotAtOrToTheLeftOf (it : Iterator) (col : Z) : Outcome Iterator :=
  i <- AtOrToTheLeftOf (Container it) col ;;
  Ok {| container_id := container_id it; Container := Container it; Index := i |}.

Definition mapM {A B} (f : A -> Outcome B) : list A -> Outcome (list B) :=
  fix go (l : list A) : Outcome (list B) :=
    match l with
    | [] => Ok []
    | a :: l' => b <- f a ;; bs <- go l' ;; Ok (b :: bs)
    end.

(** [for (auto& it : *segments) acc = f(acc, it)], where [f] may abort. *)
Definition foldM {A S} (f : S -> A -> Outcome S) : list A -> S -> Outcome S :=
  fix go (l : list A) (s : S) : Outcome S :=
    match l with
    | [] => Ok s
    | a :: l' => s' <- f s a ;; go l' s'
    end.

(** The product [(segments->size() - 1) * style_.line_break_penalty] is
    computed in [size_t] (64 bits, unsigned). *)
Definition size_t_mul (a b : Z) : Z := ((a mod 2 ^ 64) * (b mod 2 ^ 64)) mod 2 ^ 64.

(** The inner [for] of [Stack] that accumulates the new segment. *)
Definition Stack_accumulate (current_column : Z)
  (new_segment : LayoutFunctionSegment) (segment_it : Iterator)
  : Outcome LayoutFunctionSegment :=
  s <- it_deref segment_it ;;
  new_layout <- AdoptLayoutAndFlattenIfSameType (layout s) (layout new_segment) ;;
  Ok {| column := column new_segment;
        layout := new_layout;
        span := span new_segment;
        intercept := (intercept new_segment + CostAt s current_column)%Q;
        gradient := gradient new_segment + gradient s |}.

(** The inner [for] of [Stack] that finds the next column. *)
Definition Stack_next_column (current_column : Z) (next_column : Z)
  (segment_it : Iterator) : Outcome Z :=
  if IsEnd (Container segment_it) (S (Index segment_it)) then Ok next_column
  else
    next <- deref (Container segment_it) (S (Index segment_it)) ;;
    let column_ := column next in
    CHECK (current_column <=? column_) ;;
    Ok (if column_ <? next_column then column_ else next_column).

(** The [do ... while (current_column < kInfinity)] loop of [Stack]. *)
Fixpoint Stack_loop (fuel : nat) (segments : list Iterator)
  (spaces_before : Z) (break_decision_ : bool) (span_ : Z) (line_breaks_penalty : Q)
  (current_column : Z) (result : LayoutFunction) : Outcome LayoutFunction :=
  match fuel with
  | O => Fail Diverges
  | S fuel' =>
      (* Point iterators to segments under current column. *)
      segments <- mapM (fun it => MoveToKnotAtOrToTheLeftOf it current_column) segments ;;
      let new_segment :=
        {| column := current_column;
           layout := Node (mkLayoutItem kStack spaces_before break_decision_) [];
           span := span_; intercept := line_breaks_penalty; gradient := 0 |} in
      new_segment <- foldM (Stack_accumulate current_column) segments new_segment ;;
      let result := result ++ [new_segment] in
      (* Find next column. *)
      next_column <- foldM (Stack_next_column current_column) segments kInfinity ;;
      if next_column <? kInfinity then
        Stack_loop fuel' segments spaces_before break_decision_ span_
                   line_breaks_penalty next_column result
      else Ok result
  end.

Definition total_size (segments : list Iterator) : nat :=
  fold_right (fun it n => (length (Container it) + n)%nat) 0%nat segments.

(** [LayoutFunctionFactory::Stack] on an array of iterators.  Every
    turn of the loop moves to a further knot of some input, so the number of
    input segments bounds the number of turns. *)
Definition Stack_segments (style_ : BasicFormatStyle) (segments : list Iterator)
  : Outcome LayoutFunction :=
  CHECK negb (match segments with [] => true | _ => false end) ;;
  (* Use first line's spacing for new layouts. *)
  front <- match segments with [] => Fail PastTheEnd | it :: _ => it_deref it end ;;
  let first_layout_item := Value (layout front) in
  let spaces_before := SpacesBefore first_layout_item in
  let break_decision_ := MustWrap_ first_layout_item in
  (* Use last line's span for new layouts. *)
  back <- match last_error segments with
          | None => Fail PastTheEnd
          | Some it => it_deref it
          end ;;
  let span_ := span back in
  let line_breaks_penalty :=
    inject_Z (size_t_mul (Z.of_nat (length segments) - 1) (line_break_penalty style_)) in
  Stack_loop (S (total_size segments)) segments spaces_before break_decision_ span_
             line_breaks_penalty 0 [].

(** The array of iterators handed to the worker: one per function, at its
    beginning. *)
Definition begin_iterators (lfs : list LayoutFunction) : list Iterator :=
  map (fun p => it_begin (fst p) (snd p)) (combine (seq 0 (length lfs)) lfs).

(** Modelled from the spec: the variadic [Stack] of
    [layout_optimizer_internal.h], which forwards to the worker above:
    "Empty Stack returns empty; single-child Stack returns that input
    unchanged" (the variadic [Juxtaposition] has the same shape). *)
Definition Stack (style_ : BasicFormatStyle) (lfs : list LayoutFunction)
  : Outcome LayoutFunction :=
  match lfs with
  | [] => Ok []
  | [lf] => Ok lf
  | _ => Stack_segments style_ (begin_iterators lfs)
  end.

(** *** [Choice] *)

(** [std::min_element]: the loop of the standard library, which replaces the
    current result by a later element [x] whenever [comp x result] holds. *)
Definition min_element {A} (comp : A -> A -> bool) (l : list A) : option A :=
  match l with
  | [] => None
  | first :: rest =>
      Some (fold_left (fun result x => if comp x result then x else result) rest first)
  end.

Definition Qeqb (a b : Q) : bool := Qeq_bool a b.
Definition Qltb (a b : Q) : bool := negb (Qle_bool b a).

(** A dereferenced iterator: the iterator and the segment it points to. *)
Definition Position : Type := (Iterator * LayoutFunctionSegment)%type.

(** The comparison handed to [std::min_element] by [Choice]. *)
Definition Choice_comp (current_column : Z) (a b : Position) : bool :=
  if negb (Qeqb (CostAt (snd a) current_column) (CostAt (snd b) current_column))
  then Qltb (CostAt (snd a) current_column) (CostAt (snd b) current_column)
  else
    (* Sort by gradient when cost is the same. *)
    (gradient (snd a) <=? gradient (snd b)).

(** The [for] of [Choice] that finds the closest crossover point located
    before the next knot. *)
Definition Choice_crossover (current_column : Z) (min_cost_segment : LayoutFunctionSegment)
  (next_column : Z) (segment : Position) : Z :=
  if gradient min_cost_segment <=? gradient (snd segment) then next_column
  else
    let gamma :=
      ((CostAt (snd segment) current_column - CostAt min_cost_segment current_column)
       / inject_Z (gradient min_cost_segment - gradient (snd segment)))%Q in
    let column_ := current_column + Qceiling gamma in
    if (current_column <? column_) && (column_ <? next_column) then column_
    else next_column.

(** The inner [do ... while (current_column < next_knot)] loop of [Choice]. *)
Fixpoint Choice_inner (fuel : nat) (segments : list Position) (next_knot : Z)
  (current_column : Z) (last_min_cost_segment : Iterator) (result : LayoutFunction)
  : Outcome (Z * Iterator * LayoutFunction) :=
  match fuel with
  | O => Fail Diverges
  | S fuel' =>
      match min_element (Choice_comp current_column) segments with
      | None => Fail PastTheEnd
      | Some min_cost_segment =>
          let emit := negb (Iterator_eqb (fst min_cost_segment) last_min_cost_segment) in
          let result :=
            if emit then
              result ++ [ {| column := current_column;
                             layout := layout (snd min_cost_segment);
                             span := span (snd min_cost_segment);
                             intercept := CostAt (snd min_cost_segment) current_column;
                             gradient := gradient (snd min_cost_segment) |} ]
            else result in
          let last_min_cost_segment :=
            if emit then fst min_cost_segment else last_min_cost_segment in
          (* Find closest crossover point located before next knot. *)
          let next_column :=
            fold_left (Choice_crossover current_column (snd min_cost_segment))
                      segments next_knot in
          let current_column := next_column in
          if current_column <? next_knot then
            Choice_inner fuel' segments next_knot current_column
                         last_min_cost_segment result
          else Ok (current_column, last_min_cost_segment, result)
      end
  end.

(** The first [for] of the outer loop of [Choice]: moves an iterator and
    updates the starting column of the next closest segment. *)
Definition Choice_move (current_column : Z) (acc : list Position * Z)
  (segment_it : Iterator) : Outcome (list Position * Z) :=
  let '(moved, next_knot) := acc in
  segment_it <- MoveToKnotAtOrToTheLeftOf segment_it current_column ;;
  let column_ := next_column_of (Container segment_it) (Index segment_it) in
  s <- it_deref segment_it ;;
  Ok (moved ++ [(segment_it, s)], if column_ <? next_knot then column_ else next_knot).

(** The outer [do ... while (current_column < kInfinity)] loop of [Choice]. *)
Fixpoint Choice_loop (fuel : nat) (segments : list Iterator) (current_column : Z)
  (last_min_cost_segment : Iterator) (result : LayoutFunction)
  : Outcome LayoutFunction :=
  match fuel with
  | O => Fail Diverges
  | S fuel' =>
      (* Starting column of the next closest segment. *)
      moved <- foldM (Choice_move current_column) segments ([], kInfinity) ;;
      let '(positions, next_knot) := moved in
      r <- Choice_inner (S (length positions)) positions next_knot current_column
                        last_min_cost_segment result ;;
      let '(current_column, last_min_cost_segment, result) := r in
      if current_column <? kInfinity then
        Choice_loop fuel' (map fst positions) current_column last_min_cost_segment result
      else Ok result
  end.

(** [LayoutFunctionFactory::Choice] on an array of iterators.  The outer
    loop visits each knot of the inputs once; between two knots every
    crossover strictly lowers the gradient of the cheapest segment, so the
    inner loop takes at most as many turns as there are inputs. *)
Definition Choice_segments (segments : list Iterator) : Outcome LayoutFunction :=
  match segments with
  | [] => Fail CheckFailed
  | front :: _ =>
      (* Initial value set to an iterator that doesn't point to any existing
         segment. *)
      let last_min_cost_segment := it_end (container_id front) (Container front) in
      Choice_loop (S (total_size segments)) segments 0 last_min_cost_segment []
  end.

(** Modelled from the spec: the variadic [Choice] of
    [layout_optimizer_internal.h]; as for [Stack], no function gives the
    empty function and a single function is returned as it is. *)
Definition Choice (lfs : list LayoutFunction) : Outcome LayoutFunction :=
  match lfs with
  | [] => Ok []
  | [lf] => Ok lf
  | _ => Choice_segments (begin_iterators lfs)
  end.

(** ** The tree reconstructor *)

Record TreeReconstructor : Type := {
  unwrapped_lines_ : list UnwrappedLine;
  (* a pointer to an element of [unwrapped_lines_], or [nullptr] *)
  active_unwrapped_line_ : option nat;
  current_indentation_spaces_ : Z;
  (* the number of warnings sent to the log *)
  warnings_ : nat
}.

(** [TreeReconstructor(indentation_spaces, style)]. *)
Definition mkTreeReconstructor (indentation_spaces : Z) : TreeReconstructor :=
  {| unwrapped_lines_ := []; active_unwrapped_line_ := None;
     current_indentation_spaces_ := indentation_spaces; warnings_ := 0 |}.

Definition set_indentation (tr : TreeReconstructor) (d : Z) : TreeReconstructor :=
  {| unwrapped_lines_ := unwrapped_lines_ tr;
     active_unwrapped_line_ := active_unwrapped_line_ tr;
     current_indentation_spaces_ := d; warnings_ := warnings_ tr |}.

Definition set_active (tr : TreeReconstructor) (a : option nat) : TreeReconstructor :=
  {| unwrapped_lines_ := unwrapped_lines_ tr;
     active_unwrapped_line_ := a;
     current_indentation_spaces_ := current_indentation_spaces_ tr;
     warnings_ := warnings_ tr |}.

Definition set_lines (tr : TreeReconstructor) (ls : list UnwrappedLine)
  : TreeReconstructor :=
  {| unwrapped_lines_ := ls;
     active_unwrapped_line_ := active_unwrapped_line_ tr;
     current_indentation_spaces_ := current_indentation_spaces_ tr;
     warnings_ := warnings_ tr |}.

(** [LOG_IF(WARNING, cond) << ...]. *)
Definition LOG_IF_WARNING (cond : bool) (tr : TreeReconstructor) : TreeReconstructor :=
  if cond then
    {| unwrapped_lines_ := unwrapped_lines_ tr;
       active_unwrapped_line_ := active_unwrapped_line_ tr;
       current_indentation_spaces_ := current_indentation_spaces_ tr;
       warnings_ := S (warnings_ tr) |}
  else tr.

Definition is_some {A} (o : option A) : bool :=
  match o with Some _ => true | None => false end.

(** Replaces the element of index [i]; nothing changes out of range. *)
Fixpoint update {A} (l : list A) (i : nat) (x : A) : list A :=
  match l, i with
  | [], _ => []
  | _ :: l', O => x :: l'
  | a :: l', S i' => a :: update l' i' x
  end.

Section Reconstructor.

(** [FitsOnLine(line, style_).final_column] is computed by the line wrap
    searcher, which is not part of the optimizer. *)
Variable final_column : UnwrappedLine -> Z.

(** The [kLine] case of [TreeReconstructor::TraverseTree]. *)
Definition TraverseLine (item : LayoutItem) (tr : TreeReconstructor)
  : Outcome TreeReconstructor :=
  match active_unwrapped_line_ tr with
  | None =>
      let uwline := ToUnwrappedLine item in
      let uwline := SetIndentationSpaces uwline (current_indentation_spaces_ tr) in
      (* Prevent SearchLineWraps from processing optimized lines. *)
      let uwline := SetPartitionPolicy uwline kAlreadyFormatted in
      Ok (set_active (set_lines tr (unwrapped_lines_ tr ++ [uwline]))
                     (Some (length (unwrapped_lines_ tr))))
  | Some active =>
      let tokens_end_ := tokens_end (ToUnwrappedLine item) in
      line <- deref (unwrapped_lines_ tr) active ;;
      Ok (set_lines tr (update (unwrapped_lines_ tr) active
                               (SpanUpToToken line tokens_end_)))
  end.

(** [TreeReconstructor::TraverseTree].  The two [ValueSaver]s restore
    [current_indentation_spaces_] when the call returns. *)
Fixpoint TraverseTree (layout_tree : LayoutTree) (tr : TreeReconstructor)
  : Outcome TreeReconstructor :=
  let relative_indentation := IndentationSpaces (Value layout_tree) in
  let saved := current_indentation_spaces_ tr in
  let tr := set_indentation tr (saved + relative_indentation) in
  let tr :=
    LOG_IF_WARNING ((0 <? relative_indentation)
                    && is_some (active_unwrapped_line_ tr)) tr in
  tr <-
    match layout_tree with
    | Node item children =>
        match Type_ item with
        | kLine =>
            CHECK (match children with [] => true | _ => false end) ;;
            TraverseLine item tr
        | kJuxtaposition =>
            (* Append all children *)
            foldM (fun tr child => TraverseTree child tr) children tr
        | kStack =>
            match children with
            | [] => Ok tr
            | [child] => TraverseTree child tr
            | front :: remaining =>
                (* Calculate indent for 2nd and further lines. *)
                indentation <-
                  match active_unwrapped_line_ tr with
                  | None => Ok (current_indentation_spaces_ tr)
                  | Some active =>
                      line <- deref (unwrapped_lines_ tr) active ;;
                      Ok (final_column line + SpacesBefore item)
                  end ;;
                (* Append first child *)
                tr <- TraverseTree front tr ;;
                (* Put remaining children in their own (indented) lines *)
                let tr := set_indentation tr indentation in
                foldM (fun tr child => TraverseTree child (set_active tr None))
                      remaining tr
            end
        end
    end ;;
  Ok (set_indentation tr saved).

(** The body of the loop of [ReplaceTokenPartitionTreeNode] over the
    tokens that follow the first one of a line. *)
Definition append_if_undecided (tok : PreFormatToken) : PreFormatToken :=
  {| before :=
       {| spaces_required := spaces_required (before tok);
          break_decision :=
            match break_decision (before tok) with
            | Undecided => MustAppend
            | decision => decision
            end |};
     text_length := text_length tok |}.

(** Discard first token's original spacing. *)
Definition wrap_first (tok : PreFormatToken) : PreFormatToken :=
  {| before := {| spaces_required := 0; break_decision := MustWrap |};
     text_length := text_length tok |}.

Definition modify {A} (l : list A) (i : nat) (f : A -> A) : list A :=
  match nth_error l i with
  | Some a => update l i (f a)
  | None => l
  end.

(** The treatment of one non-empty line: [line_ftokens] is the range of
    the line in the vector [ftokens]. *)
Definition format_line (ftokens : list PreFormatToken) (uwline : UnwrappedLine)
  : list PreFormatToken :=
  let ftokens := modify ftokens (tokens_begin uwline) wrap_first in
  fold_left (fun toks i => modify toks i append_if_undecided)
            (seq (S (tokens_begin uwline)) (tokens_end uwline - S (tokens_begin uwline)))
            ftokens.

(** The body of the [for] of [ReplaceTokenPartitionTreeNode]. *)
Definition Replace_step (acc : TokenPartitionTree * list PreFormatToken)
  (uwline : UnwrappedLine) : TokenPartitionTree * list PreFormatToken :=
  let '(node, ftokens) := acc in
  let ftokens := if negb (IsEmpty uwline) then format_line ftokens uwline else ftokens in
  (AdoptSubtree node (Node uwline []), ftokens).

(** [TreeReconstructor::ReplaceTokenPartitionTreeNode]. *)
Definition ReplaceTokenPartitionTreeNode (tr : TreeReconstructor)
  (node : TokenPartitionTree) (ftokens : list PreFormatToken)
  : Outcome (TokenPartitionTree * list PreFormatToken) :=
  match unwrapped_lines_ tr with
  | [] => Fail CheckFailed
  | first_line :: _ =>
      let last_line := last (unwrapped_lines_ tr) first_line in
      let value := first_line in
      let value := SpanUpToToken value (tokens_end last_line) in
      let value := SetIndentationSpaces value (current_indentation_spaces_ tr) in
      let value := SetPartitionPolicy value kOptimalFunctionCallLayout in
      let node := SetValue node value in
      let node := clear_children node in
      Ok (fold_left Replace_step (unwrapped_lines_ tr) (node, ftokens))
  end.

End Reconstructor.

(** The entry of [TraverseTree]: the first [ValueSaver] and the warning. *)
Definition enter (item : LayoutItem) (tr : TreeReconstructor) : TreeReconstructor :=
  let relative_indentation := IndentationSpaces item in
  let tr := set_indentation tr (current_indentation_spaces_ tr + relative_indentation) in
  LOG_IF_WARNING ((0 <? relative_indentation) && is_some (active_unwrapped_line_ tr)) tr.

(** The indentation of the second and further lines of a stack. *)
Definition stack_indentation (final_column : UnwrappedLine -> Z) (item : LayoutItem) (tr : TreeReconstructor) : Outcome Z :=
  match active_unwrapped_line_ tr with
  | None => Ok (current_indentation_spaces_ tr)
  | Some active =>
      line <- deref (unwrapped_lines_ tr) active ;;
      Ok (final_column line + SpacesBefore item)
  end.

(** The [switch] of [TraverseTree], between the entry and the restoration
    of the indentation. *)
Definition TraverseBody (final_column : UnwrappedLine -> Z) (item : LayoutItem)
  (children : list LayoutTree) (tr : TreeReconstructor) : Outcome TreeReconstructor :=
  match Type_ item with
  | kLine =>
      CHECK (match children with [] => true | _ => false end) ;;
      TraverseLine item tr
  | kJuxtaposition =>
      foldM (fun tr child => TraverseTree final_column child tr) children tr
  | kStack =>
      match children with
      | [] => Ok tr
      | [child] => TraverseTree final_column child tr
      | front :: remaining =>
          indentation <- stack_indentation final_column item tr ;;
          tr <- TraverseTree final_column front tr ;;
          let tr := set_indentation tr indentation in
          foldM (fun tr child => TraverseTree final_column child (set_active tr None))
                remaining tr
      end
  end.





(** Every flat line emitted so far carries the policy "already formatted". *)
Definition lines_already_formatted (tr : TreeReconstructor) : Prop :=
  Forall (fun l => partition_policy l = kAlreadyFormatted) (unwrapped_lines_ tr).

(** The flat lines follow one another in the vector of tokens: every range
    is well formed, and ends before the ranges of the later lines begin. *)
Fixpoint lines_in_order (lines : list UnwrappedLine) : bool :=
  match lines with
  | [] => true
  | l :: rest =>
      (tokens_begin l <=? tokens_end l)%nat
      && forallb (fun l' => (tokens_end l <=? tokens_begin l')%nat) rest
      && lines_in_order rest
  end.

(** What the treatment of the line [uwline] does to the token of index
    [j]. *)
Definition line_effect (uwline : UnwrappedLine) (j : nat) (tok : PreFormatToken)
  : PreFormatToken :=
  if IsEmpty uwline then tok
  else if (j =? tokens_begin uwline)%nat then wrap_first tok
  else if (tokens_begin uwline <? j)%nat && (j <? tokens_end uwline)%nat
       then append_if_undecided tok
  else tok.

(** ** The driver *)

Section Driver.

Variable style : BasicFormatStyle.
Variable ftokens : list PreFormatToken.

(** [LayoutFunctionFactory::Wrap] and [LayoutFunction::MustWrap] are
    defined in [layout_optimizer_internal.h]. *)
Variable Wrap : list LayoutFunction -> Outcome LayoutFunction.
Variable LayoutFunction_MustWrap : LayoutFunction -> Outcome bool.

(** The lambda [TraverseTree] of [OptimizeTokenPartitionTree]. *)
Fixpoint Driver_TraverseTree (subnode : TokenPartitionTree) : Outcome LayoutFunction :=
  match subnode with
  | Node value children =>
      let policy := partition_policy value in
      if is_leaf subnode then Ok (Line style ftokens value)
      else
        match policy with
        | kOptimalFunctionCallLayout =>
            (* Support only function/macro/system calls for now *)
            CHECK (length children =? 2)%nat ;;
            match children with
            | [function_header; function_args] =>
                header <- Driver_TraverseTree function_header ;;
                args <- Driver_TraverseTree function_args ;;
                indented <- Indent style args (wrap_spaces style) ;;
                stack_layout <- Stack style [header; indented] ;;
                must_wrap <- LayoutFunction_MustWrap args ;;
                if must_wrap then Ok stack_layout
                else
                  juxtaposed_layout <- Juxtaposition style [header; args] ;;
                  Choice [juxtaposed_layout; stack_layout]
            | _ => Fail CheckFailed
            end
        | kAppendFittingSubPartitions
        | kFitOnLineElseExpand =>
            layouts <- mapM Driver_TraverseTree children ;;
            Wrap layouts
        | kAlwaysExpand
        | kTabularAlignment =>
            layouts <- mapM Driver_TraverseTree children ;;
            Stack style layouts
        | _ => Fail UnsupportedPolicy
        end
  end.

Variable final_column : UnwrappedLine -> Z.

(** [OptimizeTokenPartitionTree]. *)
Definition OptimizeTokenPartitionTree (node : TokenPartitionTree)
  : Outcome (TokenPartitionTree * list PreFormatToken) :=
  let indentation := indentation_spaces (Value node) in
  layout_function <- Driver_TraverseTree node ;;
  CHECK negb (empty layout_function) ;;
  iter <- AtOrToTheLeftOf layout_function indentation ;;
  CHECK negb (IsEnd layout_function iter) ;;
  segment <- deref layout_function iter ;;
  let tree_reconstructor := mkTreeReconstructor indentation in
  tree_reconstructor <- TraverseTree final_column (layout segment) tree_reconstructor ;;
  ReplaceTokenPartitionTreeNode tree_reconstructor node ftokens.

End Driver.

(** ** Partition trees the driver rejects *)

(** The policies that the [switch] of the driver handles. *)
Definition handled_policy (p : PartitionPolicyEnum) : bool :=
  match p with
  | kOptimalFunctionCallLayout
  | kFitOnLineElseExpand
  | kAppendFittingSubPartitions
  | kAlwaysExpand
  | kTabularAlignment => true
  | _ => false
  end.

Definition is_function_call_policy (p : PartitionPolicyEnum) : bool :=
  match p with
  | kOptimalFunctionCallLayout => true
  | _ => false
  end.

(** An internal node with a policy outside the handled set, or with the
    function-call policy and a number of children other than two. *)
Definition offending (node : TokenPartitionTree) : bool :=
  negb (is_leaf node)
  && (negb (handled_policy (partition_policy (Value node)))
      || (is_function_call_policy (partition_policy (Value node))
          && negb (length (Children node) =? 2)%nat)).

(** Some node of the tree is offending. *)
Fixpoint has_offending (t : TokenPartitionTree) : bool :=
  match t with
  | Node value children =>
      offending (Node value children) || existsb has_offending children
  end.

(** ** Flattened layout trees *)

(** [nested parent child]: [child] is a Stack under a Stack, or a
    Juxtaposition under a Juxtaposition, and has no indentation. *)
Definition nested (parent : LayoutType) (child : LayoutTree) : bool :=
  is_composite parent
  && LayoutType_eqb parent (Type_ (Value child))
  && (IndentationSpaces (Value child) =? 0).

(** No node of the tree has a nested child. *)
Fixpoint flattened (t : LayoutTree) : bool :=
  match t with
  | Node item children =>
      forallb (fun c => negb (nested (Type_ item) c) && flattened c) children
  end.




(** The children gathered so far under a node of type [type] are flattened
    and not nested. *)
Definition adoptable (type : LayoutType) (children : list LayoutTree) : bool :=
  forallb (fun c => negb (nested type c) && flattened c) children.

(** ** The cost of a layout function at a column

    The segment of [lf] that covers the column [x], and the value of the
    cost function there. *)
Definition segment_at (lf : LayoutFunction) (x : Z) : Outcome LayoutFunctionSegment :=
  i <- AtOrToTheLeftOf lf x ;;
  deref lf i.

Definition cost_at (lf : LayoutFunction) (x : Z) : Outcome Q :=
  s <- segment_at lf x ;;
  Ok (CostAt s x).

(** A decision procedure for strictly increasing knots. *)
Fixpoint sorted_knotsb (lf : LayoutFunction) : bool :=
  match lf with
  | [] => true
  | s :: rest =>
      match rest with
      | [] => true
      | s' :: _ => (column s <? column s') && sorted_knotsb rest
      end
  end.

Definition first_knot_is_zero (lf : LayoutFunction) : Prop :=
  match lf with
  | [] => False
  | s :: _ => column s = 0
  end.

(** The knots of a layout function increase strictly. *)
Definition sorted_knots (lf : LayoutFunction) : Prop :=
  forall i j si sj, (i < j)%nat ->
    nth_error lf i = Some si -> nth_error lf j = Some sj ->
    column si < column sj.

(** [covers lf i col]: the half-open knot interval of the segment of index
    [i] contains [col]. *)
Definition covers (lf : LayoutFunction) (i : nat) (col : Z) : Prop :=
  exists s, nth_error lf i = Some s /\ column s <= col
            /\ forall s', nth_error lf (S i) = Some s' -> col < column s'.

Definition Qsum (l : list Q) : Q := fold_right Qplus 0%Q l.
Definition Zsum (l : list Z) : Z := fold_right Z.add 0 l.


(** The two [CHECK]s of [AdoptLayoutAndFlattenIfSameType] on a layout: the
    root item and the item of the first child agree on [MustWrap] and on
    [SpacesBefore]. *)
Definition agrees_with_front (t : LayoutTree) : bool :=
  match Children t with
  | [] => true
  | first :: _ =>
      Bool.eqb (MustWrap_ (Value t)) (MustWrap_ (Value first))
      && (SpacesBefore (Value t) =? SpacesBefore (Value first))
  end.

(** An input that [Stack] can take: it starts at column 0, its knots
    increase and its layouts pass the [CHECK]s of the adoption. *)
Definition stackable (F : LayoutFunction) : Prop :=
  first_knot_is_zero F /\ sorted_knots F
  /\ Forall (fun s => agrees_with_front (layout s) = true) F.

(** The number of knots to the right of column [c]. *)
Definition knots_after (c : Z) (lfs : list LayoutFunction) : nat :=
  fold_right (fun F n => (length (filter (fun s => (c <? column s)%Z) F) + n)%nat)
             0%nat lfs.



(** The segment that [Indent] pushes for the input segment [s]. *)
Definition shifted (style_ : BasicFormatStyle) (k : Z) (s : LayoutFunctionSegment)
  : LayoutFunctionSegment :=
  Indent_segment style_ k (Z.max k (column s) - k) (Z.max k (column s)) s.

(** ** Sample data

    The style of the test suite, and small inputs on which the statements
    below are exercised. *)

Definition sample_layout : LayoutTree := Node (mkLayoutItem kLine 0 false) [].

Definition sample_segment (c sp i g : Z) : LayoutFunctionSegment :=
  {| column := c; layout := sample_layout; span := sp;
     intercept := inject_Z i; gradient := g |}.

Definition test_style : BasicFormatStyle :=
  {| indentation_spaces_ := 2; wrap_spaces := 4; column_limit := 40;
     over_column_limit_penalty := 100; line_break_penalty := 2 |}.

Definition sample_token (spaces w : Z) : PreFormatToken :=
  {| before := {| spaces_required := spaces; break_decision := Undecided |};
     text_length := w |}.

(** Four words of widths 4, 4, 2 and 6 that render to "This line is short."
    (width 19), followed by single-token lines of widths 50, 10 and 41. *)
Definition sample_tokens : list PreFormatToken :=
  [sample_token 0 4; sample_token 1 4; sample_token 1 2; sample_token 1 6;
   sample_token 0 50; sample_token 0 10; sample_token 0 41].

Definition sample_line (b e : nat) : UnwrappedLine :=
  SpanUpToToken (mkUnwrappedLine 0 b) e.

Definition short_line : UnwrappedLine := sample_line 0 4.
Definition long_line : UnwrappedLine := sample_line 4 5.
Definition ten_columns_line : UnwrappedLine := sample_line 5 6.

(** Two layout functions of one segment each, with the same cost 100 and
    the same gradient 10 from column 0 on, and different layouts and spans. *)
Definition tie_first : LayoutFunction :=
  [ {| column := 0; layout := Node (mkLayoutItem kLine 0 false) [];
       span := 10; intercept := 100; gradient := 10 |} ].

Definition tie_second : LayoutFunction :=
  [ {| column := 0; layout := Node (mkLayoutItem kLine 1 true) [];
       span := 20; intercept := 100; gradient := 10 |} ].



Definition unwrap (m : Outcome LayoutFunction) : LayoutFunction :=
  match m with Ok lf => lf | Fail _ => [] end.

(** A partition tree whose second child has the function-call policy and
    three children. *)
Definition leaf_partition (b e : nat) : TokenPartitionTree :=
  Node (sample_line b e) [].

Definition three_children_call : TokenPartitionTree :=
  Node (SetPartitionPolicy (sample_line 0 7) kAlwaysExpand)
       [ leaf_partition 0 4;
         Node (SetPartitionPolicy (sample_line 4 7) kOptimalFunctionCallLayout)
              [leaf_partition 4 5; leaf_partition 5 6; leaf_partition 6 7] ].

(** A partition tree that the optimizer has already rewritten. *)
Definition already_formatted_tree : TokenPartitionTree :=
  Node (SetPartitionPolicy (sample_line 0 7) kAlreadyFormatted)
       [leaf_partition 0 4; leaf_partition 4 7].

(** Stand-ins for the functions of the absent header, used to run the
    driver on the samples. *)
Definition sample_Wrap (lfs : list LayoutFunction) : Outcome LayoutFunction :=
  Stack test_style lfs.

Definition sample_MustWrap (lf : LayoutFunction) : Outcome bool :=
  s <- deref lf 0%nat ;; Ok (MustWrap_ (Value (layout s))).

Definition line_layout (b e : nat) : LayoutTree :=
  Node (LayoutItem_of_line sample_tokens (sample_line b e)) [].

(** The state of the reconstructor after the line of the first token. *)
Definition one_line_state : TreeReconstructor :=
  {| unwrapped_lines_ := [SetPartitionPolicy (sample_line 0 1) kAlreadyFormatted];
     active_unwrapped_line_ := Some 0%nat;
     current_indentation_spaces_ := 0;
     warnings_ := 0 |}.

(** A juxtaposition with relative indentation [d]: a stack of a line and of
    [last], followed by a line. *)
Definition indented_juxtaposition (d : Z) (last : LayoutTree) : LayoutTree :=
  Node (SetItemIndentation (mkLayoutItem kJuxtaposition 0 false) d)
       [ Node (mkLayoutItem kStack 0 false) [line_layout 1 2; last];
         line_layout 3 4 ].

Definition empty_stack : LayoutTree := Node (mkLayoutItem kStack 0 false) [].

(** The width of a sequence of tokens printed on one line: the texts, and
    the spaces required before every token but the first. *)
Definition rendered_width (toks : list PreFormatToken) : Z :=
  match toks with
  | [] => 0
  | front :: rest =>
      text_length front
      + fold_right (fun tok w => spaces_required (before tok) + text_length tok + w)
                   0 rest
  end.

(** A stand-in for the final column that the line wrap searcher computes. *)
Definition sample_final_column (u : UnwrappedLine) : Z :=
  indentation_spaces u
  + rendered_width (TokensRange sample_tokens (tokens_begin u) (tokens_end u)).

(** ** Predicates of the properties of the combinators and of the reconstructor *)

(** [k] is a knot of one of the functions [lfs]. *)
Definition knot_of (lfs : list LayoutFunction) (k : Z) : Prop :=
  exists F, In F lfs /\ In k (map column F).

(** The token ranges of the lines of a layout tree, from left to right. *)
Fixpoint line_ranges (t : LayoutTree) : list (nat * nat) :=
  match t with
  | Node item children =>
      match Type_ item with
      | kLine => [(item_tokens_begin item, item_tokens_end item)]
      | _ => flat_map line_ranges children
      end
  end.

(** The layout of the segment [r] of a stack lists the lines of the
    segments of the stacked functions that cover the column of [r], in
    the order of the functions. *)
Definition Stack_lines (lfs : list LayoutFunction) (r : LayoutFunctionSegment) : Prop :=
  exists segs,
    Forall2 (fun F s => segment_at F (column r) = Ok s) lfs segs
    /\ line_ranges (layout r) = flat_map (fun s => line_ranges (layout s)) segs.


(** Every segment of [lf] asks for [sb] spaces before its layout. *)
Definition uniform_spacing (sb : Z) (lf : LayoutFunction) : Prop :=
  Forall (fun s => SpacesBefore (Value (layout s)) = sb) lf.

(** The spans of the segments do not decrease from left to right. *)
Definition spans_do_not_decrease (lf : LayoutFunction) : Prop :=
  forall i l l', nth_error lf i = Some l -> nth_error lf (S i) = Some l' ->
                 span l <= span l'.

(** [m] is cheapest at column [c], and among the cheapest it has the least
    gradient. *)
Definition cheapest (c : Z) (m : Position) (positions : list Position) : Prop :=
  forall p, In p positions ->
    (CostAt (snd m) c <= CostAt (snd p) c)%Q
    /\ ((CostAt (snd m) c == CostAt (snd p) c)%Q -> gradient (snd m) <= gradient (snd p)).

(** The column at which the cost of [p] falls to the cost of [m]. *)
Definition crossover_column (c : Z) (m p : LayoutFunctionSegment) : Z :=
  c + Qceiling ((CostAt p c - CostAt m c) / inject_Z (gradient m - gradient p))%Q.








(** What the first [for] of the outer loop of [Choice] leaves: every
    iterator covers the current column, and [next_knot] is below the knots
    that follow the iterators. *)
Definition moved_to (c : Z) (it : Iterator) (p : Position) : Prop :=
  container_id (fst p) = container_id it
  /\ Container (fst p) = Container it
  /\ covers (Container it) (Index (fst p)) c
  /\ it_deref (fst p) = Ok (snd p).

(** The number of positions whose gradient is below [g]. *)
Definition flatter (g : Z) (positions : list Position) : nat :=
  length (filter (fun p => gradient (snd p) <? g) positions).

(** The lines [l] and [l'] start at the same token, with the same
    indentation and the same policy. *)
Definition same_start (l l' : UnwrappedLine) : Prop :=
  tokens_begin l' = tokens_begin l
  /\ indentation_spaces l' = indentation_spaces l
  /\ partition_policy l' = partition_policy l.

(** From [tr] to [tr'] every line stays where it is and keeps its start;
    a line that is not the active one is not touched, and does not become
    active again. *)
Definition keeps (tr tr' : TreeReconstructor) : Prop :=
  forall i l, nth_error (unwrapped_lines_ tr) i = Some l ->
    exists l', nth_error (unwrapped_lines_ tr') i = Some l'
               /\ same_start l l'
               /\ (active_unwrapped_line_ tr <> Some i ->
                   l' = l /\ active_unwrapped_line_ tr' <> Some i).

(** Every line node of the tree is a leaf. *)
Fixpoint line_leaves (t : LayoutTree) : bool :=
  match t with
  | Node item children =>
      (negb (LayoutType_eqb (Type_ item) kLine)
       || match children with [] => true | _ => false end)
      && forallb line_leaves children
  end.

(** The active line, when there is one, is one of the lines. *)
Definition valid_active (tr : TreeReconstructor) : Prop :=
  match active_unwrapped_line_ tr with
  | Some i => (i < length (unwrapped_lines_ tr))%nat
  | None => True
  end.

(** The traversal of [t] from [tr] returns, in a state with a valid active
    line, when every line node of [t] is a leaf; otherwise it stops at a
    failed [CHECK]. *)
Definition returns_or_checks (final_column : UnwrappedLine -> Z) (t : LayoutTree) : Prop :=
  forall tr, valid_active tr ->
    if line_leaves t
    then exists tr', TraverseTree final_column t tr = Ok tr' /\ valid_active tr'
    else TraverseTree final_column t tr = Fail CheckFailed.

(** The flat line that the reconstructor starts for the line item [item]
    when the indentation of the enclosing nodes is [d]. *)
Definition emitted (d : Z) (item : LayoutItem) : UnwrappedLine :=
  SetPartitionPolicy
    (SetIndentationSpaces (ToUnwrappedLine item) (d + IndentationSpaces item))
    kAlreadyFormatted.

(** The number of warnings that the items appended to an active line cause. *)
Definition indented_items (items : list LayoutItem) : nat :=
  length (filter (fun item => 0 <? IndentationSpaces item) items).

(** The line [value] with the policy [policy]. *)
Definition with_policy (value : UnwrappedLine) (policy : PartitionPolicyEnum)
  : UnwrappedLine :=
  {| indentation_spaces := indentation_spaces value;
     tokens_begin := tokens_begin value;
     tokens_end := tokens_end value;
     partition_policy := policy |}.

(** The ranges [rs] follow one another from the token [b] on: the first
    starts at [b], every other starts where the one before ends, and
    no range ends before it starts. *)
Fixpoint chain (b : nat) (rs : list (nat * nat)) : bool :=
  match rs with
  | [] => true
  | r :: rs' => (fst r =? b)%nat && (fst r <=? snd r)%nat && chain (snd r) rs'
  end.

(** The token at which the chain [rs] from [b] ends. *)
Definition chain_end (b : nat) (rs : list (nat * nat)) : nat :=
  fold_left (fun _ r => snd r) rs b.

(** The active line, when there is one, is the last line. *)
Definition active_is_last (tr : TreeReconstructor) : Prop :=
  match active_unwrapped_line_ tr with
  | Some a => S a = length (unwrapped_lines_ tr)
  | None => True
  end.

(** The lines emitted so far are in order and end at the token [e]. *)
Definition emitted_upto (tr : TreeReconstructor) (e : nat) : Prop :=
  lines_in_order (unwrapped_lines_ tr) = true
  /\ active_is_last tr
  /\ match last_error (unwrapped_lines_ tr) with
     | Some l => tokens_end l = e
     | None => True
     end.

(** The first token of the first line. *)
Definition first_token (tr : TreeReconstructor) : option nat :=
  option_map tokens_begin (hd_error (unwrapped_lines_ tr)).

(** What a traversal that returns does with the ranges [rs], which it
    meets from the token [b] on. *)
Definition covers_ranges (rs : list (nat * nat))
  (f : TreeReconstructor -> Outcome TreeReconstructor) : Prop :=
  forall tr tr' b,
    chain b rs = true -> emitted_upto tr b -> f tr = Ok tr' ->
    emitted_upto tr' (chain_end b rs)
    /\ first_token tr'
       = match first_token tr with
         | Some x => Some x
         | None => match rs with [] => None | _ => Some b end
         end.

(** Every segment of the function of the iterator [it] has the layout [L],
    which is a leaf. *)
Definition leaf_layout (it : Iterator) (L : LayoutTree) : Prop :=
  is_leaf L = true /\ forall s, In s (Container it) -> layout s = L.

(** The line of [v] at the indentation [d], marked as formatted. *)
Definition expanded_line (d : Z) (v : UnwrappedLine) : UnwrappedLine :=
  {| indentation_spaces := d;
     tokens_begin := tokens_begin v;
     tokens_end := tokens_end v;
     partition_policy := kAlreadyFormatted |}.

(** A header of one token and an argument that must go to a new line. *)
Definition wrapping_tokens : list PreFormatToken :=
  [sample_token 0 4;
   {| before := {| spaces_required := 1; break_decision := MustWrap |};
      text_length := 6 |}].

(** * Properties *)

Unset Implicit Arguments.

(** ** The segment lookup *)

Lemma half_lt (n : nat) : (S n / 2 < S n)%nat.
Proof. apply Nat.div_lt; lia. Qed.

Lemma lower_bound_bounds (lf : LayoutFunction) (col : Z) (first len : nat) :
  (first <= lower_bound lf col first len <= first + len)%nat.
Proof.
  funelim (lower_bound lf col first len); try rewrite <- Heqcall; try lia.
  all: pose proof (half_lt n); lia.
Qed.

(** The search never stays on an element that satisfies the comparison: if
    the first element of the range does, the result is past it.  No order
    on the knots is needed. *)
Lemma lower_bound_past_first (lf : LayoutFunction) (col : Z) (first len : nat) s :
  (first + len <= length lf)%nat ->
  nth_error lf first = Some s ->
  column s <= col ->
  (0 < len)%nat ->
  (first < lower_bound lf col first len)%nat.
Proof.
  funelim (lower_bound lf col first len); intros Hin Hs Hle Hlen;
    try rewrite <- Heqcall; [lia | pose proof (half_lt n) as Hhalf ..].
  - exfalso. apply nth_error_None in Heq. lia.
  - pose proof (lower_bound_bounds lf col (first + S n / 2 + 1)
                  (S n - S n / 2 - 1)). lia.
  - destruct (Nat.eq_dec (S n / 2) 0) as [E|E].
    + rewrite E, Nat.add_0_r in Heq0. rewrite Hs in Heq0. inversion Heq0; subst.
      apply Z.leb_gt in Heq. lia.
    + apply (H s0); auto; lia.
Qed.

(** Whenever the search moves, the element just before the result
    satisfies the comparison. *)
Lemma lower_bound_pred_before (lf : LayoutFunction) (col : Z) (first len : nat) :
  (first < lower_bound lf col first len)%nat ->
  exists s, nth_error lf (lower_bound lf col first len - 1) = Some s
            /\ column s <= col.
Proof.
  funelim (lower_bound lf col first len); try rewrite <- Heqcall; intros Hlt;
    [lia | lia | pose proof (half_lt n) as Hhalf ..].
  - pose proof (lower_bound_bounds lf col (first + S n / 2 + 1)
                  (S n - S n / 2 - 1)) as Hb.
    destruct (Nat.eq_dec (lower_bound lf col (first + S n / 2 + 1)
                            (S n - S n / 2 - 1)) (first + S n / 2 + 1)) as [E|E].
    + rewrite E. exists s. split.
      * replace (first + S n / 2 + 1 - 1)%nat with (first + S n / 2)%nat by lia.
        exact Heq0.
      * apply Z.leb_le; exact Heq.
    + apply H. lia.
  - apply H. exact Hlt.
Qed.

(** On strictly increasing knots the search returns the partition point. *)
Lemma lower_bound_partition (lf : LayoutFunction) (col : Z) (first len : nat) :
  sorted_knots lf ->
  (first + len <= length lf)%nat ->
  (forall i s, (first <= i < lower_bound lf col first len)%nat ->
               nth_error lf i = Some s -> column s <= col)
  /\ (forall i s, (lower_bound lf col first len <= i < first + len)%nat ->
                  nth_error lf i = Some s -> col < column s).
Proof.
  intros Hsorted.
  funelim (lower_bound lf col first len); try rewrite <- Heqcall; intros Hin;
    [split; intros; lia | | pose proof (half_lt n) as Hhalf ..].
  - exfalso. apply nth_error_None in Heq. pose proof (half_lt n). lia.
  - destruct (H Hsorted ltac:(lia)) as [Hlo Hhi]. apply Z.leb_le in Heq.
    split; intros i si Hi Hsi.
    + destruct (Nat.lt_ge_cases i (first + S n / 2 + 1)) as [Hlt|Hge].
      * destruct (Nat.eq_dec i (first + S n / 2)) as [->|Hne].
        -- rewrite Heq0 in Hsi. inversion Hsi; subst. exact Heq.
        -- pose proof (Hsorted i (first + S n / 2)%nat si s ltac:(lia) Hsi Heq0). lia.
      * apply (Hlo i); auto. lia.
    + apply (Hhi i); auto. lia.
  - destruct (H Hsorted ltac:(lia)) as [Hlo Hhi]. apply Z.leb_gt in Heq.
    split; intros i si Hi Hsi.
    + apply (Hlo i); auto.
    + destruct (Nat.lt_ge_cases i (first + S n / 2)) as [Hlt|Hge].
      * apply (Hhi i); auto. lia.
      * destruct (Nat.eq_dec i (first + S n / 2)) as [->|Hne].
        -- rewrite Heq0 in Hsi. inversion Hsi; subst. exact Heq.
        -- pose proof (Hsorted (first + S n / 2)%nat i s si ltac:(lia) Heq0 Hsi). lia.
Qed.

Lemma AtOrToTheLeftOf_covers (lf : LayoutFunction) (i : nat) (col : Z) :
  sorted_knots lf -> covers lf i col -> AtOrToTheLeftOf lf col = Ok i.
Proof.
  intros Hsorted (s & Hs & Hle & Hnext).
  assert (Hi : (i < length lf)%nat) by (apply nth_error_Some; congruence).
  unfold AtOrToTheLeftOf. destruct lf as [|s0 rest]; [simpl in Hi; lia|].
  set (lf := s0 :: rest) in *.
  pose proof (lower_bound_bounds lf col 0 (length lf)) as Hb.
  destruct (lower_bound_partition lf col 0 (length lf) Hsorted ltac:(lia)) as [Hlo Hhi].
  assert (Hr : lower_bound lf col 0 (length lf) = S i).
  { destruct (Nat.lt_trichotomy (lower_bound lf col 0 (length lf)) (S i))
      as [Hlt | [Heq | Hgt]]; auto.
    - pose proof (Hhi i s ltac:(lia) Hs). lia.
    - destruct (nth_error lf (S i)) as [s'|] eqn:Hs'.
      + pose proof (Hlo (S i) s' ltac:(lia) Hs'). pose proof (Hnext s' eq_refl). lia.
      + apply nth_error_None in Hs'. lia. }
  rewrite Hr. simpl. rewrite Nat.sub_0_r. reflexivity.
Qed.

Lemma AtOrToTheLeftOf_inv (lf : LayoutFunction) (i : nat) (col : Z) :
  lf <> [] -> sorted_knots lf -> AtOrToTheLeftOf lf col = Ok i -> covers lf i col.
Proof.
  intros Hne Hsorted. unfold AtOrToTheLeftOf.
  destruct lf as [|s0 rest]; [congruence|]. set (lf := s0 :: rest) in *.
  pose proof (lower_bound_bounds lf col 0 (length lf)) as Hb.
  destruct (lower_bound_partition lf col 0 (length lf) Hsorted ltac:(lia)) as [Hlo Hhi].
  destruct (lower_bound lf col 0 (length lf)) as [|r] eqn:Hr; simpl; [discriminate|].
  intros H; inversion H; subst i; clear H. rewrite Nat.sub_0_r.
  destruct (nth_error lf r) as [s|] eqn:Hs.
  - exists s. split; [exact Hs|]. split.
    + apply (Hlo r); auto. lia.
    + intros s' Hs'. apply (Hhi (S r)); auto.
      assert (S r < length lf)%nat by (apply nth_error_Some; congruence). lia.
  - apply nth_error_None in Hs. lia.
Qed.

(** The lookup finds a segment as soon as the first knot is at or to the
    left of the column. *)
Lemma AtOrToTheLeftOf_found (s : LayoutFunctionSegment) (rest : LayoutFunction) (c : Z) :
  column s <= c ->
  exists i seg, AtOrToTheLeftOf (s :: rest) c = Ok i
                /\ nth_error (s :: rest) i = Some seg /\ column seg <= c.
Proof.
  intros Hs0. unfold AtOrToTheLeftOf.
  set (lf := s :: rest).
  assert (Hlt : (0 < lower_bound lf c 0 (length lf))%nat).
  { apply (lower_bound_past_first lf c 0 (length lf) s); simpl; auto; lia. }
  destruct (lower_bound_pred_before lf c 0 (length lf) Hlt) as (seg & Hseg & Hle).
  destruct (lower_bound lf c 0 (length lf)) as [|r]; [lia|].
  simpl. exists (r - 0)%nat, seg. simpl in Hseg. auto.
Qed.

(** C10.  For every column [c >= 0] the lookup on the empty layout function
    returns the end iterator and does not fail; on a non-empty layout
    function whose first segment has column 0 it returns the index of a
    segment of the function (never a past-the-start result), and the knot
    of that segment is at or to the left of [c]. *)
Theorem AtOrToTheLeftOf_safe (lf : LayoutFunction) (c : Z) :
  0 <= c ->
  (lf = [] -> AtOrToTheLeftOf lf c = Ok (length lf))
  /\ (forall s rest, lf = s :: rest -> column s = 0 ->
        exists i seg, AtOrToTheLeftOf lf c = Ok i
                      /\ nth_error lf i = Some seg /\ column seg <= c).
Proof.
  intros Hc. split.
  - intros ->. reflexivity.
  - intros s rest -> Hs0. apply AtOrToTheLeftOf_found. lia.
Qed.

Lemma AtOrToTheLeftOf_safe_witness :
  AtOrToTheLeftOf [] 7 = Ok 0%nat
  /\ exists i seg,
      AtOrToTheLeftOf [sample_segment 0 10 101 11; sample_segment 3 40 404 44;
                       sample_segment 40 50 505 55] 7 = Ok i
      /\ nth_error [sample_segment 0 10 101 11; sample_segment 3 40 404 44;
                    sample_segment 40 50 505 55] i = Some seg
      /\ column seg <= 7.
Proof.
  split.
  - apply (proj1 (AtOrToTheLeftOf_safe [] 7 ltac:(lia))). reflexivity.
  - apply (proj2 (AtOrToTheLeftOf_safe
                    [sample_segment 0 10 101 11; sample_segment 3 40 404 44;
                     sample_segment 40 50 505 55] 7 ltac:(lia))
             (sample_segment 0 10 101 11)
             [sample_segment 3 40 404 44; sample_segment 40 50 505 55]);
      reflexivity.
Defined.

(** ** The [Line] combinator *)





(** ** The [Indent] combinator *)

Lemma Indent_loop_eq (style : BasicFormatStyle) (indent : Z)
  (rest : list LayoutFunctionSegment) :
  forall indent_column column_ segment result,
    Indent_loop style indent indent_column column_ segment rest result
    = result
      ++ Indent_segment style indent indent_column column_ segment
      :: map (fun s => Indent_segment style indent (column s - indent) (column s) s) rest.
Proof.
  induction rest as [|next rest IH]; intros; simpl.
  - reflexivity.
  - rewrite IH, <- app_assoc. reflexivity.
Qed.

Lemma sorted_knots_tail (s : LayoutFunctionSegment) (lf : LayoutFunction) :
  sorted_knots (s :: lf) -> sorted_knots lf.
Proof.
  intros H i j si sj Hij Hi Hj.
  apply (H (S i) (S j) si sj); simpl; auto. lia.
Qed.

Lemma sorted_knots_skipn (n : nat) (lf : LayoutFunction) :
  sorted_knots lf -> sorted_knots (skipn n lf).
Proof.
  revert lf. induction n as [|n IH]; intros lf H; simpl; auto.
  destruct lf as [|s lf]; auto. apply IH. eapply sorted_knots_tail; eauto.
Qed.

Lemma nth_error_skipn_shift {A} (n i : nat) (l : list A) :
  nth_error (skipn n l) i = nth_error l (n + i).
Proof.
  revert l. induction n as [|n IH]; intros l; simpl; auto.
  destruct l as [|a l]; simpl; auto. destruct i; reflexivity.
Qed.

(** A lookup succeeds on a function that starts at column 0. *)
Lemma AtOrToTheLeftOf_defined (lf : LayoutFunction) (c : Z) :
  first_knot_is_zero lf -> sorted_knots lf -> 0 <= c ->
  exists i, AtOrToTheLeftOf lf c = Ok i /\ covers lf i c.
Proof.
  intros Hz Hs Hc. destruct lf as [|s rest]; [contradiction|]. simpl in Hz.
  destruct (AtOrToTheLeftOf_found s rest c ltac:(lia)) as (i & seg & Hi & _).
  exists i. split; auto. apply AtOrToTheLeftOf_inv; auto. discriminate.
Qed.



(** With strictly increasing knots, [Indent] maps [shifted] over the
    segments from the one that covers the column [indent]. *)
Lemma Indent_eq_map (style : BasicFormatStyle) (lf : LayoutFunction) (k : Z) (i0 : nat) :
  sorted_knots lf -> 0 <= k -> covers lf i0 k ->
  Indent style lf k = Ok (map (shifted style k) (skipn i0 lf)).
Proof.
  intros Hsorted Hk Hcov.
  pose proof (AtOrToTheLeftOf_covers lf i0 k Hsorted Hcov) as Hat.
  destruct Hcov as (s0 & Hs0 & Hle & Hnext).
  assert (Hsplit : skipn i0 lf = s0 :: skipn (S i0) lf).
  { clear -Hs0. revert i0 Hs0.
    induction lf as [|b l IH]; intros [|i] H; try discriminate.
    - simpl in H. inversion H. reflexivity.
    - simpl in H. apply IH in H. exact H. }
  unfold Indent.
  replace (empty lf) with false
    by (destruct lf; [destruct i0; discriminate | reflexivity]).
  cbn [negb].
  replace (0 <=? k) with true by (symmetry; apply Z.leb_le; lia).
  rewrite Hat. cbn [bind]. unfold deref. rewrite Hs0. cbn [bind].
  rewrite Indent_loop_eq. cbn [app]. f_equal.
  rewrite Hsplit. cbn [map]. f_equal.
  - unfold shifted. rewrite Z.max_l by lia. rewrite Z.sub_diag. reflexivity.
  - apply map_ext_in. intros s Hin. unfold shifted.
    apply In_nth_error in Hin. destruct Hin as [j Hj].
    rewrite nth_error_skipn_shift in Hj.
    assert (k < column s).
    { destruct j as [|j].
      - apply Hnext. rewrite <- Hj. f_equal. lia.
      - destruct (nth_error lf (S i0)) as [s1|] eqn:Hs1.
        + pose proof (Hnext s1 eq_refl).
          pose proof (Hsorted (S i0) (S i0 + S j)%nat s1 s ltac:(lia) Hs1 Hj). lia.
        + apply nth_error_None in Hs1.
          assert (S i0 + S j < length lf)%nat by (apply nth_error_Some; congruence).
          lia. }
    rewrite Z.max_r by lia. reflexivity.
Qed.

Lemma nth_error_shifted (style : BasicFormatStyle) (k : Z) (lf : LayoutFunction)
  (i0 j : nat) :
  nth_error (map (shifted style k) (skipn i0 lf)) j
  = option_map (shifted style k) (nth_error lf (i0 + j)).
Proof. rewrite nth_error_map, nth_error_skipn_shift. reflexivity. Qed.

(** Knots after the one that covers [k] are to the right of [k]. *)
Lemma knots_after_cover (lf : LayoutFunction) (i0 j : nat) (k : Z) s :
  sorted_knots lf -> covers lf i0 k ->
  nth_error lf (i0 + S j) = Some s -> k < column s.
Proof.
  intros Hsorted (s0 & Hs0 & Hle & Hnext) Hj.
  destruct (nth_error lf (S i0)) as [s1|] eqn:Hs1.
  - pose proof (Hnext s1 eq_refl).
    destruct j as [|j].
    + replace (i0 + 1)%nat with (S i0) in Hj by lia. congruence.
    + pose proof (Hsorted (S i0) (i0 + S (S j))%nat s1 s ltac:(lia) Hs1 Hj). lia.
  - apply nth_error_None in Hs1.
    assert (i0 + S j < length lf)%nat by (apply nth_error_Some; congruence). lia.
Qed.

Lemma sorted_knots_shifted (style : BasicFormatStyle) (k : Z) (lf : LayoutFunction)
  (i0 : nat) :
  sorted_knots lf -> covers lf i0 k ->
  sorted_knots (map (shifted style k) (skipn i0 lf)).
Proof.
  intros Hsorted Hcov a b ra rb Hab Ha Hb.
  rewrite nth_error_shifted in Ha, Hb.
  destruct (nth_error lf (i0 + a)) as [sa|] eqn:Hsa; [|discriminate].
  destruct (nth_error lf (i0 + b)) as [sb|] eqn:Hsb; [|discriminate].
  inversion Ha; inversion Hb; subst. unfold shifted, Indent_segment; cbn [column].
  pose proof (Hsorted (i0 + a)%nat (i0 + b)%nat sa sb ltac:(lia) Hsa Hsb).
  destruct b as [|b]; [lia|].
  pose proof (knots_after_cover lf i0 b k sb Hsorted Hcov Hsb). lia.
Qed.

Lemma covers_monotone (lf : LayoutFunction) (i0 i : nat) (k c : Z) :
  sorted_knots lf -> covers lf i0 k -> covers lf i c -> k <= c -> (i0 <= i)%nat.
Proof.
  intros Hsorted (s0 & Hs0 & Hle0 & _) (s & Hs & Hle & Hnext) Hkc.
  destruct (Nat.le_gt_cases i0 i) as [|Hlt]; auto. exfalso.
  destruct (nth_error lf (S i)) as [s1|] eqn:Hs1.
  - pose proof (Hnext s1 eq_refl).
    destruct (Nat.eq_dec (S i) i0) as [E|E].
    + subst i0. rewrite Hs0 in Hs1. inversion Hs1; subst. lia.
    + pose proof (Hsorted (S i) i0 s1 s0 ltac:(lia) Hs1 Hs0). lia.
  - apply nth_error_None in Hs1.
    assert (i0 < length lf)%nat by (apply nth_error_Some; congruence). lia.
Qed.


Lemma sorted_knotsb_sound (lf : LayoutFunction) :
  sorted_knotsb lf = true -> sorted_knots lf.
Proof.
  induction lf as [|s rest IH]; intros Hb i j si sj Hij Hi Hj.
  - destruct i; discriminate.
  - simpl in Hb. destruct rest as [|s' rest'].
    + destruct j as [|[|j]]; simpl in Hj; try discriminate. lia.
    + apply andb_prop in Hb. destruct Hb as [Hlt Hrest]. apply Z.ltb_lt in Hlt.
      specialize (IH Hrest).
      destruct j as [|j]; [lia|]. simpl in Hj.
      destruct i as [|i].
      * simpl in Hi. inversion Hi; subst.
        destruct j as [|j].
        -- simpl in Hj. inversion Hj; subst. exact Hlt.
        -- pose proof (IH 0%nat (S j) s' sj ltac:(lia) eq_refl Hj). lia.
      * simpl in Hi. apply (IH i j); auto. lia.
Qed.



(** ** The [Stack] combinator *)

Lemma fold_AdoptSubtree_Value {A} (cs : list (VectorTree A)) (d : VectorTree A) :
  Value (fold_left AdoptSubtree cs d) = Value d.
Proof.
  revert d. induction cs as [|c cs IHcs]; intros d; simpl.
  - reflexivity.
  - rewrite IHcs. reflexivity.
Qed.

Lemma fold_AdoptSubtree_Children {A} (cs : list (VectorTree A)) (d : VectorTree A) :
  Children (fold_left AdoptSubtree cs d) = Children d ++ cs.
Proof.
  revert d. induction cs as [|c cs IHcs]; intros d; simpl.
  - rewrite app_nil_r. reflexivity.
  - rewrite IHcs. simpl. rewrite <- app_assoc. reflexivity.
Qed.

Lemma Adopt_Value (source destination result : LayoutTree) :
  AdoptLayoutAndFlattenIfSameType source destination = Ok result ->
  Value result = Value destination.
Proof.
  unfold AdoptLayoutAndFlattenIfSameType.
  destruct (negb (is_leaf source)
            && LayoutType_eqb (Type_ (Value source)) (Type_ (Value destination))
            && (IndentationSpaces (Value source) =? 0)).
  - destruct (Children source) as [|first rest]; [discriminate|].
    destruct (Bool.eqb _ _); [|discriminate].
    destruct (_ =? _); [|discriminate].
    intros H; inversion H; subst; clear H.
    apply (fold_AdoptSubtree_Value (first :: rest)).
  - intros H; inversion H. reflexivity.
Qed.

Lemma mapM_Move (c : Z) (segments moved : list Iterator) :
  mapM (fun it => MoveToKnotAtOrToTheLeftOf it c) segments = Ok moved ->
  Forall2 (fun it it' => Container it' = Container it
                         /\ container_id it' = container_id it
                         /\ AtOrToTheLeftOf (Container it) c = Ok (Index it'))
          segments moved.
Proof.
  revert moved. induction segments as [|it segments IH]; intros moved H; simpl in H.
  - inversion H. constructor.
  - unfold MoveToKnotAtOrToTheLeftOf at 1 in H.
    destruct (AtOrToTheLeftOf (Container it) c) as [i|] eqn:Hi; [|discriminate].
    cbn [bind] in H.
    destruct (mapM _ segments) as [moved'|] eqn:Hm; [|discriminate].
    cbn [bind] in H. inversion H; subst. constructor; auto.
Qed.

Lemma Stack_accumulate_fold (c : Z) (segments : list Iterator) :
  forall init new_segment,
    foldM (Stack_accumulate c) segments init = Ok new_segment ->
    exists segs,
      Forall2 (fun it s => it_deref it = Ok s) segments segs
      /\ (intercept new_segment
          == intercept init + Qsum (map (fun s => CostAt s c) segs))%Q
      /\ gradient new_segment = gradient init + Zsum (map gradient segs)
      /\ span new_segment = span init
      /\ column new_segment = column init
      /\ Value (layout new_segment) = Value (layout init).
Proof.
  induction segments as [|it segments IH]; intros init ns H; simpl in H.
  - inversion H; subst. exists []. simpl.
    split; [constructor|]. split; [ring|]. split; [lia|]. auto.
  - unfold Stack_accumulate at 1 in H.
    destruct (it_deref it) as [s|] eqn:Hs; [|discriminate]. cbn [bind] in H.
    destruct (AdoptLayoutAndFlattenIfSameType (layout s) (layout init))
      as [l|] eqn:Hl; [|discriminate]. cbn [bind] in H.
    apply IH in H. destruct H as (segs & Hall & Hi & Hg & Hsp & Hc & Hv).
    cbn [intercept gradient span column layout] in *.
    exists (s :: segs). simpl.
    split; [constructor; auto|]. split; [rewrite Hi; ring|]. split; [lia|].
    split; [auto|]. split; [auto|].
    rewrite Hv. eapply Adopt_Value; eauto.
Qed.


Lemma moved_segments (c : Z) (segments moved : list Iterator)
  (segs : list LayoutFunctionSegment) :
  Forall2 (fun it it' => Container it' = Container it
                         /\ container_id it' = container_id it
                         /\ AtOrToTheLeftOf (Container it) c = Ok (Index it'))
          segments moved ->
  Forall2 (fun it s => it_deref it = Ok s) moved segs ->
  Forall2 (fun F s => segment_at F c = Ok s) (map Container segments) segs
  /\ map Container moved = map Container segments.
Proof.
  intros H. revert segs. induction H as [|it it' segments moved (HC & _ & Hat) _ IH];
    intros segs Hd; inversion Hd; subst; simpl.
  - split; constructor.
  - destruct (IH _ H3) as [IH1 IH2]. split.
    + constructor; auto. unfold segment_at. rewrite Hat. cbn [bind].
      unfold it_deref in H1. rewrite HC in H1. exact H1.
    + rewrite HC, IH2. reflexivity.
Qed.


Lemma Container_begin_iterators (lfs : list LayoutFunction) :
  map Container (begin_iterators lfs) = lfs.
Proof.
  unfold begin_iterators. generalize 0%nat.
  induction lfs as [|lf lfs IH]; intros n; simpl; auto.
  rewrite IH. reflexivity.
Qed.




(** *** [Stack] returns *)

Lemma Adopt_defined (source destination : LayoutTree) :
  agrees_with_front source = true ->
  exists result, AdoptLayoutAndFlattenIfSameType source destination = Ok result.
Proof.
  unfold agrees_with_front, AdoptLayoutAndFlattenIfSameType. intros H.
  destruct (negb (is_leaf source)
            && LayoutType_eqb (Type_ (Value source)) (Type_ (Value destination))
            && (IndentationSpaces (Value source) =? 0)) eqn:Hc.
  - destruct (Children source) as [|first rest] eqn:Hcs.
    + unfold is_leaf in Hc. rewrite Hcs in Hc. discriminate.
    + apply andb_true_iff in H. destruct H as [H1 H2]. rewrite H1, H2.
      eexists. reflexivity.
  - eexists. reflexivity.
Qed.

Lemma Stack_accumulate_defined (c : Z) (moved : list Iterator) :
  forall new_segment,
    Forall (fun it => exists s, it_deref it = Ok s
                                /\ agrees_with_front (layout s) = true) moved ->
    exists r, foldM (Stack_accumulate c) moved new_segment = Ok r.
Proof.
  induction moved as [|it moved IH]; intros new_segment H; simpl.
  - eexists. reflexivity.
  - inversion H as [|? ? (s & Hs & Ha) Hrest]; subst.
    unfold Stack_accumulate at 1. rewrite Hs. cbn [bind].
    destruct (Adopt_defined (layout s) (layout new_segment) Ha) as (r & Hr).
    rewrite Hr. cbn [bind]. apply IH. exact Hrest.
Qed.

(** The next column is the start, or a knot to the right of the current
    column that lies below the start. *)
Lemma Stack_next_column_defined (c : Z) (moved : list Iterator) :
  forall start,
    Forall (fun it => covers (Container it) (Index it) c) moved ->
    exists n,
      foldM (Stack_next_column c) moved start = Ok n
      /\ (n = start
          \/ (n < start /\ c < n
              /\ exists it s, In it moved /\ In s (Container it) /\ column s = n)).
Proof.
  induction moved as [|it moved IH]; intros start H; simpl.
  - exists start. auto.
  - inversion H as [|? ? (s0 & Hs0 & Hle & Hnext) Hrest]; subst.
    unfold Stack_next_column at 1. unfold IsEnd, deref.
    destruct (nth_error (Container it) (S (Index it))) as [next|] eqn:Hn.
    + assert (Hlt : (S (Index it) < length (Container it))%nat)
        by (apply nth_error_Some; congruence).
      replace (length (Container it) <=? S (Index it))%nat with false
        by (symmetry; apply Nat.leb_gt; exact Hlt).
      cbn [bind]. pose proof (Hnext next eq_refl) as Hc.
      replace (c <=? column next) with true by (symmetry; apply Z.leb_le; lia).
      cbn [bind].
      destruct (column next <? start) eqn:Hcmp.
      * apply Z.ltb_lt in Hcmp.
        destruct (IH (column next) Hrest) as (n & Hf & [Heq | (Hl & Hcn & it' & s & Hin & Hs & Hcol)]).
        -- exists n. split; [exact Hf|]. right. subst n.
           split; [lia|]. split; [lia|].
           exists it, next. split; [left; reflexivity|].
           split; [eapply nth_error_In; exact Hn|reflexivity].
        -- exists n. split; [exact Hf|]. right.
           split; [lia|]. split; [lia|].
           exists it', s. split; [right; exact Hin|]. auto.
      * destruct (IH start Hrest) as (n & Hf & [Heq | (Hl & Hcn & it' & s & Hin & Hs & Hcol)]).
        -- exists n. auto.
        -- exists n. split; [exact Hf|]. right.
           split; [lia|]. split; [lia|].
           exists it', s. split; [right; exact Hin|]. auto.
    + apply nth_error_None in Hn.
      replace (length (Container it) <=? S (Index it))%nat with true
        by (symmetry; apply Nat.leb_le; exact Hn).
      destruct (IH start Hrest) as (n & Hf & [Heq | (Hl & Hcn & it' & s & Hin & Hs & Hcol)]).
      * exists n. auto.
      * exists n. split; [exact Hf|]. right.
        split; [lia|]. split; [lia|].
        exists it', s. split; [right; exact Hin|]. auto.
Qed.

Lemma filter_after_le (c c' : Z) (F : LayoutFunction) :
  c <= c' ->
  (length (filter (fun s => (c' <? column s)%Z) F)
   <= length (filter (fun s => (c <? column s)%Z) F))%nat.
Proof.
  intros Hc. induction F as [|s F IH]; simpl; [lia|].
  destruct (c' <? column s) eqn:H1; destruct (c <? column s) eqn:H2; simpl; lia.
Qed.

Lemma filter_after_lt (c c' : Z) (F : LayoutFunction) (s : LayoutFunctionSegment) :
  c < c' -> In s F -> column s = c' ->
  (length (filter (fun s => (c' <? column s)%Z) F)
   < length (filter (fun s => (c <? column s)%Z) F))%nat.
Proof.
  intros Hc Hin Hs. induction F as [|s0 F IH]; simpl; [contradiction|].
  pose proof (filter_after_le c c' F ltac:(lia)) as Hle.
  destruct Hin as [-> | Hin].
  - replace (c' <? column s) with false by (symmetry; apply Z.ltb_ge; lia).
    replace (c <? column s) with true by (symmetry; apply Z.ltb_lt; lia).
    simpl. lia.
  - specialize (IH Hin).
    destruct (c' <? column s0) eqn:H1; destruct (c <? column s0) eqn:H2; simpl; lia.
Qed.

Lemma knots_after_le (c c' : Z) (lfs : list LayoutFunction) :
  c <= c' -> (knots_after c' lfs <= knots_after c lfs)%nat.
Proof.
  intros Hc. induction lfs as [|F lfs IH]; simpl; [lia|].
  pose proof (filter_after_le c c' F Hc). lia.
Qed.

Lemma knots_after_lt (c c' : Z) (lfs : list LayoutFunction)
  (F : LayoutFunction) (s : LayoutFunctionSegment) :
  c < c' -> In F lfs -> In s F -> column s = c' ->
  (knots_after c' lfs < knots_after c lfs)%nat.
Proof.
  intros Hc HF Hs Hcol. induction lfs as [|F0 lfs IH]; simpl; [contradiction|].
  destruct HF as [-> | HF].
  - pose proof (filter_after_lt c c' F s Hc Hs Hcol).
    pose proof (knots_after_le c c' lfs ltac:(lia)). lia.
  - specialize (IH HF). pose proof (filter_after_le c c' F0 ltac:(lia)). lia.
Qed.

Lemma knots_after_total_size (c : Z) (segments : list Iterator) :
  (knots_after c (map Container segments) <= total_size segments)%nat.
Proof.
  induction segments as [|it segments IH]; simpl; [lia|].
  pose proof (filter_length_le (fun s => (c <? column s)%Z) (Container it)). lia.
Qed.

Lemma mapM_Move_defined (c : Z) (segments : list Iterator) :
  0 <= c ->
  Forall stackable (map Container segments) ->
  exists moved,
    mapM (fun it => MoveToKnotAtOrToTheLeftOf it c) segments = Ok moved
    /\ map Container moved = map Container segments
    /\ Forall (fun it => covers (Container it) (Index it) c) moved.
Proof.
  intros Hc. induction segments as [|it segments IH]; intros H; simpl.
  - exists []. repeat split; constructor.
  - simpl in H. inversion H as [|? ? (Hz & Hs & _) Hrest]; subst.
    destruct (AtOrToTheLeftOf_defined (Container it) c Hz Hs Hc) as (i & Hi & Hcov).
    destruct (IH Hrest) as (moved & Hm & Hcont & Hall).
    unfold MoveToKnotAtOrToTheLeftOf at 1. rewrite Hi. cbn [bind]. rewrite Hm. cbn [bind].
    eexists. split; [reflexivity|]. simpl. split; [rewrite Hcont; reflexivity|].
    constructor; auto.
Qed.

Lemma covered_deref (moved : list Iterator) (c : Z) :
  Forall stackable (map Container moved) ->
  Forall (fun it => covers (Container it) (Index it) c) moved ->
  Forall (fun it => exists s, it_deref it = Ok s
                              /\ agrees_with_front (layout s) = true) moved.
Proof.
  induction moved as [|it moved IH]; intros Hst Hcov; [constructor|].
  simpl in Hst. inversion Hst as [|? ? (_ & _ & Hag) Hrest]; subst.
  inversion Hcov as [|? ? (s & Hs & _) Hcov']; subst.
  constructor; [|apply IH; auto].
  exists s. unfold it_deref, deref. rewrite Hs. split; [reflexivity|].
  rewrite Forall_forall in Hag. apply Hag. eapply nth_error_In. exact Hs.
Qed.

(** Every turn of the loop of [Stack] leaves behind a knot of some input:
    with more fuel than there are knots to the right of the current column,
    the loop returns. *)
Lemma Stack_loop_returns (fuel : nat) :
  forall segments sb bd sp lbp c result,
    0 <= c ->
    Forall stackable (map Container segments) ->
    (knots_after c (map Container segments) < fuel)%nat ->
    exists R, Stack_loop fuel segments sb bd sp lbp c result = Ok R.
Proof.
  induction fuel as [|fuel IH]; intros segments sb bd sp lbp c result Hc Hst Hfuel; [lia|].
  cbn [Stack_loop].
  destruct (mapM_Move_defined c segments Hc Hst) as (moved & Hm & Hcont & Hcov).
  rewrite Hm. cbn [bind].
  assert (Hst' : Forall stackable (map Container moved)) by (rewrite Hcont; exact Hst).
  destruct (Stack_accumulate_defined c moved
              {| column := c;
                 layout := Node (mkLayoutItem kStack sb bd) [];
                 span := sp; intercept := lbp; gradient := 0 |}
              (covered_deref moved c Hst' Hcov)) as (ns & Hns).
  rewrite Hns. cbn [bind].
  destruct (Stack_next_column_defined c moved kInfinity Hcov)
    as (n & Hn & [Heq | (Hlt & Hcn & it & s & Hit & Hs & Hcol)]).
  - rewrite Hn. cbn [bind]. subst n. rewrite Z.ltb_irrefl. eexists. reflexivity.
  - rewrite Hn. cbn [bind].
    replace (n <? kInfinity) with true by (symmetry; apply Z.ltb_lt; exact Hlt).
    apply IH; [lia|exact Hst'|].
    rewrite Hcont.
    assert (HF : In (Container it) (map Container segments))
      by (rewrite <- Hcont; apply in_map; exact Hit).
    pose proof (knots_after_lt c n (map Container segments) (Container it) s Hcn HF Hs Hcol).
    lia.
Qed.

Lemma last_error_cons {A} (a : A) (l : list A) :
  exists x, last_error (a :: l) = Some x /\ In x (a :: l).
Proof.
  unfold last_error. revert a. induction l as [|b l IH]; intros a.
  - exists a. split; [reflexivity|left; reflexivity].
  - destruct (IH b) as (x & Hx & Hin). exists x. split; [exact Hx|right; exact Hin].
Qed.

Lemma Stack_returns (style : BasicFormatStyle) (lfs : list LayoutFunction) :
  Forall stackable lfs -> exists R, Stack style lfs = Ok R.
Proof.
  intros Hst. destruct lfs as [|F1 [|F2 rest]]; [eexists; reflexivity ..|].
  set (lfs := F1 :: F2 :: rest) in *.
  change (Stack style lfs) with (Stack_segments style (begin_iterators lfs)).
  pose proof (Container_begin_iterators lfs) as Hcont.
  unfold Stack_segments.
  assert (Hderef : Forall (fun it => exists s, it_deref it = Ok s) (begin_iterators lfs)).
  { apply Forall_forall. intros it Hit.
    assert (Hidx : Index it = 0%nat).
    { unfold begin_iterators in Hit. apply in_map_iff in Hit.
      destruct Hit as (p & <- & _). reflexivity. }
    assert (HF : In (Container it) lfs) by (rewrite <- Hcont; apply in_map; exact Hit).
    rewrite Forall_forall in Hst. destruct (Hst _ HF) as (Hz & _).
    unfold it_deref, deref. rewrite Hidx.
    destruct (Container it) as [|s F]; [contradiction|]. exists s. reflexivity. }
  destruct (begin_iterators lfs) as [|it0 its] eqn:Hits; [discriminate|].
  cbn [negb].
  inversion Hderef as [|? ? (front & Hfront) _]; subst.
  rewrite Hfront. cbn [bind].
  destruct (last_error_cons it0 its) as (itn & Hitn & Hin). rewrite Hitn.
  rewrite Forall_forall in Hderef. destruct (Hderef itn Hin) as (back & Hback).
  rewrite Hback. cbn [bind].
  apply Stack_loop_returns; [lia|rewrite Hcont; exact Hst|].
  pose proof (knots_after_total_size 0 (it0 :: its)). lia.
Qed.



(** ** The [Choice] combinator *)

(** The comparison of [Choice] orders the positions by cost, then by
    gradient; it also holds between two positions that tie on both. *)
Lemma Choice_comp_spec (c : Z) (a b : Position) :
  Choice_comp c a b = true
  <-> (CostAt (snd a) c < CostAt (snd b) c)%Q
      \/ ((CostAt (snd a) c == CostAt (snd b) c)%Q
          /\ gradient (snd a) <= gradient (snd b)).
Proof.
  unfold Choice_comp, Qeqb, Qltb.
  destruct (Qeq_bool (CostAt (snd a) c) (CostAt (snd b) c)) eqn:He; cbn [negb].
  - apply Qeq_bool_iff in He. rewrite Z.leb_le. split.
    + intros H. right. split; auto.
    + intros [H|[_ H]]; auto. lra.
  - apply Qeq_bool_neq in He. rewrite negb_true_iff. split.
    + intros H. left.
      destruct (Qlt_le_dec (CostAt (snd a) c) (CostAt (snd b) c)) as [Hlt|Hle]; auto.
      apply Qle_bool_iff in Hle. congruence.
    + intros [H|[H _]]; [|contradiction].
      destruct (Qle_bool (CostAt (snd b) c) (CostAt (snd a) c)) eqn:Hle; auto.
      apply Qle_bool_iff in Hle. lra.
Qed.

Lemma Choice_comp_total (c : Z) (a b : Position) :
  Choice_comp c a b = false -> Choice_comp c b a = true.
Proof.
  intros H. apply Choice_comp_spec.
  destruct (Qlt_le_dec (CostAt (snd b) c) (CostAt (snd a) c)) as [Hlt|Hle]; auto.
  right. destruct (Qlt_le_dec (CostAt (snd a) c) (CostAt (snd b) c)) as [Hlt'|Hle'].
  - assert (Choice_comp c a b = true) by (apply Choice_comp_spec; auto). congruence.
  - split; [lra|].
    destruct (Z.le_gt_cases (gradient (snd b)) (gradient (snd a))) as [|Hgt]; auto.
    assert (Choice_comp c a b = true)
      by (apply Choice_comp_spec; right; split; [lra|lia]).
    congruence.
Qed.

Lemma Choice_comp_trans (c : Z) (x y z : Position) :
  Choice_comp c x y = true -> Choice_comp c y z = true -> Choice_comp c x z = true.
Proof.
  rewrite !Choice_comp_spec.
  intros [H1|[H1 G1]] [H2|[H2 G2]]; [left; lra|left; lra|left; lra|].
  right. split; [lra|lia].
Qed.

(** A position strictly after [z] in the order stays after whatever is at
    or before [z]. *)
Lemma Choice_comp_strict (c : Z) (x y z : Position) :
  Choice_comp c x z = true -> Choice_comp c y z = false -> Choice_comp c y x = false.
Proof.
  intros Hxz Hyz. destruct (Choice_comp c y x) eqn:Hyx; auto.
  rewrite (Choice_comp_trans c y x z Hyx Hxz) in Hyz. discriminate.
Qed.

Lemma min_element_fold (c : Z) (rest : list Position) :
  forall pre result mid m,
    Forall (fun x => Choice_comp c result x = true) pre ->
    Forall (fun y => Choice_comp c y result = false) mid ->
    fold_left (fun result x => if Choice_comp c x result then x else result)
              rest result = m ->
    exists pre' post',
      pre ++ result :: mid ++ rest = pre' ++ m :: post'
      /\ Forall (fun x => Choice_comp c m x = true) pre'
      /\ Forall (fun y => Choice_comp c y m = false) post'.
Proof.
  induction rest as [|x rest IH]; intros pre result mid m Hpre Hmid H; simpl in H.
  - subst m. exists pre, mid. rewrite app_nil_r. auto.
  - destruct (Choice_comp c x result) eqn:Hx.
    + destruct (IH (pre ++ result :: mid) x [] m) as (pre' & post' & E & H1 & H2); auto.
      * apply Forall_app. split.
        -- eapply Forall_impl; [|exact Hpre]. intros p Hp.
           eapply Choice_comp_trans; eauto.
        -- constructor; [exact Hx|].
           eapply Forall_impl; [|exact Hmid]. intros y Hy.
           apply Choice_comp_total. eapply Choice_comp_strict; eauto.
      * exists pre', post'. split; auto. rewrite <- E, <- app_assoc. reflexivity.
    + destruct (IH pre result (mid ++ [x]) m) as (pre' & post' & E & H1 & H2); auto.
      * apply Forall_app. split; auto.
      * exists pre', post'. split; auto. rewrite <- E, <- app_assoc. reflexivity.
Qed.

(** [std::min_element] with the comparison of [Choice] returns the last of
    the positions that are least by cost, then by gradient: everything
    before it is not smaller, everything after it is strictly greater.  A
    later input that ties on both replaces an earlier one. *)
Lemma min_element_last_minimum (c : Z) (positions : list Position) (m : Position) :
  min_element (Choice_comp c) positions = Some m ->
  exists pre post,
    positions = pre ++ m :: post
    /\ Forall (fun x => Choice_comp c m x = true) pre
    /\ Forall (fun y => Choice_comp c y m = false) post.
Proof.
  destruct positions as [|first rest]; [discriminate|]. simpl. intros H.
  injection H as H.
  apply (min_element_fold c rest [] first [] m); auto.
Qed.

(** C2, at the input that shows the defect.  Two functions tie at column 0
    on cost (100) and on gradient (10).  The comparison handed to
    [std::min_element] answers [true] for a later element that ties with
    the current result ([a->gradient <= b->gradient]), so the later input
    replaces the earlier one: [Choice] returns the segment of the second
    function, while the source comment and the claim favour the earlier
    one. *)
Theorem Choice_tie_prefers_later :
  cost_at tie_first 0 = Ok 100%Q
  /\ cost_at tie_second 0 = Ok 100%Q
  /\ map gradient tie_first = map gradient tie_second
  /\ Choice [tie_first; tie_second] = Ok tie_second
  /\ Choice [tie_first; tie_second] <> Ok tie_first.
Proof.
  repeat split; try (vm_compute; reflexivity).
  vm_compute. intros H. discriminate H.
Qed.

(** ** Flattening *)

Lemma flattened_Node (item : LayoutItem) (children : list LayoutTree) :
  flattened (Node item children) = adoptable (Type_ item) children.
Proof. reflexivity. Qed.

Lemma LayoutType_eqb_eq (a b : LayoutType) : LayoutType_eqb a b = true <-> a = b.
Proof. destruct a, b; simpl; split; intros H; try reflexivity; discriminate. Qed.









Lemma deref_In {A} (l : list A) (i : nat) (a : A) : deref l i = Ok a -> In a l.
Proof.
  unfold deref. destruct (nth_error l i) eqn:H; [|discriminate].
  intros E; inversion E; subst. eapply nth_error_In; eauto.
Qed.

Lemma In_skipn {A} (n : nat) (l : list A) (a : A) : In a (skipn n l) -> In a l.
Proof.
  revert l. induction n as [|n IH]; intros l H; simpl in H; auto.
  destruct l as [|b l]; [contradiction|]. right. apply IH. exact H.
Qed.




















(** ** The driver *)

Section DriverProperties.

Variable style : BasicFormatStyle.
Variable ftokens : list PreFormatToken.
Variable Wrap : list LayoutFunction -> Outcome LayoutFunction.
Variable LayoutFunction_MustWrap : LayoutFunction -> Outcome bool.

Let traverse := Driver_TraverseTree style ftokens Wrap LayoutFunction_MustWrap.

Lemma mapM_Fail {A B} (f : A -> Outcome B) (l : list A) :
  (exists a, In a l /\ exists e, f a = Fail e) -> exists e, mapM f l = Fail e.
Proof.
  induction l as [|a l IH]; intros (x & Hin & e & Hx); [destruct Hin|].
  simpl. destruct (f a) as [b|e'] eqn:Ha; [|exists e'; reflexivity].
  cbn [bind]. destruct Hin as [<-|Hin]; [congruence|].
  destruct (IH (ex_intro _ x (conj Hin (ex_intro _ e Hx)))) as [e'' ->].
  exists e''. reflexivity.
Qed.

(** The failure of the driver at an offending node. *)
Lemma offending_fails (node : TokenPartitionTree) :
  offending node = true ->
  traverse node
  = Fail (if handled_policy (partition_policy (Value node))
          then CheckFailed else UnsupportedPolicy).
Proof.
  unfold traverse.
  destruct node as [value children]. unfold offending. cbn [Value Children].
  intros H. apply andb_prop in H. destruct H as [Hleaf H].
  apply negb_true_iff in Hleaf. cbn [Driver_TraverseTree]. rewrite Hleaf.
  destruct (partition_policy value); simpl in H |- *; try discriminate; try reflexivity.
  rewrite negb_true_iff in H. rewrite H. reflexivity.
Qed.

Lemma has_offending_fails (tree : TokenPartitionTree) :
  has_offending tree = true -> exists f, traverse tree = Fail f.
Proof.
  induction tree as [value children IH] using VectorTree_ind'.
  cbn [has_offending]. intros H. apply orb_prop in H. destruct H as [H|H].
  - rewrite (offending_fails _ H). eexists. reflexivity.
  - assert (Hchild : exists c, In c children /\ exists e, traverse c = Fail e).
    { apply existsb_exists in H. destruct H as (c & Hin & Hc).
      exists c. split; auto. rewrite Forall_forall in IH. apply IH; auto. }
    assert (Hleaf : is_leaf (Node value children) = false).
    { destruct Hchild as (c & Hin & _). destruct children; [destruct Hin|reflexivity]. }
    pose proof (mapM_Fail _ _ Hchild) as [e He].
    unfold traverse in *. cbn [Driver_TraverseTree]. rewrite Hleaf.
    unfold TokenPartitionTree in *.
    destruct (partition_policy value); try (eexists; reflexivity);
      try (exists e; rewrite He; reflexivity).
    destruct children as [|header [|args [|extra rest]]];
      try (eexists; reflexivity).
    cbn [length Nat.eqb].
    destruct Hchild as (c & [<-|[<-|[]]] & e' & Hc).
    + exists e'. rewrite Hc. reflexivity.
    + destruct (Driver_TraverseTree style ftokens Wrap LayoutFunction_MustWrap header);
        cbn [bind]; [|eexists; reflexivity].
      exists e'. rewrite Hc. reflexivity.
Qed.

End DriverProperties.

(** C8.  A partition tree that contains an internal node whose policy is
    outside the handled set (optimal function call layout, fit on line else
    expand, append fitting sub-partitions, always expand, tabular
    alignment), or an internal node with the function-call policy and a
    number of children other than two, makes the driver fail: the traversal
    produces no layout function and [OptimizeTokenPartitionTree] aborts.
    When the root itself is such a node the abort is the one of
    [LOG(FATAL)] for a foreign policy and the one of [CHECK_EQ] for a wrong
    number of children. *)
Theorem driver_rejects_offending_nodes (style : BasicFormatStyle)
  (ftokens : list PreFormatToken)
  (Wrap : list LayoutFunction -> Outcome LayoutFunction)
  (LayoutFunction_MustWrap : LayoutFunction -> Outcome bool)
  (final_column : UnwrappedLine -> Z) (tree : TokenPartitionTree) :
  has_offending tree = true ->
  (exists f, Driver_TraverseTree style ftokens Wrap LayoutFunction_MustWrap tree = Fail f)
  /\ (exists f, OptimizeTokenPartitionTree style ftokens Wrap LayoutFunction_MustWrap
                  final_column tree = Fail f)
  /\ (offending tree = true ->
      Driver_TraverseTree style ftokens Wrap LayoutFunction_MustWrap tree
      = Fail (if handled_policy (partition_policy (Value tree))
              then CheckFailed else UnsupportedPolicy)).
Proof.
  intros H.
  destruct (has_offending_fails style ftokens Wrap LayoutFunction_MustWrap tree H)
    as [f Hf].
  split; [exists f; exact Hf|]. split.
  - exists f. unfold OptimizeTokenPartitionTree. rewrite Hf. reflexivity.
  - apply offending_fails.
Qed.

Lemma driver_rejects_offending_nodes_witness :
  (exists f, Driver_TraverseTree test_style sample_tokens sample_Wrap sample_MustWrap
               three_children_call = Fail f)
  /\ Driver_TraverseTree test_style sample_tokens sample_Wrap sample_MustWrap
       already_formatted_tree = Fail UnsupportedPolicy.
Proof.
  split.
  - apply (driver_rejects_offending_nodes test_style sample_tokens sample_Wrap
             sample_MustWrap indentation_spaces three_children_call).
    reflexivity.
  - apply (driver_rejects_offending_nodes test_style sample_tokens sample_Wrap
             sample_MustWrap indentation_spaces already_formatted_tree);
      reflexivity.
Defined.

(** ** The tree reconstructor *)

Section ReconstructorProperties.

Variable final_column : UnwrappedLine -> Z.

Lemma TraverseTree_unfold (item : LayoutItem) (children : list LayoutTree)
  (tr : TreeReconstructor) :
  TraverseTree final_column (Node item children) tr
  = (tr' <- TraverseBody final_column item children (enter item tr) ;;
     Ok (set_indentation tr' (current_indentation_spaces_ tr))).
Proof. reflexivity. Qed.



Lemma foldM_app {A S} (f : S -> A -> Outcome S) (l1 l2 : list A) (s : S) :
  foldM f (l1 ++ l2) s = (s' <- foldM f l1 s ;; foldM f l2 s').
Proof.
  revert s. induction l1 as [|a l1 IH]; intros s; simpl; [reflexivity|].
  destruct (f s a); cbn [bind]; auto.
Qed.















End ReconstructorProperties.




(** *** The tokens after the replacement *)

Lemma nth_error_update {A} (l : list A) (i j : nat) (x : A) :
  nth_error (update l i x) j
  = if (i =? j)%nat then option_map (fun _ => x) (nth_error l j) else nth_error l j.
Proof.
  revert i j. induction l as [|a l IH]; intros i j.
  - destruct i, j; simpl; try reflexivity; destruct (_ =? _)%nat; reflexivity.
  - destruct i as [|i], j as [|j]; simpl; try reflexivity. apply IH.
Qed.

Lemma nth_error_modify {A} (l : list A) (i j : nat) (f : A -> A) :
  nth_error (modify l i f) j
  = if (i =? j)%nat then option_map f (nth_error l j) else nth_error l j.
Proof.
  unfold modify. destruct (nth_error l i) as [a|] eqn:Hi.
  - rewrite nth_error_update. destruct (Nat.eqb_spec i j) as [->|]; auto.
    rewrite Hi. reflexivity.
  - destruct (Nat.eqb_spec i j) as [->|]; auto. rewrite Hi. reflexivity.
Qed.

Lemma nth_error_modify_seq {A} (f : A -> A) (n : nat) :
  forall (s : nat) (l : list A) (j : nat),
    nth_error (fold_left (fun toks i => modify toks i f) (seq s n) l) j
    = if (s <=? j)%nat && (j <? s + n)%nat then option_map f (nth_error l j)
      else nth_error l j.
Proof.
  induction n as [|n IH]; intros s l j; simpl.
  - destruct (Nat.leb_spec s j), (Nat.ltb_spec j (s + 0)); try lia; reflexivity.
  - rewrite IH, nth_error_modify.
    destruct (Nat.eqb_spec s j) as [->|Hne].
    + replace (S j <=? j)%nat with false by (symmetry; apply Nat.leb_gt; lia).
      replace (j <=? j)%nat with true by (symmetry; apply Nat.leb_le; lia).
      replace (j <? j + S n)%nat with true by (symmetry; apply Nat.ltb_lt; lia).
      reflexivity.
    + destruct (Nat.leb_spec (S s) j), (Nat.leb_spec s j); try lia;
        destruct (Nat.ltb_spec j (S s + n)), (Nat.ltb_spec j (s + S n)); try lia;
        reflexivity.
Qed.

Lemma format_line_nth (ftokens : list PreFormatToken) (uwline : UnwrappedLine) (j : nat) :
  IsEmpty uwline = false ->
  nth_error (format_line ftokens uwline) j
  = option_map (line_effect uwline j) (nth_error ftokens j).
Proof.
  intros Hne. unfold format_line, line_effect. rewrite Hne.
  rewrite nth_error_modify_seq, nth_error_modify.
  rewrite (Nat.eqb_sym j).
  destruct (Nat.eqb_spec (tokens_begin uwline) j) as [<-|Hb].
  - replace (S (tokens_begin uwline) <=? tokens_begin uwline)%nat with false
      by (symmetry; apply Nat.leb_gt; lia).
    destruct (nth_error ftokens (tokens_begin uwline)); reflexivity.
  - change (S (tokens_begin uwline) <=? j)%nat with (tokens_begin uwline <? j)%nat.
    destruct (Nat.ltb_spec (tokens_begin uwline) j) as [Hlt|Hge]; cbn [andb].
    + replace (S (tokens_begin uwline) + (tokens_end uwline - S (tokens_begin uwline)))%nat
        with (Nat.max (S (tokens_begin uwline)) (tokens_end uwline)) by lia.
      destruct (Nat.ltb_spec j (tokens_end uwline)),
               (Nat.ltb_spec j (Nat.max (S (tokens_begin uwline)) (tokens_end uwline)));
        try lia; destruct (nth_error ftokens j); reflexivity.
    + destruct (nth_error ftokens j); reflexivity.
Qed.

Lemma Replace_step_tokens (lines : list UnwrappedLine) :
  forall node ftokens j,
    nth_error (snd (fold_left Replace_step lines (node, ftokens))) j
    = option_map (fun tok => fold_left (fun t line => line_effect line j t) lines tok)
                 (nth_error ftokens j).
Proof.
  induction lines as [|line lines IH]; intros node ftokens j; simpl.
  - destruct (nth_error ftokens j); reflexivity.
  - rewrite IH. destruct (IsEmpty line) eqn:He; cbn [negb].
    + destruct (nth_error ftokens j) as [p|]; simpl; [|reflexivity].
      replace (line_effect line j p) with p
        by (unfold line_effect; rewrite He; reflexivity).
      reflexivity.
    + rewrite format_line_nth by exact He.
      destruct (nth_error ftokens j); reflexivity.
Qed.

Lemma Replace_step_node (lines : list UnwrappedLine) :
  forall node ftokens,
    fst (fold_left Replace_step lines (node, ftokens))
    = Node (Value node) (Children node ++ map (fun l => Node l []) lines).
Proof.
  induction lines as [|line lines IH]; intros node ftokens; simpl.
  - rewrite app_nil_r. destruct node; reflexivity.
  - rewrite IH. simpl. rewrite <- app_assoc. reflexivity.
Qed.

(** A line does nothing to the tokens outside its range. *)
Lemma line_effect_outside (line : UnwrappedLine) (j : nat) (tok : PreFormatToken) :
  (tokens_begin line <= tokens_end line)%nat ->
  (j < tokens_begin line \/ tokens_end line <= j)%nat ->
  line_effect line j tok = tok.
Proof.
  intros Hwf Hout. unfold line_effect, IsEmpty.
  destruct (Nat.eqb_spec (tokens_begin line) (tokens_end line)); auto.
  destruct (Nat.eqb_spec j (tokens_begin line)); [lia|].
  destruct (Nat.ltb_spec (tokens_begin line) j), (Nat.ltb_spec j (tokens_end line));
    auto; lia.
Qed.

Lemma lines_effect_outside (lines : list UnwrappedLine) (j : nat) :
  Forall (fun l => (tokens_begin l <= tokens_end l)%nat
                   /\ (j < tokens_begin l \/ tokens_end l <= j)%nat) lines ->
  forall tok, fold_left (fun t line => line_effect line j t) lines tok = tok.
Proof.
  induction 1 as [|l lines [Hwf Hout] _ IH]; intros tok; simpl; auto.
  rewrite line_effect_outside; auto.
Qed.

Lemma lines_in_order_wf (lines : list UnwrappedLine) :
  lines_in_order lines = true ->
  Forall (fun l => (tokens_begin l <= tokens_end l)%nat) lines.
Proof.
  induction lines as [|l lines IH]; intros H; constructor; simpl in H;
    apply andb_prop in H; destruct H as [H1 H2]; apply andb_prop in H1;
    destruct H1 as [H0 H1].
  - apply Nat.leb_le. exact H0.
  - apply IH. exact H2.
Qed.

(** With the lines in order, the token of index [j] of the line [line] is
    changed by that line alone. *)
Lemma lines_effect_in_order (lines : list UnwrappedLine) (line : UnwrappedLine)
  (j : nat) (tok : PreFormatToken) :
  lines_in_order lines = true ->
  In line lines ->
  (tokens_begin line <= j < tokens_end line)%nat ->
  fold_left (fun t l => line_effect l j t) lines tok = line_effect line j tok.
Proof.
  revert tok. induction lines as [|l lines IH]; intros tok Hord Hin Hj; [destruct Hin|].
  pose proof (lines_in_order_wf _ Hord) as Hwf.
  simpl in Hord. apply andb_prop in Hord. destruct Hord as [H1 Hrest].
  apply andb_prop in H1. destruct H1 as [Hl Hafter].
  apply Nat.leb_le in Hl. rewrite forallb_forall in Hafter.
  simpl. destruct Hin as [->|Hin].
  - apply lines_effect_outside. inversion Hwf as [|? ? _ Hwf']; subst.
    rewrite Forall_forall in *. intros l' Hl'. split; [apply Hwf'; exact Hl'|].
    specialize (Hafter l' Hl'). apply Nat.leb_le in Hafter. lia.
  - rewrite (line_effect_outside l).
    + apply IH; auto.
    + exact Hl.
    + specialize (Hafter line Hin). apply Nat.leb_le in Hafter. lia.
Qed.

(** The replacement starts from the node rewritten with the function-call
    policy, the ambient indentation, the span from the first to the last
    line and no child, and treats the lines in turn. *)
Lemma Replace_eq (tr : TreeReconstructor) (node : TokenPartitionTree)
  (ftokens : list PreFormatToken) (r : TokenPartitionTree * list PreFormatToken) :
  ReplaceTokenPartitionTreeNode tr node ftokens = Ok r ->
  exists first_line value,
    hd_error (unwrapped_lines_ tr) = Some first_line
    /\ r = fold_left Replace_step (unwrapped_lines_ tr) (Node value [], ftokens)
    /\ partition_policy value = kOptimalFunctionCallLayout
    /\ indentation_spaces value = current_indentation_spaces_ tr
    /\ tokens_begin value = tokens_begin first_line
    /\ tokens_end value = tokens_end (last (unwrapped_lines_ tr) first_line).
Proof.
  unfold ReplaceTokenPartitionTreeNode.
  destruct (unwrapped_lines_ tr) as [|first_line rest]; [discriminate|].
  intros H. injection H as <-. eexists. eexists.
  split; [reflexivity|]. split; [reflexivity|]. repeat split.
Qed.

Lemma Replace_tokens (tr : TreeReconstructor) (node node' : TokenPartitionTree)
  (ftokens ftokens' : list PreFormatToken) (line : UnwrappedLine) (j : nat) :
  ReplaceTokenPartitionTreeNode tr node ftokens = Ok (node', ftokens') ->
  lines_in_order (unwrapped_lines_ tr) = true ->
  In line (unwrapped_lines_ tr) ->
  (tokens_begin line <= j < tokens_end line)%nat ->
  nth_error ftokens' j = option_map (line_effect line j) (nth_error ftokens j).
Proof.
  intros H Hord Hin Hj.
  apply Replace_eq in H. destruct H as (first_line & value & _ & H & _).
  apply (f_equal snd) in H. cbn [snd] in H. rewrite H.
  rewrite Replace_step_tokens.
  destruct (nth_error ftokens j) as [tok|]; [|reflexivity]. cbn [option_map].
  f_equal. apply lines_effect_in_order; auto.
Qed.

(** C4.  The replacement returns whenever the reconstructor holds a flat
    line, and after it, with the flat lines in order in the vector of
    tokens: for every non-empty flat line, the first token has the break
    decision must-wrap and [spaces_required = 0]; every further token of
    the line that was undecided is must-append, and every further token
    with another decision keeps its decision and its spacing. *)
Theorem replaced_break_decisions (tr : TreeReconstructor)
  (node : TokenPartitionTree) (ftokens : list PreFormatToken)
  (line : UnwrappedLine) :
  lines_in_order (unwrapped_lines_ tr) = true ->
  In line (unwrapped_lines_ tr) ->
  (tokens_begin line < tokens_end line <= length ftokens)%nat ->
  exists node' ftokens',
    ReplaceTokenPartitionTreeNode tr node ftokens = Ok (node', ftokens')
    /\ (exists t',
          nth_error ftokens' (tokens_begin line) = Some t'
          /\ break_decision (before t') = MustWrap
          /\ spaces_required (before t') = 0)
    /\ (forall j, (tokens_begin line < j < tokens_end line)%nat ->
          exists t t',
            nth_error ftokens j = Some t
            /\ nth_error ftokens' j = Some t'
            /\ (break_decision (before t) = Undecided ->
                break_decision (before t') = MustAppend)
            /\ (break_decision (before t) <> Undecided -> before t' = before t)
            /\ spaces_required (before t') = spaces_required (before t)).
Proof.
  intros Hord Hin Hrange.
  assert (Hret : exists p, ReplaceTokenPartitionTreeNode tr node ftokens = Ok p).
  { unfold ReplaceTokenPartitionTreeNode.
    destruct (unwrapped_lines_ tr); [contradiction|]. eexists. reflexivity. }
  destruct Hret as ([node' ftokens'] & H).
  exists node', ftokens'. split; [exact H|].
  assert (Hne : IsEmpty line = false).
  { unfold IsEmpty. apply Nat.eqb_neq. lia. }
  split.
  - pose proof (Replace_tokens tr node node' ftokens ftokens' line (tokens_begin line)
                  H Hord Hin ltac:(lia)) as Hb.
    destruct (nth_error ftokens (tokens_begin line)) as [t|] eqn:Ht.
    + exists (line_effect line (tokens_begin line) t). split; [exact Hb|].
      unfold line_effect. rewrite Hne, Nat.eqb_refl. split; reflexivity.
    + apply nth_error_None in Ht. lia.
  - intros j Hj.
    pose proof (Replace_tokens tr node node' ftokens ftokens' line j
                  H Hord Hin ltac:(lia)) as Hb.
    destruct (nth_error ftokens j) as [t|] eqn:Ht.
    + exists t, (line_effect line j t). split; [reflexivity|]. split; [exact Hb|].
      unfold line_effect. rewrite Hne.
      replace (j =? tokens_begin line)%nat with false
        by (symmetry; apply Nat.eqb_neq; lia).
      replace (tokens_begin line <? j)%nat with true
        by (symmetry; apply Nat.ltb_lt; lia).
      replace (j <? tokens_end line)%nat with true
        by (symmetry; apply Nat.ltb_lt; lia).
      cbn [andb]. unfold append_if_undecided. cbn [before break_decision spaces_required].
      destruct t as [[sp dec] len]. cbn [before break_decision spaces_required].
      destruct dec; repeat split; auto; try congruence.
    + apply nth_error_None in Ht. lia.
Qed.

Lemma replaced_break_decisions_witness :
  exists node' ftokens',
    ReplaceTokenPartitionTreeNode
      {| unwrapped_lines_ := [sample_line 0 4; sample_line 4 4; sample_line 4 7];
         active_unwrapped_line_ := Some 2%nat;
         current_indentation_spaces_ := 0; warnings_ := 0 |}
      (Node (mkUnwrappedLine 0 0) []) sample_tokens = Ok (node', ftokens')
    /\ (exists t',
           nth_error ftokens' 0 = Some t'
           /\ break_decision (before t') = MustWrap
           /\ spaces_required (before t') = 0)
    /\ (forall j, (0 < j < 4)%nat ->
          exists t t',
            nth_error sample_tokens j = Some t
            /\ nth_error ftokens' j = Some t'
            /\ (break_decision (before t) = Undecided ->
                break_decision (before t') = MustAppend)
            /\ (break_decision (before t) <> Undecided -> before t' = before t)
            /\ spaces_required (before t') = spaces_required (before t)).
Proof.
  apply (replaced_break_decisions
           {| unwrapped_lines_ := [sample_line 0 4; sample_line 4 4; sample_line 4 7];
              active_unwrapped_line_ := Some 2%nat;
              current_indentation_spaces_ := 0; warnings_ := 0 |}
           (Node (mkUnwrappedLine 0 0) []) sample_tokens (sample_line 0 4)).
  - reflexivity.
  - left. reflexivity.
  - simpl. lia.
Defined.

(** *** The policies after the replacement *)

Lemma foldM_inv {A S} (Q : S -> Prop) (f : S -> A -> Outcome S) (cs : list A) :
  (forall c, In c cs -> forall s s', Q s -> f s c = Ok s' -> Q s') ->
  forall s s', Q s -> foldM f cs s = Ok s' -> Q s'.
Proof.
  induction cs as [|c cs IH]; intros Hstep s s' HQ H; simpl in H.
  - injection H as <-. exact HQ.
  - destruct (f s c) as [s1|] eqn:Hc; [|discriminate]. cbn [bind] in H.
    eapply IH; [| |exact H].
    + intros x Hx. apply Hstep. right. exact Hx.
    + eapply Hstep; [left; reflexivity|exact HQ|exact Hc].
Qed.

Lemma Forall_update {A} (P : A -> Prop) (l : list A) (i : nat) (x : A) :
  Forall P l -> P x -> Forall P (update l i x).
Proof.
  intros H. revert i. induction H as [|a l Ha Hl IH]; intros i Hx; simpl.
  - constructor.
  - destruct i; constructor; auto.
Qed.

Lemma TraverseLine_policy (item : LayoutItem) (tr tr' : TreeReconstructor) :
  lines_already_formatted tr -> TraverseLine item tr = Ok tr' ->
  lines_already_formatted tr'.
Proof.
  unfold lines_already_formatted, TraverseLine. intros Hall.
  destruct (active_unwrapped_line_ tr) as [i|].
  - destruct (deref (unwrapped_lines_ tr) i) as [line|] eqn:Hline; [|discriminate].
    cbn [bind]. intros H. injection H as <-. cbn [set_lines unwrapped_lines_].
    apply Forall_update; auto. cbn [SpanUpToToken partition_policy].
    rewrite Forall_forall in Hall. apply Hall. eapply deref_In; eauto.
  - intros H. injection H as <-. cbn [set_active set_lines unwrapped_lines_].
    apply Forall_app. split; auto.
Qed.

Lemma TraverseTree_policy (final_column : UnwrappedLine -> Z) (t : LayoutTree) :
  forall tr tr',
    lines_already_formatted tr ->
    TraverseTree final_column t tr = Ok tr' ->
    lines_already_formatted tr'.
Proof.
  induction t as [item children IH] using VectorTree_ind'.
  rewrite Forall_forall in IH.
  intros tr tr' Hall H. rewrite TraverseTree_unfold in H.
  destruct (TraverseBody final_column item children (enter item tr)) as [tr1|] eqn:Hb;
    [|discriminate].
  cbn [bind] in H. injection H as <-.
  assert (Hent : lines_already_formatted (enter item tr)).
  { unfold enter, LOG_IF_WARNING. destruct (_ && _); exact Hall. }
  revert Hent Hb. generalize (enter item tr). intros s Hs Hb.
  change (lines_already_formatted tr1).
  unfold TraverseBody in Hb. destruct (Type_ item).
  - destruct children; [|discriminate]. eapply TraverseLine_policy; eauto.
  - eapply foldM_inv; [|exact Hs|exact Hb]. intros c Hc x y Hx Hxy. eapply IH; eauto.
  - destruct children as [|front [|second remaining]].
    + injection Hb as <-. exact Hs.
    + eapply IH; [left; reflexivity|exact Hs|exact Hb].
    + destruct (stack_indentation final_column item s); [|discriminate].
      cbn [bind] in Hb.
      destruct (TraverseTree final_column front s) as [s1|] eqn:Hfront; [|discriminate].
      cbn [bind] in Hb.
      eapply foldM_inv; [| |exact Hb].
      * intros c Hc x y Hx Hxy. eapply IH; [right; exact Hc| |exact Hxy]. exact Hx.
      * eapply (IH front (or_introl eq_refl) s s1) in Hs; auto.
Qed.

(** C1, as the code has it.  After a successful run of the reconstructor
    that emitted at least one flat line, the replacement returns, and the
    policy of the rewritten node is the function-call policy
    [kOptimalFunctionCallLayout]; "already formatted" is the policy of each
    of the flat lines, which are the children of the node. *)
Theorem node_policy_after_replacement (final_column : UnwrappedLine -> Z)
  (layout_tree : LayoutTree) (indentation : Z) (tr : TreeReconstructor)
  (node : TokenPartitionTree) (ftokens : list PreFormatToken) :
  TraverseTree final_column layout_tree (mkTreeReconstructor indentation) = Ok tr ->
  unwrapped_lines_ tr <> [] ->
  exists node' ftokens',
    ReplaceTokenPartitionTreeNode tr node ftokens = Ok (node', ftokens')
    /\ partition_policy (Value node') = kOptimalFunctionCallLayout
    /\ map Value (Children node') = unwrapped_lines_ tr
    /\ Forall (fun child => partition_policy (Value child) = kAlreadyFormatted
                            /\ Children child = [])
              (Children node').
Proof.
  intros Hrun Hne.
  apply TraverseTree_policy in Hrun; [|constructor].
  destruct (ReplaceTokenPartitionTreeNode tr node ftokens) as [[node' ftokens']|] eqn:Hr.
  - exists node', ftokens'. split; [reflexivity|].
    apply Replace_eq in Hr. destruct Hr as (first_line & value & _ & Hr & Hp & _).
    apply (f_equal fst) in Hr. cbn [fst] in Hr. rewrite Replace_step_node in Hr.
    subst node'. cbn [Value Children app]. split; [exact Hp|]. split.
    + rewrite map_map. cbn [Value]. apply map_id.
    + apply Forall_map. unfold lines_already_formatted in Hrun.
      eapply Forall_impl; [|exact Hrun]. intros l Hl. cbn [Value Children]. auto.
  - unfold ReplaceTokenPartitionTreeNode in Hr.
    destruct (unwrapped_lines_ tr); [contradiction|discriminate].
Qed.

Lemma node_policy_after_replacement_witness :
  exists tr node' ftokens',
    TraverseTree sample_final_column (indented_juxtaposition 0 (line_layout 2 3))
      (mkTreeReconstructor 0) = Ok tr
    /\ ReplaceTokenPartitionTreeNode tr (Node (mkUnwrappedLine 0 0) []) sample_tokens
       = Ok (node', ftokens')
    /\ partition_policy (Value node') = kOptimalFunctionCallLayout
    /\ map Value (Children node') = unwrapped_lines_ tr
    /\ Forall (fun child => partition_policy (Value child) = kAlreadyFormatted
                            /\ Children child = [])
              (Children node').
Proof.
  pose (tr := match TraverseTree sample_final_column
                      (indented_juxtaposition 0 (line_layout 2 3))
                      (mkTreeReconstructor 0) with
              | Ok tr => tr
              | Fail _ => mkTreeReconstructor 0
              end).
  assert (Hrun : TraverseTree sample_final_column
                   (indented_juxtaposition 0 (line_layout 2 3))
                   (mkTreeReconstructor 0) = Ok tr) by (vm_compute; reflexivity).
  exists tr.
  destruct (node_policy_after_replacement sample_final_column
              (indented_juxtaposition 0 (line_layout 2 3)) 0 tr
              (Node (mkUnwrappedLine 0 0) []) sample_tokens Hrun)
    as (node' & ftokens' & H).
  - vm_compute. discriminate.
  - exists node', ftokens'. split; [exact Hrun|exact H].
Defined.

(** C1 as stated fails: after the run on a single line the policy of the
    rewritten node is not "already formatted". *)
Lemma node_policy_counterexample :
  exists node' ftokens',
    TraverseTree sample_final_column (line_layout 0 1) (mkTreeReconstructor 0)
    = Ok one_line_state
    /\ ReplaceTokenPartitionTreeNode one_line_state (Node (mkUnwrappedLine 0 0) [])
         sample_tokens = Ok (node', ftokens')
    /\ partition_policy (Value node') <> kAlreadyFormatted.
Proof.
  eexists. eexists. split; [reflexivity|]. split; [vm_compute; reflexivity|].
  simpl. discriminate.
Qed.

(** * The combinators, the reconstructor and the optimizer in more detail *)

(** ** The lookup, on increasing knots *)

Lemma lower_bound_all_right (lf : LayoutFunction) (col : Z) (first len : nat) :
  (forall s, In s lf -> col < column s) ->
  lower_bound lf col first len = first.
Proof.
  funelim (lower_bound lf col first len); intros Hall; try rewrite <- Heqcall; auto.
  apply nth_error_In in Heq0. apply Hall in Heq0. apply Z.leb_le in Heq. lia.
Qed.

(** On a function that has segments, the lookup of a column to the left
    of every knot stops at the failed [CHECK_NE(it, begin())]: there is no
    segment to step back to. *)
Theorem AtOrToTheLeftOf_left_of_every_knot (lf : LayoutFunction) (c : Z) :
  lf <> [] ->
  (forall s, In s lf -> c < column s) ->
  AtOrToTheLeftOf lf c = Fail CheckFailed.
Proof.
  intros Hne H. unfold AtOrToTheLeftOf. destruct lf as [|s rest]; [congruence|].
  rewrite lower_bound_all_right by exact H. reflexivity.
Qed.

Lemma AtOrToTheLeftOf_left_of_every_knot_witness :
  AtOrToTheLeftOf [sample_segment 0 10 101 11; sample_segment 3 40 404 44] (-1)
  = Fail CheckFailed.
Proof.
  apply AtOrToTheLeftOf_left_of_every_knot; [discriminate|].
  intros s [<-|[<-|[]]]; simpl; lia.
Defined.

(** On increasing knots, the lookup of a column at or to the right of the
    first knot returns the last segment whose knot is at or to the left of
    the column: the knots after it are to the right of the column, the
    knots up to it are not. *)
Theorem AtOrToTheLeftOf_covering_segment (lf : LayoutFunction) (first : LayoutFunctionSegment)
  (c : Z) :
  sorted_knots lf ->
  hd_error lf = Some first ->
  column first <= c ->
  exists i s,
    AtOrToTheLeftOf lf c = Ok i
    /\ nth_error lf i = Some s
    /\ column s <= c
    /\ (forall j s', (i < j)%nat -> nth_error lf j = Some s' -> c < column s')
    /\ (forall j s', (j <= i)%nat -> nth_error lf j = Some s' -> column s' <= c).
Proof.
  intros Hsorted Hhd Hc. destruct lf as [|s0 rest]; [discriminate|].
  simpl in Hhd. injection Hhd as ->.
  destruct (AtOrToTheLeftOf_found first rest c Hc) as (i & seg & Hi & Hseg & Hle).
  pose proof (AtOrToTheLeftOf_inv (first :: rest) i c ltac:(discriminate) Hsorted Hi)
    as (s & Hs & Hsc & Hnext).
  exists i, s. repeat split; auto.
  - intros j s' Hij Hs'.
    destruct (nth_error (first :: rest) (S i)) as [s1|] eqn:Hs1.
    + pose proof (Hnext s1 eq_refl).
      destruct (Nat.eq_dec j (S i)) as [->|Hne]; [congruence|].
      pose proof (Hsorted (S i) j s1 s' ltac:(lia) Hs1 Hs'). lia.
    + apply nth_error_None in Hs1.
      assert (j < length (first :: rest))%nat by (apply nth_error_Some; congruence). lia.
  - intros j s' Hji Hs'.
    destruct (Nat.eq_dec j i) as [->|Hne]; [congruence|].
    pose proof (Hsorted j i s' s ltac:(lia) Hs' Hs). lia.
Qed.

Lemma AtOrToTheLeftOf_covering_segment_witness :
  exists i s,
    AtOrToTheLeftOf [sample_segment 0 10 101 11; sample_segment 3 40 404 44;
                     sample_segment 40 50 505 55] 39 = Ok i
    /\ nth_error [sample_segment 0 10 101 11; sample_segment 3 40 404 44;
                  sample_segment 40 50 505 55] i = Some s
    /\ column s <= 39
    /\ (forall j s', (i < j)%nat ->
          nth_error [sample_segment 0 10 101 11; sample_segment 3 40 404 44;
                     sample_segment 40 50 505 55] j = Some s' -> 39 < column s')
    /\ (forall j s', (j <= i)%nat ->
          nth_error [sample_segment 0 10 101 11; sample_segment 3 40 404 44;
                     sample_segment 40 50 505 55] j = Some s' -> column s' <= 39).
Proof.
  apply (AtOrToTheLeftOf_covering_segment _ (sample_segment 0 10 101 11)).
  - apply sorted_knotsb_sound. reflexivity.
  - reflexivity.
  - simpl. lia.
Defined.

(** ** The cost of a line *)

Lemma sorted_knots_single (s : LayoutFunctionSegment) : sorted_knots [s].
Proof.
  intros i j si sj Hij Hi Hj.
  destruct j as [|j]; [lia|]. simpl in Hj. destruct j; discriminate.
Qed.

Lemma sorted_knots_pair (a b : LayoutFunctionSegment) :
  column a < column b -> sorted_knots [a; b].
Proof.
  intros H i j si sj Hij Hi Hj.
  destruct i as [|[|i]]; destruct j as [|[|j]]; simpl in Hi, Hj;
    try lia; try discriminate; try (destruct j; discriminate);
    try (destruct i; discriminate).
  congruence.
Qed.

Lemma Line_shape (style : BasicFormatStyle) (ftokens : list PreFormatToken)
  (uwline : UnwrappedLine) :
  first_knot_is_zero (Line style ftokens uwline)
  /\ sorted_knots (Line style ftokens uwline).
Proof.
  unfold Line. destruct (_ <? _) eqn:E.
  - split; [reflexivity|]. apply sorted_knots_pair. cbn [column]. apply Z.ltb_lt in E. lia.
  - split; [reflexivity|]. apply sorted_knots_single.
Qed.

Lemma Line_layouts (style : BasicFormatStyle) (ftokens : list PreFormatToken)
  (uwline : UnwrappedLine) (s : LayoutFunctionSegment) :
  In s (Line style ftokens uwline) ->
  layout s = Node (LayoutItem_of_line ftokens uwline) [].
Proof.
  unfold Line. destruct (_ <? _); simpl; intros [<-|[<-|[]]] || intros [<-|[]];
    reflexivity.
Qed.

Lemma Line_stackable (style : BasicFormatStyle) (ftokens : list PreFormatToken)
  (v : UnwrappedLine) : stackable (Line style ftokens v).
Proof.
  destruct (Line_shape style ftokens v) as [Hz Hs]. split; [exact Hz|]. split; [exact Hs|].
  apply Forall_forall. intros s Hs'. rewrite (Line_layouts style ftokens v s Hs').
  reflexivity.
Qed.




(** ** The shape of the result of [Indent] *)

Lemma Indent_shape (style : BasicFormatStyle) (F : LayoutFunction) (k : Z) :
  first_knot_is_zero F -> sorted_knots F -> 0 <= k ->
  exists R i0,
    Indent style F k = Ok R
    /\ covers F i0 k
    /\ R = map (shifted style k) (skipn i0 F)
    /\ first_knot_is_zero R /\ sorted_knots R.
Proof.
  intros Hz Hs Hk.
  destruct (AtOrToTheLeftOf_defined F k Hz Hs Hk) as (i0 & Hi0 & Hcov).
  exists (map (shifted style k) (skipn i0 F)), i0.
  split; [apply Indent_eq_map; auto|]. split; [exact Hcov|]. split; [reflexivity|].
  split; [|apply sorted_knots_shifted; auto].
  destruct Hcov as (s & Hs0 & Hle & _).
  assert (Hsk : skipn i0 F = s :: skipn (S i0) F).
  { clear -Hs0. revert F Hs0. induction i0 as [|i IH]; intros [|a F] H; simpl in *;
      try discriminate.
    - injection H as ->. reflexivity.
    - apply IH. exact H. }
  rewrite Hsk. cbn [map first_knot_is_zero]. unfold shifted, Indent_segment.
  cbn [column]. lia.
Qed.

(** Indenting by [k >= 0] a function with first knot 0 and increasing
    knots returns a function of the same shape, whose knots to the right
    of 0 are the knots of the input moved [k] columns to the left. *)
Theorem Indent_knots (style : BasicFormatStyle) (F : LayoutFunction) (k : Z) :
  first_knot_is_zero F -> sorted_knots F -> 0 <= k ->
  exists R,
    Indent style F k = Ok R
    /\ first_knot_is_zero R /\ sorted_knots R
    /\ (forall c, 0 < c ->
          (In c (map column R) <-> In (c + k) (map column F))).
Proof.
  intros Hz Hs Hk.
  destruct (Indent_shape style F k Hz Hs Hk) as (R & i0 & HR & Hcov & -> & Hz' & Hs').
  eexists. split; [exact HR|]. split; [exact Hz'|]. split; [exact Hs'|].
  intros c Hc. rewrite !in_map_iff. split.
  - intros (r & Hr & Hin). apply in_map_iff in Hin. destruct Hin as (s & <- & Hin).
    exists s. split; [|eapply In_skipn; exact Hin].
    unfold shifted, Indent_segment in Hr. cbn [column] in Hr. lia.
  - intros (s & Hsc & Hin).
    apply In_nth_error in Hin. destruct Hin as (j & Hj).
    destruct Hcov as (s0 & Hs0 & Hle & Hnext).
    assert (Hij : (i0 < j)%nat).
    { destruct (Nat.lt_ge_cases i0 j) as [|Hge]; auto. exfalso.
      destruct (Nat.eq_dec j i0) as [->|Hne].
      - rewrite Hs0 in Hj. injection Hj as ->. lia.
      - pose proof (Hs j i0 s s0 ltac:(lia) Hj Hs0). lia. }
    exists (shifted style k s). split.
    + unfold shifted, Indent_segment. cbn [column]. lia.
    + apply in_map. replace j with (i0 + (j - i0))%nat in Hj by lia.
      rewrite <- nth_error_skipn_shift in Hj. eapply nth_error_In. exact Hj.
Qed.

Lemma Indent_knots_witness :
  exists R,
    Indent test_style (Line test_style sample_tokens short_line) 4 = Ok R
    /\ first_knot_is_zero R /\ sorted_knots R
    /\ (forall c, 0 < c ->
          (In c (map column R)
           <-> In (c + 4) (map column (Line test_style sample_tokens short_line)))).
Proof.
  apply Indent_knots; [apply Line_shape|apply Line_shape|lia].
Defined.

(** ** The knots of a stack *)

Lemma sorted_knots_snoc (lf : LayoutFunction) (x : LayoutFunctionSegment) :
  sorted_knots lf ->
  (forall s, In s lf -> column s < column x) ->
  sorted_knots (lf ++ [x]).
Proof.
  intros Hs Hx i j si sj Hij Hi Hj.
  assert (Hjl : (j < length (lf ++ [x]))%nat) by (apply nth_error_Some; congruence).
  rewrite length_app in Hjl. simpl in Hjl.
  rewrite nth_error_app1 in Hi by lia.
  destruct (Nat.eq_dec j (length lf)) as [->|Hne].
  - rewrite nth_error_app2 in Hj by lia. rewrite Nat.sub_diag in Hj. simpl in Hj.
    injection Hj as <-. apply Hx. eapply nth_error_In. exact Hi.
  - rewrite nth_error_app1 in Hj by lia. exact (Hs i j si sj Hij Hi Hj).
Qed.

(** The next column is below the start and below the knot that follows
    every iterator. *)
Lemma Stack_next_column_least (c : Z) (moved : list Iterator) :
  forall start n,
    foldM (Stack_next_column c) moved start = Ok n ->
    n <= start
    /\ (forall it s', In it moved ->
          nth_error (Container it) (S (Index it)) = Some s' -> n <= column s').
Proof.
  induction moved as [|it moved IH]; intros start n H; simpl in H.
  - injection H as <-. split; [lia|]. intros it s' [].
  - unfold Stack_next_column at 1 in H. unfold IsEnd, deref in H.
    destruct (nth_error (Container it) (S (Index it))) as [next|] eqn:Hn.
    + assert (Hlt : (S (Index it) < length (Container it))%nat)
        by (apply nth_error_Some; congruence).
      replace (length (Container it) <=? S (Index it))%nat with false in H
        by (symmetry; apply Nat.leb_gt; exact Hlt).
      cbn [bind] in H.
      destruct (c <=? column next); [|discriminate]. cbn [bind] in H.
      apply IH in H. destruct H as [Hle Hall].
      destruct (column next <? start) eqn:Hcmp.
      * apply Z.ltb_lt in Hcmp. split; [lia|].
        intros it' s' [<-|Hin] Hs'; [|eapply Hall; eauto].
        rewrite Hn in Hs'. injection Hs' as <-. exact Hle.
      * apply Z.ltb_ge in Hcmp. split; [lia|].
        intros it' s' [<-|Hin] Hs'; [|eapply Hall; eauto].
        rewrite Hn in Hs'. injection Hs' as <-. lia.
    + pose proof Hn as Hn'. apply nth_error_None in Hn'.
      replace (length (Container it) <=? S (Index it))%nat with true in H
        by (symmetry; apply Nat.leb_le; exact Hn').
      apply IH in H. destruct H as [Hle Hall]. split; [lia|].
      intros it' s' [<-|Hin] Hs'; [congruence|eapply Hall; eauto].
Qed.

(** A knot to the right of the column that an iterator covers is at or
    after the knot that follows the iterator. *)
Lemma knot_after_covered (lf : LayoutFunction) (i : nat) (c k : Z) :
  sorted_knots lf -> covers lf i c -> In k (map column lf) -> c < k ->
  exists s', nth_error lf (S i) = Some s' /\ column s' <= k.
Proof.
  intros Hs (s0 & Hs0 & Hle & _) Hin Hck.
  apply in_map_iff in Hin. destruct Hin as (s & Hsk & Hin).
  apply In_nth_error in Hin. destruct Hin as (j & Hj).
  assert (Hij : (i < j)%nat).
  { destruct (Nat.lt_ge_cases i j) as [|Hge]; auto. exfalso.
    destruct (Nat.eq_dec j i) as [->|Hne].
    - rewrite Hs0 in Hj. injection Hj as ->. lia.
    - pose proof (Hs j i s s0 ltac:(lia) Hj Hs0). lia. }
  destruct (nth_error lf (S i)) as [s'|] eqn:Hs'.
  - exists s'. split; [reflexivity|].
    destruct (Nat.eq_dec j (S i)) as [->|Hne].
    + rewrite Hs' in Hj. injection Hj as ->. lia.
    + pose proof (Hs (S i) j s' s ltac:(lia) Hs' Hj). lia.
  - apply nth_error_None in Hs'.
    assert (j < length lf)%nat by (apply nth_error_Some; congruence). lia.
Qed.

Lemma Stack_loop_knots (fuel : nat) :
  forall segments sb bd sp lbp c result R,
    0 <= c ->
    Forall stackable (map Container segments) ->
    sorted_knots result ->
    (forall s, In s result -> column s < c) ->
    Stack_loop fuel segments sb bd sp lbp c result = Ok R ->
    sorted_knots R
    /\ (exists added, R = result ++ added /\ added <> [])
    /\ (forall k, In k (map column R)
                  <-> In k (map column result) \/ k = c
                      \/ (c < k < kInfinity /\ knot_of (map Container segments) k)).
Proof.
  induction fuel as [|fuel IH];
    intros segments sb bd sp lbp c result R Hc Hst Hsorted Hbelow H; [discriminate|].
  cbn [Stack_loop] in H.
  destruct (mapM_Move_defined c segments Hc Hst) as (moved & Hm & Hcont & Hcov).
  rewrite Hm in H. cbn [bind] in H.
  destruct (foldM (Stack_accumulate c) moved _) as [ns|] eqn:Hns; [|discriminate].
  cbn [bind] in H.
  apply Stack_accumulate_fold in Hns. destruct Hns as (_ & _ & _ & _ & _ & Hcol & _).
  cbn [column] in Hcol.
  destruct (foldM (Stack_next_column c) moved kInfinity) as [n|] eqn:Hn; [|discriminate].
  cbn [bind] in H.
  pose proof (Stack_next_column_least c moved kInfinity n Hn) as [Hle Hleast].
  destruct (Stack_next_column_defined c moved kInfinity Hcov)
    as (n' & Hn' & Hcase).
  rewrite Hn in Hn'. injection Hn' as <-.
  assert (Hsorted' : sorted_knots (result ++ [ns])).
  { apply sorted_knots_snoc; auto. intros s Hs. rewrite Hcol. apply Hbelow. exact Hs. }
  assert (Hmin : forall k, c < k -> knot_of (map Container segments) k -> n <= k).
  { intros k Hck (F & HF & Hk). rewrite <- Hcont in HF.
    apply in_map_iff in HF. destruct HF as (it & <- & Hit).
    rewrite Forall_forall in Hcov. pose proof (Hcov it Hit) as Hcovit.
    assert (HsF : sorted_knots (Container it)).
    { rewrite <- Hcont in Hst. rewrite Forall_forall in Hst.
      apply (Hst (Container it)). apply in_map. exact Hit. }
    destruct (knot_after_covered (Container it) (Index it) c k HsF Hcovit Hk Hck)
      as (s' & Hs' & Hs'k).
    pose proof (Hleast it s' Hit Hs'). lia. }
  destruct (n <? kInfinity) eqn:Hlt.
  - apply Z.ltb_lt in Hlt.
    destruct Hcase as [Heq | (_ & Hcn & it & s & Hit & Hs & Hsn)]; [lia|].
    apply IH in H; [|lia|rewrite Hcont; exact Hst|exact Hsorted'|].
    + destruct H as (HR & (added & -> & Hadd) & Hk). split; [exact HR|]. split.
      * exists (ns :: added). rewrite <- app_assoc. split; [reflexivity|discriminate].
      * intros k. rewrite Hk. rewrite map_app, in_app_iff. cbn [map In].
        rewrite Hcol, Hcont. split.
        -- intros [[Hin|[Heq|[]]]|[Heq|[Hr Hkn]]]; auto.
           ++ right. right. subst k. split; [lia|].
              exists (Container it). split.
              ** rewrite <- Hcont. apply in_map. exact Hit.
              ** apply in_map_iff. exists s. auto.
           ++ right. right. split; [lia|exact Hkn].
        -- intros [Hin|[Heq|[Hr Hkn]]]; auto.
           pose proof (Hmin k ltac:(lia) Hkn).
           destruct (Z.eq_dec k n); [auto|]. right. right. split; [lia|exact Hkn].
    + intros s0 Hs0. apply in_app_iff in Hs0. destruct Hs0 as [Hs0|[<-|[]]].
      * pose proof (Hbelow s0 Hs0). lia.
      * rewrite Hcol. lia.
  - apply Z.ltb_ge in Hlt. injection H as <-. split; [exact Hsorted'|]. split.
    + exists [ns]. split; [reflexivity|discriminate].
    + intros k. rewrite map_app, in_app_iff. cbn [map In]. rewrite Hcol. split.
      * intros [Hin|[Heq|[]]]; auto.
      * intros [Hin|[Heq|[Hr Hkn]]]; auto.
        pose proof (Hmin k ltac:(lia) Hkn). lia.
Qed.

Lemma sorted_knots_first_zero (R : LayoutFunction) :
  sorted_knots R ->
  In 0 (map column R) ->
  (forall k, In k (map column R) -> 0 <= k) ->
  first_knot_is_zero R.
Proof.
  intros Hsorted H0 Hpos. destruct R as [|r R]; [contradiction|]. simpl.
  destruct (Z.eq_dec (column r) 0) as [|Hne]; auto. exfalso.
  pose proof (Hpos (column r) (or_introl eq_refl)) as Hr.
  destruct H0 as [|H0]; [lia|].
  apply in_map_iff in H0. destruct H0 as (s & Hs0 & Hin).
  apply In_nth_error in Hin. destruct Hin as (j & Hj).
  pose proof (Hsorted 0%nat (S j) r s ltac:(lia) eq_refl Hj). lia.
Qed.

(** The knots that the loop of [Stack] pushes, from the first column on. *)
Lemma Stack_pushed_knots (style : BasicFormatStyle) (lfs : list LayoutFunction)
  (R : LayoutFunction) :
  (2 <= length lfs)%nat ->
  Forall stackable lfs ->
  Stack style lfs = Ok R ->
  sorted_knots R
  /\ (forall k, In k (map column R)
                <-> k = 0 \/ (0 < k < kInfinity /\ knot_of lfs k)).
Proof.
  intros Hlen Hst HR.
  destruct lfs as [|F1 [|F2 rest]]; simpl in Hlen; try lia.
  set (lfs := F1 :: F2 :: rest) in *.
  change (Stack style lfs) with (Stack_segments style (begin_iterators lfs)) in HR.
  pose proof (Container_begin_iterators lfs) as Hcont.
  unfold Stack_segments in HR.
  destruct (begin_iterators lfs) as [|it0 its] eqn:Hits; [discriminate|].
  cbn [negb] in HR.
  destruct (it_deref it0); [|discriminate]. cbn [bind] in HR.
  destruct (last_error (it0 :: its)); [|discriminate].
  destruct (it_deref i); [|discriminate]. cbn [bind] in HR.
  apply Stack_loop_knots in HR; [|lia|rewrite Hcont; exact Hst| |intros s []].
  - destruct HR as (Hsorted & _ & Hk). rewrite Hcont in Hk.
    split; [exact Hsorted|]. intros k. rewrite Hk. cbn [map In]. tauto.
  - intros i0 j si sj _ Hi. destruct i0; discriminate.
Qed.

Lemma Stack_shape (style : BasicFormatStyle) (lfs : list LayoutFunction) :
  (2 <= length lfs)%nat ->
  Forall stackable lfs ->
  exists R, Stack style lfs = Ok R /\ first_knot_is_zero R /\ sorted_knots R.
Proof.
  intros Hlen Hst.
  destruct (Stack_returns style lfs Hst) as (R & HR). exists R. split; [exact HR|].
  destruct (Stack_pushed_knots style lfs R Hlen Hst HR) as (Hsorted & Hk).
  split; [|exact Hsorted].
  apply sorted_knots_first_zero; [exact Hsorted|apply Hk; auto|].
  intros k Hin. apply Hk in Hin. lia.
Qed.

(** The stack of two or more functions that [Stack] can take returns a
    function with first knot 0 and increasing knots; its knots are 0 and
    the knots of the inputs between 0 and [kInfinity]. *)
Theorem Stack_knots (style : BasicFormatStyle) (lfs : list LayoutFunction) :
  (2 <= length lfs)%nat ->
  Forall stackable lfs ->
  exists R,
    Stack style lfs = Ok R
    /\ first_knot_is_zero R
    /\ sorted_knots R
    /\ (forall k, In k (map column R)
                  <-> k = 0 \/ (0 < k < kInfinity /\ knot_of lfs k)).
Proof.
  intros Hlen Hst.
  destruct (Stack_returns style lfs Hst) as (R & HR). exists R. split; [exact HR|].
  destruct (Stack_pushed_knots style lfs R Hlen Hst HR) as (Hsorted & Hk).
  split; [|split; [exact Hsorted|exact Hk]].
  apply sorted_knots_first_zero; [exact Hsorted|apply Hk; auto|].
  intros k Hin. apply Hk in Hin. lia.
Qed.

Lemma Stack_knots_witness :
  exists R,
    Stack test_style [Line test_style sample_tokens short_line;
                      Line test_style sample_tokens ten_columns_line] = Ok R
    /\ first_knot_is_zero R
    /\ sorted_knots R
    /\ (forall k, In k (map column R)
                  <-> k = 0
                      \/ (0 < k < kInfinity
                          /\ knot_of [Line test_style sample_tokens short_line;
                                      Line test_style sample_tokens ten_columns_line] k)).
Proof.
  apply Stack_knots.
  - simpl. lia.
  - repeat constructor; try (apply sorted_knotsb_sound; reflexivity).
Defined.

(** ** The lines of a layout *)

Lemma line_ranges_composite (t : LayoutTree) :
  Type_ (Value t) <> kLine -> line_ranges t = flat_map line_ranges (Children t).
Proof. destruct t as [item children]. cbn. destruct (Type_ item); congruence. Qed.

Lemma line_ranges_AdoptSubtree (t c : LayoutTree) :
  Type_ (Value t) <> kLine ->
  line_ranges (AdoptSubtree t c) = line_ranges t ++ line_ranges c.
Proof.
  intros H. rewrite (line_ranges_composite t H).
  rewrite (line_ranges_composite (AdoptSubtree t c)) by exact H.
  cbn [AdoptSubtree Children]. rewrite flat_map_app. cbn [flat_map].
  rewrite app_nil_r. reflexivity.
Qed.

(** The adoption appends the lines of the source to those of the
    destination, whether it flattens the source or not. *)
Lemma Adopt_ranges (source destination result : LayoutTree) :
  Type_ (Value destination) <> kLine ->
  AdoptLayoutAndFlattenIfSameType source destination = Ok result ->
  line_ranges result = line_ranges destination ++ line_ranges source.
Proof.
  intros Hd. unfold AdoptLayoutAndFlattenIfSameType.
  destruct (negb (is_leaf source)
            && LayoutType_eqb (Type_ (Value source)) (Type_ (Value destination))
            && (IndentationSpaces (Value source) =? 0)) eqn:Hc.
  - apply andb_true_iff in Hc. destruct Hc as [Hc _].
    apply andb_true_iff in Hc. destruct Hc as [_ Hty].
    apply LayoutType_eqb_eq in Hty.
    destruct (Children source) as [|first rest] eqn:Hcs; [discriminate|].
    destruct (Bool.eqb _ _); [|discriminate].
    destruct (_ =? _); [|discriminate]. cbn [bind]. intros H.
    assert (E : result = fold_left AdoptSubtree (first :: rest) destination)
      by (injection H as <-; reflexivity).
    rewrite E, <- Hcs.
    rewrite (line_ranges_composite source) by congruence.
    rewrite line_ranges_composite
      by (rewrite fold_AdoptSubtree_Value; exact Hd).
    rewrite fold_AdoptSubtree_Children, flat_map_app.
    rewrite <- line_ranges_composite by exact Hd. reflexivity.
  - intros H. injection H as <-. apply line_ranges_AdoptSubtree. exact Hd.
Qed.

Lemma line_ranges_indent (l : LayoutTree) (k : Z) :
  line_ranges (indent_layout l k) = line_ranges l.
Proof. destruct l as [item children]. reflexivity. Qed.

(** ** The lines of a stack *)

Lemma Stack_accumulate_ranges (c : Z) (segments : list Iterator) :
  forall init new_segment,
    Type_ (Value (layout init)) <> kLine ->
    foldM (Stack_accumulate c) segments init = Ok new_segment ->
    exists segs,
      Forall2 (fun it s => it_deref it = Ok s) segments segs
      /\ column new_segment = column init
      /\ line_ranges (layout new_segment)
         = line_ranges (layout init) ++ flat_map (fun s => line_ranges (layout s)) segs.
Proof.
  induction segments as [|it segments IH]; intros init ns Hty H; simpl in H.
  - inversion H; subst. exists []. simpl. rewrite app_nil_r. repeat split. constructor.
  - unfold Stack_accumulate at 1 in H.
    destruct (it_deref it) as [s|] eqn:Hs; [|discriminate]. cbn [bind] in H.
    destruct (AdoptLayoutAndFlattenIfSameType (layout s) (layout init))
      as [l|] eqn:Hl; [|discriminate]. cbn [bind] in H.
    pose proof (Adopt_Value _ _ _ Hl) as Hv.
    apply IH in H; [|cbn [layout]; rewrite Hv; exact Hty].
    destruct H as (segs & Hall & Hc & Hr). cbn [column layout] in *.
    exists (s :: segs). split; [constructor; auto|]. split; [exact Hc|].
    rewrite Hr, (Adopt_ranges _ _ _ Hty Hl). cbn [flat_map].
    rewrite <- app_assoc. reflexivity.
Qed.

Lemma Stack_loop_lines (fuel : nat) :
  forall segments sb bd sp lbp c result R,
    Stack_loop fuel segments sb bd sp lbp c result = Ok R ->
    Forall (Stack_lines (map Container segments)) result ->
    Forall (Stack_lines (map Container segments)) R.
Proof.
  induction fuel as [|fuel IH]; intros segments sb bd sp lbp c result R H Hres;
    [discriminate|].
  cbn [Stack_loop] in H.
  destruct (mapM _ segments) as [moved|] eqn:Hmoved; [|discriminate]. cbn [bind] in H.
  destruct (foldM (Stack_accumulate c) moved _) as [ns|] eqn:Hns; [|discriminate].
  cbn [bind] in H.
  apply mapM_Move in Hmoved.
  apply Stack_accumulate_ranges in Hns; [|cbn; discriminate].
  destruct Hns as (segs & Hderef & Hc & Hr).
  cbn [column layout] in *.
  destruct (moved_segments c segments moved segs Hmoved Hderef) as [Hsegs Hcont].
  assert (Hnew : Forall (Stack_lines (map Container segments)) (result ++ [ns])).
  { apply Forall_app. split; auto. constructor; [|constructor].
    exists segs. rewrite Hc. split; [exact Hsegs|]. rewrite Hr. reflexivity. }
  destruct (foldM (Stack_next_column c) moved kInfinity) as [next|]; [|discriminate].
  cbn [bind] in H.
  destruct (next <? kInfinity).
  - rewrite <- Hcont in *. eapply IH; eauto.
  - inversion H; subst. exact Hnew.
Qed.

(** The layout of every segment of a stack lists the lines of the
    segments of the inputs that cover its column, input after input: no
    line is lost, repeated or moved. *)
Theorem Stack_keeps_lines (style : BasicFormatStyle) (lfs : list LayoutFunction)
  (R : LayoutFunction) :
  (2 <= length lfs)%nat ->
  Stack style lfs = Ok R ->
  Forall (Stack_lines lfs) R.
Proof.
  intros Hlen HR.
  destruct lfs as [|F1 [|F2 rest]]; simpl in Hlen; try lia.
  set (lfs := F1 :: F2 :: rest) in *.
  change (Stack style lfs) with (Stack_segments style (begin_iterators lfs)) in HR.
  pose proof (Container_begin_iterators lfs) as Hcont.
  unfold Stack_segments in HR.
  destruct (begin_iterators lfs) as [|it0 its] eqn:Hits; [discriminate|].
  cbn [negb] in HR.
  destruct (it_deref it0); [|discriminate]. cbn [bind] in HR.
  destruct (last_error (it0 :: its)); [|discriminate].
  destruct (it_deref i); [|discriminate]. cbn [bind] in HR.
  apply Stack_loop_lines in HR; [|constructor].
  rewrite Hcont in HR. exact HR.
Qed.

Lemma Stack_keeps_lines_witness :
  exists R,
    Stack test_style [Line test_style sample_tokens short_line;
                      Line test_style sample_tokens long_line;
                      Line test_style sample_tokens ten_columns_line] = Ok R
    /\ map (fun r => line_ranges (layout r)) R
       = [[(0, 4); (4, 5); (5, 6)]; [(0, 4); (4, 5); (5, 6)]; [(0, 4); (4, 5); (5, 6)]]%nat
    /\ Forall (Stack_lines [Line test_style sample_tokens short_line;
                            Line test_style sample_tokens long_line;
                            Line test_style sample_tokens ten_columns_line]) R.
Proof.
  pose (lfs := [Line test_style sample_tokens short_line;
                Line test_style sample_tokens long_line;
                Line test_style sample_tokens ten_columns_line]).
  pose (R := unwrap (Stack test_style lfs)).
  assert (HR : Stack test_style lfs = Ok R) by (vm_compute; reflexivity).
  exists R. split; [exact HR|]. split; [vm_compute; reflexivity|].
  apply (Stack_keeps_lines test_style lfs R); [simpl; lia|exact HR].
Defined.

(** ** The binary juxtaposition *)


Lemma covers_next (lf : LayoutFunction) (i : nat) (c : Z) (s' : LayoutFunctionSegment) :
  sorted_knots lf -> covers lf i c -> nth_error lf (S i) = Some s' ->
  covers lf (S i) (column s') /\ c < column s'.
Proof.
  intros Hs (s & Hi & Hle & Hnext) Hs'. split; [|apply Hnext; exact Hs'].
  exists s'. split; [exact Hs'|]. split; [lia|].
  intros s'' Hs''. apply (Hs (S i) (S (S i)) s' s''); auto.
Qed.

Lemma deref_Some {A} (l : list A) (i : nat) (a : A) :
  deref l i = Ok a -> nth_error l i = Some a.
Proof. unfold deref. destruct (nth_error l i); intros H; inversion H; reflexivity. Qed.




(** ** [Juxtaposition] returns *)

Lemma covers_lt_length (lf : LayoutFunction) (i : nat) (c : Z) :
  covers lf i c -> (i < length lf)%nat.
Proof. intros (s & Hs & _). apply nth_error_Some. congruence. Qed.

Lemma Juxtaposition_loop_returns (fuel : nat) (style : BasicFormatStyle)
  (left right : LayoutFunction) (sb : Z) :
  stackable left -> stackable right ->
  uniform_spacing sb right ->
  (forall l, In l left -> 0 <= span l + sb) ->
  (forall r, In r right -> column r < kInfinity) ->
  spans_do_not_decrease left ->
  forall segment_l segment_r column_l column_r result,
    0 <= column_l ->
    covers left segment_l column_l ->
    covers right segment_r column_r ->
    (forall l, nth_error left segment_l = Some l -> column_r = column_l + span l + sb) ->
    (length left - segment_l + (length right - segment_r) <= fuel)%nat ->
    exists R, Juxtaposition_loop fuel style left right segment_l segment_r
                                 column_l column_r result = Ok R.
Proof.
  intros (Hzl & Hsl & Hal) (Hzr & Hsr & Har) Hsb Hspan Hinf Hmono.
  induction fuel as [|fuel IH];
    intros segment_l segment_r column_l column_r result H0 Hcl Hcr Hrel Hfuel.
  { pose proof (covers_lt_length _ _ _ Hcl). lia. }
  pose proof (covers_lt_length _ _ _ Hcl) as Hll.
  pose proof (covers_lt_length _ _ _ Hcr) as Hlr.
  cbn [Juxtaposition_loop].
  pose proof Hcl as (seg_l & Hl & Hlle & Hlnext).
  pose proof Hcr as (seg_r & Hr & Hrle & Hrnext).
  unfold deref at 1 2. rewrite Hl, Hr. cbn [bind].
  rewrite Forall_forall in Hal, Har.
  destruct (Adopt_defined (layout seg_l)
              (Node (mkLayoutItem kJuxtaposition (SpacesBefore (Value (layout seg_l)))
                                  (MustWrap_ (Value (layout seg_l)))) [])
              (Hal seg_l (nth_error_In _ _ Hl))) as (nl1 & Hn1).
  rewrite Hn1. cbn [bind].
  destruct (Adopt_defined (layout seg_r) nl1 (Har seg_r (nth_error_In _ _ Hr)))
    as (nl2 & Hn2).
  rewrite Hn2. cbn [bind].
  pose proof (Hrel seg_l Hl) as Hcr_eq.
  pose proof (Hspan seg_l (nth_error_In _ _ Hl)) as Hspl.
  assert (Hsbr : SpacesBefore (Value (layout seg_r)) = sb).
  { unfold uniform_spacing in Hsb. rewrite Forall_forall in Hsb. apply Hsb.
    eapply nth_error_In. exact Hr. }
  unfold IsEnd, next_column_of.
  destruct (nth_error left (S segment_l)) as [next_l|] eqn:Hnl;
    destruct (nth_error right (S segment_r)) as [next_r|] eqn:Hnr.
  - (* both functions go on *)
    assert (Hel : (length left <=? S segment_l)%nat = false).
    { apply Nat.leb_gt. apply nth_error_Some. congruence. }
    assert (Her : (length right <=? S segment_r)%nat = false).
    { apply Nat.leb_gt. apply nth_error_Some. congruence. }
    rewrite Hel, Her. cbn [andb orb].
    destruct (column next_l - column_l <=? column next_r - column_r) eqn:Hcmp.
    + unfold deref. rewrite Hnl. cbn [bind].
      pose proof (Hlnext next_l eq_refl) as Hlt.
      pose proof (Hspan next_l (nth_error_In _ _ Hnl)) as Hspn.
      pose proof (Hmono segment_l seg_l next_l Hl Hnl) as Hm.
      destruct (AtOrToTheLeftOf_defined right
                  (column next_l + span next_l + SpacesBefore (Value (layout seg_r)))
                  Hzr Hsr ltac:(lia)) as (i & Hi & Hcov).
      rewrite Hi. cbn [bind]. apply IH; auto.
      * lia.
      * apply (proj1 (covers_next left segment_l column_l next_l Hsl Hcl Hnl)).
      * intros l Hl'. rewrite Hnl in Hl'. injection Hl' as <-. lia.
      * assert (segment_r <= i)%nat; [|lia].
        apply (covers_monotone right segment_r i column_r
                 (column next_l + span next_l + SpacesBefore (Value (layout seg_r))));
          auto; lia.
    + apply Z.leb_gt in Hcmp. pose proof (Hrnext next_r eq_refl) as Hlt.
      apply IH; auto.
      * lia.
      * exists seg_l. split; [exact Hl|]. split; [lia|].
        intros s' Hs'. rewrite Hnl in Hs'. injection Hs' as <-. lia.
      * apply (proj1 (covers_next right segment_r column_r next_r Hsr Hcr Hnr)).
      * intros l Hl'. rewrite Hl in Hl'. injection Hl' as <-. lia.
      * lia.
  - (* the right function is at its last segment *)
    assert (Hel : (length left <=? S segment_l)%nat = false).
    { apply Nat.leb_gt. apply nth_error_Some. congruence. }
    assert (Her : (length right <=? S segment_r)%nat = true).
    { apply Nat.leb_le. apply nth_error_None. exact Hnr. }
    rewrite Hel, Her. cbn [andb orb].
    unfold deref. rewrite Hnl. cbn [bind].
    pose proof (Hlnext next_l eq_refl) as Hlt.
    pose proof (Hspan next_l (nth_error_In _ _ Hnl)) as Hspn.
    pose proof (Hmono segment_l seg_l next_l Hl Hnl) as Hm.
    destruct (AtOrToTheLeftOf_defined right
                (column next_l + span next_l + SpacesBefore (Value (layout seg_r)))
                Hzr Hsr ltac:(lia)) as (i & Hi & Hcov).
    rewrite Hi. cbn [bind]. apply IH; auto.
    + lia.
    + apply (proj1 (covers_next left segment_l column_l next_l Hsl Hcl Hnl)).
    + intros l Hl'. rewrite Hnl in Hl'. injection Hl' as <-. lia.
    + assert (segment_r <= i)%nat; [|lia].
      apply (covers_monotone right segment_r i column_r
               (column next_l + span next_l + SpacesBefore (Value (layout seg_r))));
        auto; lia.
  - (* the left function is at its last segment *)
    assert (Hel : (length left <=? S segment_l)%nat = true).
    { apply Nat.leb_le. apply nth_error_None. exact Hnl. }
    assert (Her : (length right <=? S segment_r)%nat = false).
    { apply Nat.leb_gt. apply nth_error_Some. congruence. }
    rewrite Hel, Her. cbn [andb orb].
    pose proof (Hinf next_r (nth_error_In _ _ Hnr)) as Hk.
    pose proof (Hrnext next_r eq_refl) as Hlt.
    replace (kInfinity - column_l <=? column next_r - column_r) with false
      by (symmetry; apply Z.leb_gt; lia).
    apply IH; auto.
    + lia.
    + exists seg_l. split; [exact Hl|]. split; [lia|].
      intros s' Hs'. congruence.
    + apply (proj1 (covers_next right segment_r column_r next_r Hsr Hcr Hnr)).
    + intros l Hl'. rewrite Hl in Hl'. injection Hl' as <-. lia.
    + lia.
  - assert (Hel : (length left <=? S segment_l)%nat = true).
    { apply Nat.leb_le. apply nth_error_None. exact Hnl. }
    assert (Her : (length right <=? S segment_r)%nat = true).
    { apply Nat.leb_le. apply nth_error_None. exact Hnr. }
    rewrite Hel, Her. cbn [andb]. eexists. reflexivity.
Qed.

(** The binary [Juxtaposition] returns a function when both inputs have
    first knot 0, increasing knots and layouts that the adoption accepts,
    the right one asks for the same spacing [sb] everywhere and has no
    knot at [kInfinity], and the spans of the left one, which with [sb]
    are not negative, do not decrease; the rounds that [Juxtaposition2]
    allows its loop are then enough. *)
Theorem Juxtaposition2_returns (style : BasicFormatStyle)
  (left right : LayoutFunction) (sb : Z) :
  stackable left -> stackable right ->
  uniform_spacing sb right ->
  (forall l, In l left -> 0 <= span l + sb) ->
  (forall r, In r right -> column r < kInfinity) ->
  spans_do_not_decrease left ->
  exists R, Juxtaposition2 style left right = Ok R.
Proof.
  intros Hl Hr Hsb Hspan Hinf Hmono.
  pose proof Hl as (Hzl & Hsl & _). pose proof Hr as (Hzr & Hsr & _).
  unfold Juxtaposition2.
  destruct left as [|l0 left']; [contradiction|]. cbn [empty negb].
  destruct right as [|r0 right']; [contradiction|]. cbn [empty negb].
  set (left := l0 :: left') in *. set (right := r0 :: right') in *.
  change (deref left 0) with (Ok l0). change (deref right 0) with (Ok r0).
  cbn [bind].
  assert (Hsb0 : SpacesBefore (Value (layout r0)) = sb) by (inversion Hsb; auto).
  pose proof (Hspan l0 (or_introl eq_refl)) as Hs0.
  destruct (AtOrToTheLeftOf_defined right (span l0 + SpacesBefore (Value (layout r0)))
              Hzr Hsr ltac:(lia)) as (i & Hi & Hcov).
  rewrite Hi. cbn [bind].
  apply (Juxtaposition_loop_returns _ style left right sb); auto.
  - lia.
  - exists l0. split; [reflexivity|]. simpl in Hzl. split; [lia|].
    intros s' Hs'. pose proof (Hsl 0%nat 1%nat l0 s' ltac:(lia) eq_refl Hs'). lia.
  - intros l Hl'. change (Some l0 = Some l) in Hl'. injection Hl' as <-. lia.
  - lia.
Qed.

Lemma Juxtaposition2_returns_witness :
  exists R, Juxtaposition2 test_style (Line test_style sample_tokens short_line)
                           (Line test_style sample_tokens ten_columns_line) = Ok R.
Proof.
  apply (Juxtaposition2_returns test_style (Line test_style sample_tokens short_line)
           (Line test_style sample_tokens ten_columns_line) 0).
  - apply Line_stackable.
  - apply Line_stackable.
  - repeat constructor.
  - intros l Hin. cbv in Hin.
    destruct Hin as [<-|[<-|[]]]; cbv; discriminate.
  - intros r Hin. cbv in Hin.
    destruct Hin as [<-|[<-|[]]]; cbv; reflexivity.
  - intros i l l' Hi Hi'.
    destruct i as [|[|i]]; cbv in Hi, Hi'; try discriminate;
      injection Hi as <-; injection Hi' as <-; cbv; discriminate.
Defined.

(** ** [Choice] takes the least cost *)

Lemma CostAt_step (s : LayoutFunctionSegment) (c x : Z) :
  (CostAt s x == CostAt s c + inject_Z (gradient s * (x - c)))%Q.
Proof.
  unfold CostAt. rewrite <- Qplus_assoc, <- inject_Z_plus.
  replace (gradient s * (c - column s) + gradient s * (x - c))
    with (gradient s * (x - column s)) by lia.
  reflexivity.
Qed.

Lemma min_element_cheapest (c : Z) (positions : list Position) (m : Position) :
  min_element (Choice_comp c) positions = Some m ->
  In m positions /\ cheapest c m positions.
Proof.
  intros H. apply min_element_last_minimum in H.
  destruct H as (pre & post & -> & Hpre & Hpost).
  split; [apply in_app_iff; right; left; reflexivity|].
  intros p Hp. apply in_app_iff in Hp. destruct Hp as [Hp|[<-|Hp]].
  - rewrite Forall_forall in Hpre. apply Hpre in Hp. apply Choice_comp_spec in Hp.
    destruct Hp as [Hlt|[Heq Hg]]; split; try lra; intros; try lra; auto.
  - split; [lra|lia].
  - rewrite Forall_forall in Hpost. apply Hpost in Hp.
    assert (Hn : ~ ((CostAt (snd p) c < CostAt (snd m) c)%Q
                    \/ ((CostAt (snd p) c == CostAt (snd m) c)%Q
                        /\ gradient (snd p) <= gradient (snd m)))).
    { intros Hc. apply Choice_comp_spec in Hc. congruence. }
    split.
    + destruct (Qlt_le_dec (CostAt (snd p) c) (CostAt (snd m) c)) as [Hlt|Hle]; auto.
      exfalso. apply Hn. left. exact Hlt.
    + intros Heq.
      destruct (Z.le_gt_cases (gradient (snd m)) (gradient (snd p))) as [|Hgt]; auto.
      exfalso. apply Hn. right. split; [symmetry; exact Heq|lia].
Qed.

Lemma crossover_fold (c : Z) (m : LayoutFunctionSegment) (positions : list Position) :
  forall start,
    fold_left (Choice_crossover c m) positions start <= start
    /\ (c < start -> c < fold_left (Choice_crossover c m) positions start)
    /\ (forall p, In p positions ->
          gradient (snd p) < gradient m ->
          c < crossover_column c m (snd p) ->
          fold_left (Choice_crossover c m) positions start
          <= crossover_column c m (snd p)).
Proof.
  induction positions as [|p positions IH]; intros start; simpl.
  - split; [lia|]. split; [auto|]. intros p [].
  - destruct (IH (Choice_crossover c m start p)) as (H1 & H2 & H3).
    assert (Hstep : Choice_crossover c m start p <= start
                    /\ (c < start -> c < Choice_crossover c m start p)
                    /\ (gradient (snd p) < gradient m ->
                        c < crossover_column c m (snd p) ->
                        Choice_crossover c m start p <= crossover_column c m (snd p))).
    { unfold Choice_crossover. fold (crossover_column c m (snd p)).
      destruct (gradient m <=? gradient (snd p)) eqn:Hg.
      - apply Z.leb_le in Hg. split; [lia|]. split; [auto|]. intros; lia.
      - destruct ((c <? crossover_column c m (snd p))
                  && (crossover_column c m (snd p) <? start)) eqn:Hc.
        + apply andb_true_iff in Hc. destruct Hc as [Hc1 Hc2].
          apply Z.ltb_lt in Hc1, Hc2. split; [lia|]. split; [auto|]. intros; lia.
        + split; [lia|]. split; [auto|]. intros _ Hlt.
          apply andb_false_iff in Hc. destruct Hc as [Hc|Hc].
          * apply Z.ltb_ge in Hc. lia.
          * apply Z.ltb_ge in Hc. lia. }
    destruct Hstep as (S1 & S2 & S3).
    split; [lia|]. split; [auto|].
    intros q [<-|Hq] Hg Hlt.
    + specialize (S3 Hg Hlt). lia.
    + apply H3; auto.
Qed.



Lemma last_error_snoc {A} (l : list A) (x : A) : last_error (l ++ [x]) = Some x.
Proof.
  unfold last_error. rewrite map_app. simpl. apply last_last.
Qed.






Lemma Choice_move_fold (c : Z) (segments : list Iterator) :
  c < kInfinity ->
  Forall (fun it => first_knot_is_zero (Container it) /\ sorted_knots (Container it))
         segments ->
  forall acc nk positions next_knot,
    foldM (Choice_move c) segments (acc, nk) = Ok (positions, next_knot) ->
    exists moved,
      positions = acc ++ moved
      /\ Forall2 (moved_to c) segments moved
      /\ next_knot <= nk
      /\ (c < nk -> c < next_knot)
      /\ Forall (fun p => next_knot
                          <= next_column_of (Container (fst p)) (Index (fst p))) moved.
Proof.
  intros Hc. induction segments as [|it segments IH];
    intros Hall acc nk positions next_knot H; simpl in H.
  - injection H as <- <-. exists []. rewrite app_nil_r. repeat split; auto; lia.
  - inversion Hall as [|? ? [Hz Hs] Hrest]; subst.
    unfold Choice_move at 1 in H. unfold MoveToKnotAtOrToTheLeftOf in H.
    destruct (AtOrToTheLeftOf (Container it) c) as [i|] eqn:Hi; [|discriminate].
    cbn [bind Container Index] in H.
    set (it' := {| container_id := container_id it; Container := Container it;
                   Index := i |}) in *.
    destruct (it_deref it') as [s|] eqn:Hd; [|discriminate]. cbn [bind] in H.
    assert (Hcov : covers (Container it) i c).
    { apply AtOrToTheLeftOf_inv; auto. destruct (Container it); [contradiction|discriminate]. }
    assert (Hnext : c < next_column_of (Container it) i).
    { unfold next_column_of. destruct Hcov as (s0 & _ & _ & Hn).
      destruct (nth_error (Container it) (S i)) as [s'|]; [apply Hn; reflexivity|exact Hc]. }
    apply IH in H; auto. destruct H as (moved & -> & Hf2 & Hle & Hlt & Hall').
    exists ((it', s) :: moved). rewrite <- app_assoc. split; [reflexivity|].
    split; [constructor; auto; repeat split; auto|].
    assert (Hnk : next_knot <= nk /\ next_knot <= next_column_of (Container it) i
                  /\ (c < nk -> c < next_knot)).
    { destruct (next_column_of (Container it) i <? nk) eqn:Hcmp.
      - apply Z.ltb_lt in Hcmp. repeat split; try lia; intros; apply Hlt; lia.
      - apply Z.ltb_ge in Hcmp. repeat split; try lia; intros; apply Hlt; lia. }
    destruct Hnk as (N1 & N2 & N3).
    split; [exact N1|]. split; [exact N3|].
    constructor; [exact N2|exact Hall'].
Qed.








(** ** [Choice] returns *)

Lemma crossover_fold_attained (c : Z) (m : LayoutFunctionSegment)
  (positions : list Position) :
  forall start,
    fold_left (Choice_crossover c m) positions start = start
    \/ exists p, In p positions /\ gradient (snd p) < gradient m
                 /\ fold_left (Choice_crossover c m) positions start
                    = crossover_column c m (snd p).
Proof.
  induction positions as [|p positions IH]; intros start; simpl; [left; reflexivity|].
  destruct (IH (Choice_crossover c m start p)) as [E|(q & Hq & Hg & E)].
  - rewrite E. unfold Choice_crossover. fold (crossover_column c m (snd p)).
    destruct (gradient m <=? gradient (snd p)) eqn:Hg; [left; reflexivity|].
    apply Z.leb_gt in Hg.
    destruct ((c <? crossover_column c m (snd p))
              && (crossover_column c m (snd p) <? start)); [|left; reflexivity].
    right. exists p. split; [left; reflexivity|]. split; [exact Hg|reflexivity].
  - right. exists q. split; [right; exact Hq|]. split; [exact Hg|exact E].
Qed.

Lemma flatter_le (g g' : Z) (positions : list Position) :
  g' <= g -> (flatter g' positions <= flatter g positions)%nat.
Proof.
  intros Hg. unfold flatter. induction positions as [|p positions IH]; simpl; [lia|].
  destruct (gradient (snd p) <? g') eqn:E1; destruct (gradient (snd p) <? g) eqn:E2;
    simpl; lia.
Qed.

Lemma flatter_lt (g g' : Z) (positions : list Position) (m : Position) :
  In m positions -> gradient (snd m) = g' -> g' < g ->
  (flatter g' positions < flatter g positions)%nat.
Proof.
  intros Hm Hg' Hlt. unfold flatter. induction positions as [|p positions IH];
    simpl; [contradiction|].
  pose proof (flatter_le g g' positions ltac:(lia)) as Hle. unfold flatter in Hle.
  destruct Hm as [->|Hm].
  - replace (gradient (snd m) <? g') with false by (symmetry; apply Z.ltb_ge; lia).
    replace (gradient (snd m) <? g) with true by (symmetry; apply Z.ltb_lt; lia).
    simpl. lia.
  - specialize (IH Hm).
    destruct (gradient (snd p) <? g') eqn:E1; destruct (gradient (snd p) <? g) eqn:E2;
      simpl; lia.
Qed.

Lemma min_element_Some {A} (comp : A -> A -> bool) (l : list A) :
  l <> [] -> exists m, min_element comp l = Some m.
Proof. destruct l; [congruence|]. intros _. eexists. reflexivity. Qed.

(** At a crossover the cheapest segment gives way to a flatter one. *)
Lemma crossover_flatter (c : Z) (m m' p : Position) (positions : list Position) :
  cheapest c m positions ->
  In m positions -> In m' positions -> In p positions ->
  gradient (snd p) < gradient (snd m) ->
  cheapest (crossover_column c (snd m) (snd p)) m' positions ->
  gradient (snd m') < gradient (snd m).
Proof.
  intros Hmin Hm Hm' Hp Hg Hmin'.
  set (nc := crossover_column c (snd m) (snd p)) in *.
  destruct (Z.lt_ge_cases (gradient (snd m')) (gradient (snd m))) as [|Hge]; auto.
  exfalso.
  destruct (Hmin p Hp) as [Hle Heq]. destruct (Hmin m' Hm') as [Hle' _].
  destruct (Hmin' p Hp) as [Hp1 Hp2]. destruct (Hmin' m Hm) as [Hm1 _].
  set (d := (CostAt (snd p) c - CostAt (snd m) c)%Q) in *.
  set (G := gradient (snd m) - gradient (snd p)) in *.
  assert (HG : (0 < inject_Z G)%Q).
  { replace 0%Q with (inject_Z 0) by reflexivity. rewrite <- Zlt_Qlt. unfold G. lia. }
  assert (Hcol : (d <= inject_Z (nc - c) * inject_Z G)%Q).
  { unfold nc, crossover_column. fold d G.
    replace (c + Qceiling (d / inject_Z G) - c) with (Qceiling (d / inject_Z G)) by lia.
    pose proof (Qle_ceiling (d / inject_Z G)) as Hc.
    apply (Qmult_le_compat_r _ _ (inject_Z G)) in Hc; [|lra].
    assert (E : (d / inject_Z G * inject_Z G == d)%Q).
    { rewrite Qmult_comm. apply Qmult_div_r. lra. }
    lra. }
  assert (Hnc : c <= nc).
  { destruct (Z.le_gt_cases c nc) as [|Hlt]; auto. exfalso.
    assert (Hq : (inject_Z (nc - c) < inject_Z 0)%Q) by (rewrite <- Zlt_Qlt; lia).
    change (inject_Z 0) with 0%Q in Hq.
    assert (Hd : (0 <= d)%Q) by (unfold d; lra).
    assert (Hneg : (inject_Z (nc - c) * inject_Z G < 0 * inject_Z G)%Q)
      by (apply Qmult_lt_r; auto).
    lra. }
  pose proof (CostAt_step (snd m) c nc) as Em.
  pose proof (CostAt_step (snd p) c nc) as Ep.
  pose proof (CostAt_step (snd m') c nc) as Em'.
  rewrite !inject_Z_mult in Em, Ep, Em'.
  assert (HGe : (inject_Z G == inject_Z (gradient (snd m)) - inject_Z (gradient (snd p)))%Q).
  { unfold G, Zminus. rewrite inject_Z_plus, inject_Z_opp. reflexivity. }
  assert (Hpm : (CostAt (snd p) nc <= CostAt (snd m) nc)%Q).
  { unfold d in Hcol. rewrite HGe in Hcol. lra. }
  assert (Hmm' : (CostAt (snd m) nc <= CostAt (snd m') nc)%Q).
  { assert (Hk : (inject_Z (gradient (snd m)) * inject_Z (nc - c)
                  <= inject_Z (gradient (snd m')) * inject_Z (nc - c))%Q).
    { rewrite <- !inject_Z_mult, <- Zle_Qle. nia. }
    lra. }
  assert (E : (CostAt (snd m') nc == CostAt (snd p) nc)%Q) by lra.
  apply Hp2 in E. lia.
Qed.

Lemma Choice_inner_returns (fuel : nat) (positions : list Position) (next_knot : Z) :
  positions <> [] ->
  forall c last res,
    c < next_knot ->
    (forall m, cheapest c m positions -> In m positions ->
               (flatter (gradient (snd m)) positions < fuel)%nat) ->
    exists last' R,
      Choice_inner fuel positions next_knot c last res = Ok (next_knot, last', R).
Proof.
  intros Hne. induction fuel as [|fuel IH]; intros c last res Hc Hfuel.
  { destruct (min_element_Some (Choice_comp c) positions Hne) as (m & Hm).
    apply min_element_cheapest in Hm. destruct Hm as [Hm Hcheap].
    specialize (Hfuel m Hcheap Hm). lia. }
  cbn [Choice_inner].
  destruct (min_element_Some (Choice_comp c) positions Hne) as (m & Hmin).
  rewrite Hmin. apply min_element_cheapest in Hmin. destruct Hmin as [Hm Hcheap].
  destruct (crossover_fold c (snd m) positions next_knot) as (Hnc1 & Hnc2 & _).
  specialize (Hnc2 Hc).
  set (nc := fold_left (Choice_crossover c (snd m)) positions next_knot) in *.
  destruct (nc <? next_knot) eqn:Hlt.
  - apply Z.ltb_lt in Hlt. apply IH; [exact Hlt|].
    intros m' Hcheap' Hm'.
    destruct (crossover_fold_attained c (snd m) positions next_knot)
      as [E|(p & Hp & Hg & E)]; fold nc in E; [lia|].
    rewrite E in Hcheap'.
    pose proof (crossover_flatter c m m' p positions Hcheap Hm Hm' Hp Hg Hcheap') as Hfl.
    pose proof (flatter_lt (gradient (snd m)) (gradient (snd m')) positions m' Hm'
                  eq_refl Hfl).
    specialize (Hfuel m Hcheap Hm). lia.
  - apply Z.ltb_ge in Hlt. replace nc with next_knot by lia.
    eexists. eexists. reflexivity.
Qed.

Lemma Choice_move_defined (c : Z) (segments : list Iterator) :
  0 <= c < kInfinity ->
  Forall (fun it => first_knot_is_zero (Container it) /\ sorted_knots (Container it))
         segments ->
  forall acc nk,
    nk <= kInfinity ->
    exists moved next_knot,
      foldM (Choice_move c) segments (acc, nk) = Ok (acc ++ moved, next_knot)
      /\ length moved = length segments
      /\ (next_knot = nk
          \/ (next_knot < nk
              /\ exists it s, In it segments /\ In s (Container it)
                              /\ column s = next_knot)).
Proof.
  intros Hc. induction segments as [|it segments IH]; intros Hall acc nk Hnk; simpl.
  - exists [], nk. rewrite app_nil_r. auto.
  - inversion Hall as [|? ? [Hz Hs] Hrest]; subst.
    destruct (AtOrToTheLeftOf_defined (Container it) c Hz Hs ltac:(lia))
      as (i & Hi & s & Hn & Hle & Hnext).
    unfold Choice_move at 1. unfold MoveToKnotAtOrToTheLeftOf. rewrite Hi.
    cbn [bind Container Index]. unfold it_deref, deref. cbn [Container Index].
    rewrite Hn. cbn [bind].
    set (it' := {| container_id := container_id it; Container := Container it;
                   Index := i |}).
    destruct (IH Hrest (acc ++ [(it', s)])
                (if next_column_of (Container it) i <? nk
                 then next_column_of (Container it) i else nk)
                ltac:(destruct (next_column_of (Container it) i <? nk) eqn:E;
                      [apply Z.ltb_lt in E; lia|exact Hnk]))
      as (moved & next_knot & Hf & Hlen & Hcase).
    exists ((it', s) :: moved), next_knot. rewrite <- app_assoc in Hf.
    split; [exact Hf|]. split; [simpl; lia|].
    destruct Hcase as [E|(Hlt & it0 & s0 & Hit0 & Hs0 & Hcol)].
    + destruct (next_column_of (Container it) i <? nk) eqn:Hcmp; [|left; exact E].
      apply Z.ltb_lt in Hcmp. right. split; [lia|].
      unfold next_column_of in E, Hcmp.
      destruct (nth_error (Container it) (S i)) as [s'|] eqn:Hs'.
      * exists it, s'. split; [left; reflexivity|].
        split; [eapply nth_error_In; exact Hs'|congruence].
      * exfalso.
        (* the next knot is [kInfinity], below which [nk] cannot be *)
        lia.
    + right. split.
      * destruct (next_column_of (Container it) i <? nk) eqn:Hcmp; [|exact Hlt].
        apply Z.ltb_lt in Hcmp. lia.
      * exists it0, s0. split; [right; exact Hit0|auto].
Qed.

Lemma moved_containers_eq (c : Z) (segments : list Iterator) (moved : list Position) :
  Forall2 (moved_to c) segments moved ->
  map Container (map fst moved) = map Container segments.
Proof.
  intros Hf2. induction Hf2 as [|it p segments moved (_ & HC & _) _ IH]; simpl; auto.
  rewrite HC, IH. reflexivity.
Qed.

Lemma Choice_loop_returns (fuel : nat) :
  forall segments c last res,
    segments <> [] ->
    0 <= c < kInfinity ->
    Forall (fun F => first_knot_is_zero F /\ sorted_knots F) (map Container segments) ->
    (knots_after c (map Container segments) < fuel)%nat ->
    exists R, Choice_loop fuel segments c last res = Ok R.
Proof.
  induction fuel as [|fuel IH]; intros segments c last res Hne Hc Hall Hfuel; [lia|].
  cbn [Choice_loop].
  assert (Hall' : Forall (fun it => first_knot_is_zero (Container it)
                                    /\ sorted_knots (Container it)) segments).
  { rewrite Forall_map in Hall. exact Hall. }
  destruct (Choice_move_defined c segments Hc Hall' [] kInfinity ltac:(lia))
    as (positions & next_knot & Hf & Hlen & Hcase).
  simpl in Hf. rewrite Hf. cbn [bind].
  destruct (Choice_move_fold c segments ltac:(lia) Hall' [] kInfinity positions next_knot Hf)
    as (moved & Hpos & Hf2 & Hle & Hlt & _).
  simpl in Hpos. subst moved. specialize (Hlt ltac:(lia)).
  assert (Hpne : positions <> []).
  { destruct positions; [|discriminate]. destruct segments; [congruence|discriminate]. }
  assert (Hflat : forall m, cheapest c m positions -> In m positions ->
                            (flatter (gradient (snd m)) positions
                             < S (length positions))%nat).
  { intros m _ _. unfold flatter.
    apply Nat.lt_succ_r. apply filter_length_le. }
  destruct (Choice_inner_returns (S (length positions)) positions next_knot Hpne
              c last res Hlt Hflat) as (last' & R' & Hinner).
  rewrite Hinner. cbn [bind].
  destruct (next_knot <? kInfinity) eqn:Hk; [|eexists; reflexivity].
  apply Z.ltb_lt in Hk.
  pose proof (moved_containers_eq c segments positions Hf2) as Hcont.
  apply IH.
  - destruct positions; [congruence|discriminate].
  - lia.
  - rewrite Hcont. exact Hall.
  - rewrite Hcont.
    destruct Hcase as [E|(_ & it & s & Hit & Hs & Hcol)]; [lia|].
    pose proof (knots_after_lt c next_knot (map Container segments) (Container it) s
                  Hlt (in_map Container _ _ Hit) Hs Hcol).
    lia.
Qed.

(** [Choice] returns a function for all inputs with first knot 0 and
    increasing knots: neither of its loops runs out, and every lookup and
    every dereference is defined. *)
Theorem Choice_returns (lfs : list LayoutFunction) :
  Forall (fun F => first_knot_is_zero F /\ sorted_knots F) lfs ->
  exists R, Choice lfs = Ok R.
Proof.
  intros Hlfs. destruct lfs as [|F1 [|F2 rest]]; [eexists; reflexivity ..|].
  set (lfs := F1 :: F2 :: rest) in *.
  change (Choice lfs) with (Choice_segments (begin_iterators lfs)).
  pose proof (Container_begin_iterators lfs) as Hcont.
  unfold Choice_segments.
  destruct (begin_iterators lfs) as [|front its] eqn:Hits; [discriminate|].
  apply Choice_loop_returns.
  - discriminate.
  - unfold kInfinity. lia.
  - rewrite Hcont. exact Hlfs.
  - pose proof (knots_after_total_size 0 (front :: its)). lia.
Qed.

Lemma Choice_returns_witness :
  exists R,
    Choice [Line test_style sample_tokens short_line;
            Line test_style sample_tokens long_line;
            Line test_style sample_tokens ten_columns_line] = Ok R.
Proof.
  apply Choice_returns. repeat constructor; apply Line_shape.
Defined.

(** ** What the reconstructor keeps *)

Lemma keeps_refl (tr : TreeReconstructor) : keeps tr tr.
Proof.
  intros i l Hl. exists l. split; [exact Hl|]. split; [repeat split|auto].
Qed.

Lemma keeps_trans (a b c : TreeReconstructor) : keeps a b -> keeps b c -> keeps a c.
Proof.
  intros Hab Hbc i l Hl.
  destruct (Hab i l Hl) as (l' & Hl' & (S1 & S2 & S3) & Hp).
  destruct (Hbc i l' Hl') as (l'' & Hl'' & (T1 & T2 & T3) & Hq).
  exists l''. split; [exact Hl''|]. split; [repeat split; congruence|].
  intros Hna. destruct (Hp Hna) as [-> Hnb]. destruct (Hq Hnb) as [-> Hnc]. auto.
Qed.

Lemma keeps_same_lines (tr tr' : TreeReconstructor) :
  unwrapped_lines_ tr' = unwrapped_lines_ tr ->
  (forall i, active_unwrapped_line_ tr <> Some i -> active_unwrapped_line_ tr' <> Some i) ->
  keeps tr tr'.
Proof.
  intros Hl Ha i l Hi. exists l. rewrite Hl. split; [exact Hi|].
  split; [repeat split|auto].
Qed.

Lemma keeps_enter (item : LayoutItem) (tr : TreeReconstructor) : keeps tr (enter item tr).
Proof.
  apply keeps_same_lines; unfold enter, LOG_IF_WARNING; destruct (_ && _); auto.
Qed.

Lemma length_update {A} (l : list A) (i : nat) (x : A) : length (update l i x) = length l.
Proof.
  revert i. induction l as [|a l IH]; intros [|i]; simpl; auto.
Qed.

Lemma keeps_TraverseLine (item : LayoutItem) (tr tr' : TreeReconstructor) :
  TraverseLine item tr = Ok tr' -> keeps tr tr'.
Proof.
  unfold TraverseLine. destruct (active_unwrapped_line_ tr) as [a|] eqn:Ha.
  - destruct (deref (unwrapped_lines_ tr) a) as [line|] eqn:Hline; [|discriminate].
    cbn [bind]. intros H. injection H as <-. apply deref_Some in Hline.
    intros i l Hl. cbn [set_lines unwrapped_lines_ active_unwrapped_line_].
    rewrite nth_error_update, Hl. rewrite Ha. cbn [option_map].
    destruct (a =? i)%nat eqn:E.
    + apply Nat.eqb_eq in E. subst i. eexists. split; [reflexivity|].
      split; [|congruence].
      assert (line = l) by congruence. subst line. repeat split.
    + apply Nat.eqb_neq in E. exists l. split; [reflexivity|].
      split; [repeat split|]. intros _. split; [reflexivity|congruence].
  - intros H. injection H as <-. intros i l Hl.
    cbn [set_active set_lines unwrapped_lines_ active_unwrapped_line_].
    assert (Hi : (i < length (unwrapped_lines_ tr))%nat)
      by (apply nth_error_Some; congruence).
    exists l. rewrite nth_error_app1 by exact Hi. split; [exact Hl|].
    split; [repeat split|]. intros _. split; [reflexivity|].
    intros E. injection E as E. lia.
Qed.

Lemma foldM_rel {A S} (Rel : S -> S -> Prop) (f : S -> A -> Outcome S) (cs : list A) :
  (forall s, Rel s s) ->
  (forall a b c, Rel a b -> Rel b c -> Rel a c) ->
  (forall c, In c cs -> forall s s', f s c = Ok s' -> Rel s s') ->
  forall s s', foldM f cs s = Ok s' -> Rel s s'.
Proof.
  intros Hrefl Htrans. induction cs as [|c cs IH]; intros Hstep s s' H; simpl in H.
  - injection H as <-. apply Hrefl.
  - destruct (f s c) as [s1|] eqn:Hc; [|discriminate]. cbn [bind] in H.
    apply (Htrans s s1 s').
    + apply (Hstep c); [left; reflexivity|exact Hc].
    + apply IH; [|exact H]. intros x Hx. apply Hstep. right. exact Hx.
Qed.

Lemma keeps_TraverseTree (final_column : UnwrappedLine -> Z) (t : LayoutTree) :
  forall tr tr', TraverseTree final_column t tr = Ok tr' -> keeps tr tr'.
Proof.
  induction t as [item children IH] using VectorTree_ind'.
  rewrite Forall_forall in IH.
  intros tr tr' H. rewrite TraverseTree_unfold in H.
  destruct (TraverseBody final_column item children (enter item tr)) as [tr1|] eqn:Hb;
    [|discriminate].
  cbn [bind] in H. injection H as <-.
  apply (keeps_trans tr (enter item tr)); [apply keeps_enter|].
  apply (keeps_trans _ tr1); [|apply keeps_same_lines; auto].
  revert Hb. generalize (enter item tr). intros s Hb.
  unfold TraverseBody in Hb. destruct (Type_ item).
  - destruct children; [|discriminate]. eapply keeps_TraverseLine; eauto.
  - eapply (foldM_rel keeps); [apply keeps_refl|apply keeps_trans| |exact Hb].
    intros c Hc x y Hxy. eapply IH; eauto.
  - destruct children as [|front [|second remaining]].
    + injection Hb as <-. apply keeps_refl.
    + eapply IH; [left; reflexivity|exact Hb].
    + destruct (stack_indentation final_column item s) as [d|]; [|discriminate].
      cbn [bind] in Hb.
      destruct (TraverseTree final_column front s) as [s1|] eqn:Hfront; [|discriminate].
      cbn [bind] in Hb.
      apply (keeps_trans s s1); [eapply IH; [left; reflexivity|exact Hfront]|].
      apply (keeps_trans s1 (set_indentation s1 d)); [apply keeps_same_lines; auto|].
      eapply (foldM_rel keeps); [apply keeps_refl|apply keeps_trans| |exact Hb].
      intros c Hc x y Hxy.
      apply (keeps_trans x (set_active x None)).
      * apply keeps_same_lines; auto. intros i _. discriminate.
      * eapply IH; [right; exact Hc|exact Hxy].
Qed.

(** A traversal that returns restores the indentation, removes no line,
    and leaves every line that was there its first token, its indentation
    and its policy; only the line that was active can have changed. *)
Theorem TraverseTree_keeps_lines (final_column : UnwrappedLine -> Z) (t : LayoutTree)
  (tr tr' : TreeReconstructor) :
  TraverseTree final_column t tr = Ok tr' ->
  current_indentation_spaces_ tr' = current_indentation_spaces_ tr
  /\ (length (unwrapped_lines_ tr) <= length (unwrapped_lines_ tr'))%nat
  /\ (forall i l, nth_error (unwrapped_lines_ tr) i = Some l ->
        exists l', nth_error (unwrapped_lines_ tr') i = Some l'
                   /\ tokens_begin l' = tokens_begin l
                   /\ indentation_spaces l' = indentation_spaces l
                   /\ partition_policy l' = partition_policy l
                   /\ (active_unwrapped_line_ tr <> Some i -> l' = l)).
Proof.
  intros H. pose proof (keeps_TraverseTree final_column t tr tr' H) as Hk.
  split; [|split].
  - destruct t as [item children]. rewrite TraverseTree_unfold in H.
    destruct (TraverseBody _ _ _ _); [|discriminate]. cbn [bind] in H.
    injection H as <-. reflexivity.
  - destruct (Nat.le_gt_cases (length (unwrapped_lines_ tr))
                (length (unwrapped_lines_ tr'))) as [|Hlt]; auto. exfalso.
    destruct (nth_error (unwrapped_lines_ tr) (length (unwrapped_lines_ tr')))
      as [l|] eqn:Hl.
    + destruct (Hk _ l Hl) as (l' & Hl' & _).
      assert (length (unwrapped_lines_ tr') < length (unwrapped_lines_ tr'))%nat
        by (apply nth_error_Some; congruence).
      lia.
    + apply nth_error_None in Hl. lia.
  - intros i l Hl. destruct (Hk i l Hl) as (l' & Hl' & (S1 & S2 & S3) & Hp).
    exists l'. repeat split; auto. intros Hn. apply Hp. exact Hn.
Qed.

Lemma TraverseTree_keeps_lines_witness :
  exists tr',
    TraverseTree sample_final_column (indented_juxtaposition 5 empty_stack) one_line_state
    = Ok tr'
    /\ current_indentation_spaces_ tr' = current_indentation_spaces_ one_line_state
    /\ (length (unwrapped_lines_ one_line_state) <= length (unwrapped_lines_ tr'))%nat
    /\ (forall i l, nth_error (unwrapped_lines_ one_line_state) i = Some l ->
          exists l', nth_error (unwrapped_lines_ tr') i = Some l'
                     /\ tokens_begin l' = tokens_begin l
                     /\ indentation_spaces l' = indentation_spaces l
                     /\ partition_policy l' = partition_policy l
                     /\ (active_unwrapped_line_ one_line_state <> Some i -> l' = l)).
Proof.
  eexists. split; [vm_compute; reflexivity|].
  apply (TraverseTree_keeps_lines sample_final_column
           (indented_juxtaposition 5 empty_stack)).
  vm_compute. reflexivity.
Defined.

(** ** When the reconstructor aborts *)

Lemma valid_active_enter (item : LayoutItem) (tr : TreeReconstructor) :
  valid_active tr -> valid_active (enter item tr).
Proof. unfold enter, LOG_IF_WARNING, valid_active. destruct (_ && _); auto. Qed.

Lemma TraverseLine_returns (item : LayoutItem) (tr : TreeReconstructor) :
  valid_active tr ->
  exists tr', TraverseLine item tr = Ok tr' /\ valid_active tr'.
Proof.
  unfold valid_active, TraverseLine. intros Hv.
  destruct (active_unwrapped_line_ tr) as [a|] eqn:Ha.
  - unfold deref. destruct (nth_error (unwrapped_lines_ tr) a) as [l|] eqn:Hl.
    + cbn [bind]. eexists. split; [reflexivity|].
      cbn [set_lines active_unwrapped_line_ unwrapped_lines_]. rewrite Ha, length_update.
      exact Hv.
    + apply nth_error_None in Hl. lia.
  - eexists. split; [reflexivity|].
    cbn [set_active set_lines active_unwrapped_line_ unwrapped_lines_].
    rewrite length_app. simpl. lia.
Qed.

Lemma foldM_returns_or_checks {A} (f : TreeReconstructor -> A -> Outcome TreeReconstructor)
  (good : A -> bool) (cs : list A) :
  (forall c, In c cs -> forall tr, valid_active tr ->
     if good c then exists tr', f tr c = Ok tr' /\ valid_active tr'
     else f tr c = Fail CheckFailed) ->
  forall tr, valid_active tr ->
    if forallb good cs
    then exists tr', foldM f cs tr = Ok tr' /\ valid_active tr'
    else foldM f cs tr = Fail CheckFailed.
Proof.
  induction cs as [|c cs IH]; intros Hstep tr Hv; simpl.
  - exists tr. auto.
  - pose proof (Hstep c (or_introl eq_refl) tr Hv) as Hc.
    destruct (good c); cbn [andb].
    + destruct Hc as (tr1 & -> & Hv1). cbn [bind].
      apply IH; auto. intros x Hx. apply Hstep. right. exact Hx.
    + rewrite Hc. reflexivity.
Qed.

Lemma TraverseTree_returns_or_checks (final_column : UnwrappedLine -> Z) (t : LayoutTree) :
  returns_or_checks final_column t.
Proof.
  induction t as [item children IH] using VectorTree_ind'.
  rewrite Forall_forall in IH.
  intros tr Hv. rewrite TraverseTree_unfold.
  apply (valid_active_enter item) in Hv. revert Hv. generalize (enter item tr) as s.
  intros s Hv.
  assert (Hbody : if line_leaves (Node item children)
                  then exists tr1, TraverseBody final_column item children s = Ok tr1
                                   /\ valid_active tr1
                  else TraverseBody final_column item children s = Fail CheckFailed).
  { cbn [line_leaves]. unfold TraverseBody. destruct (Type_ item) eqn:Ht; cbn [LayoutType_eqb negb orb].
    - destruct children as [|c cs]; cbn [andb forallb].
      + apply TraverseLine_returns. exact Hv.
      + reflexivity.
    - apply (foldM_returns_or_checks
               (fun tr child => TraverseTree final_column child tr) line_leaves); auto.
    - destruct children as [|front [|second remaining]].
      + exists s. auto.
      + cbn [forallb]. rewrite andb_true_r. apply (IH front); [left; reflexivity|exact Hv].
      + assert (Hind : exists d, stack_indentation final_column item s = Ok d).
        { unfold stack_indentation. unfold valid_active in Hv.
          destruct (active_unwrapped_line_ s) as [a|]; [|eexists; reflexivity].
          unfold deref. destruct (nth_error (unwrapped_lines_ s) a) eqn:Hl.
          - eexists. reflexivity.
          - apply nth_error_None in Hl. lia. }
        destruct Hind as (d & ->). cbn [bind].
        cbn [forallb].
        pose proof (IH front (or_introl eq_refl) s Hv) as Hfront.
        destruct (line_leaves front); cbn [andb].
        * destruct Hfront as (s1 & -> & Hv1). cbn [bind].
          apply (foldM_returns_or_checks
                   (fun tr child => TraverseTree final_column child (set_active tr None))
                   line_leaves (second :: remaining)); auto.
          intros c Hc x Hx. apply (IH c); [right; exact Hc|exact I].
        * rewrite Hfront. reflexivity. }
  destruct (line_leaves (Node item children)).
  - destruct Hbody as (tr1 & -> & Hv1). cbn [bind]. eexists. split; [reflexivity|exact Hv1].
  - rewrite Hbody. reflexivity.
Qed.

(** From a state whose active line exists, the traversal of a layout
    returns exactly when every line node of the layout is a leaf; a line
    node with children stops it at the failed [CHECK]. *)
Theorem TraverseTree_aborts_on_inner_lines (final_column : UnwrappedLine -> Z)
  (t : LayoutTree) (tr : TreeReconstructor) :
  valid_active tr ->
  (line_leaves t = true ->
   exists tr', TraverseTree final_column t tr = Ok tr' /\ valid_active tr')
  /\ (line_leaves t = false -> TraverseTree final_column t tr = Fail CheckFailed).
Proof.
  intros Hv. pose proof (TraverseTree_returns_or_checks final_column t tr Hv) as H.
  destruct (line_leaves t); split; intros E; try discriminate; exact H.
Qed.

Lemma TraverseTree_aborts_on_inner_lines_witness :
  (exists tr', TraverseTree sample_final_column (indented_juxtaposition 5 empty_stack)
                 one_line_state = Ok tr' /\ valid_active tr')
  /\ TraverseTree sample_final_column
       (Node (mkLayoutItem kStack 0 false)
             [line_layout 0 1; Node (mkLayoutItem kLine 0 false) [line_layout 1 2]])
       one_line_state = Fail CheckFailed.
Proof.
  split.
  - apply (TraverseTree_aborts_on_inner_lines sample_final_column
             (indented_juxtaposition 5 empty_stack) one_line_state); [unfold valid_active, one_line_state; simpl; lia|reflexivity].
  - apply (TraverseTree_aborts_on_inner_lines sample_final_column _ one_line_state);
      [unfold valid_active, one_line_state; simpl; lia|reflexivity].
Defined.

(** ** Stacks and juxtapositions of lines *)

Lemma TraverseTree_line_start (final_column : UnwrappedLine -> Z) (item : LayoutItem)
  (tr : TreeReconstructor) :
  Type_ item = kLine -> active_unwrapped_line_ tr = None ->
  TraverseTree final_column (Node item []) tr
  = Ok {| unwrapped_lines_ :=
            unwrapped_lines_ tr ++ [emitted (current_indentation_spaces_ tr) item];
          active_unwrapped_line_ := Some (length (unwrapped_lines_ tr));
          current_indentation_spaces_ := current_indentation_spaces_ tr;
          warnings_ := warnings_ tr |}.
Proof.
  intros Ht Ha. rewrite TraverseTree_unfold. unfold TraverseBody. rewrite Ht.
  destruct tr as [ls act cur w]. cbn in Ha. subst act.
  unfold enter, LOG_IF_WARNING, TraverseLine. cbn. rewrite andb_false_r. reflexivity.
Qed.

Lemma TraverseTree_line_append (final_column : UnwrappedLine -> Z) (item : LayoutItem)
  (tr : TreeReconstructor) (a : nat) (l : UnwrappedLine) :
  Type_ item = kLine -> active_unwrapped_line_ tr = Some a ->
  nth_error (unwrapped_lines_ tr) a = Some l ->
  TraverseTree final_column (Node item []) tr
  = Ok {| unwrapped_lines_ :=
            update (unwrapped_lines_ tr) a (SpanUpToToken l (item_tokens_end item));
          active_unwrapped_line_ := Some a;
          current_indentation_spaces_ := current_indentation_spaces_ tr;
          warnings_ := if 0 <? IndentationSpaces item
                       then S (warnings_ tr) else warnings_ tr |}.
Proof.
  intros Ht Ha Hl. rewrite TraverseTree_unfold. unfold TraverseBody. rewrite Ht.
  destruct tr as [ls act cur w]. cbn in Ha, Hl. subst act.
  unfold enter, LOG_IF_WARNING, TraverseLine, deref. cbn. rewrite andb_true_r.
  destruct (0 <? IndentationSpaces item); cbn; rewrite Hl; reflexivity.
Qed.

Lemma stacked_lines (final_column : UnwrappedLine -> Z) (items : list LayoutItem) :
  Forall (fun item => Type_ item = kLine) items ->
  forall tr,
    foldM (fun tr child => TraverseTree final_column child (set_active tr None))
          (map (fun item => Node item []) items) tr
    = Ok {| unwrapped_lines_ :=
              unwrapped_lines_ tr
              ++ map (emitted (current_indentation_spaces_ tr)) items;
            active_unwrapped_line_ :=
              match items with
              | [] => active_unwrapped_line_ tr
              | _ => Some (length (unwrapped_lines_ tr) + length items - 1)%nat
              end;
            current_indentation_spaces_ := current_indentation_spaces_ tr;
            warnings_ := warnings_ tr |}.
Proof.
  induction 1 as [|item items Ht Hall IH]; intros tr.
  - simpl. rewrite app_nil_r. destruct tr; reflexivity.
  - cbn [map foldM].
    rewrite (TraverseTree_line_start final_column item (set_active tr None) Ht eq_refl).
    cbn [bind]. rewrite IH.
    cbn [unwrapped_lines_ active_unwrapped_line_ current_indentation_spaces_ warnings_
         set_active].
    rewrite <- app_assoc. cbn [app].
    assert (E : match items with
                | [] => Some (length (unwrapped_lines_ tr))
                | _ :: _ =>
                    Some (length (unwrapped_lines_ tr
                                  ++ [emitted (current_indentation_spaces_ tr) item])
                          + length items - 1)%nat
                end
                = Some (length (unwrapped_lines_ tr) + length (item :: items) - 1)%nat).
    { rewrite length_app. cbn [length]. destruct items; f_equal; cbn [length]; lia. }
    rewrite E. reflexivity.
Qed.

Lemma enter_idle (item : LayoutItem) (ls : list UnwrappedLine) (cur : Z) (w : nat) :
  enter item {| unwrapped_lines_ := ls; active_unwrapped_line_ := None;
                current_indentation_spaces_ := cur; warnings_ := w |}
  = {| unwrapped_lines_ := ls; active_unwrapped_line_ := None;
       current_indentation_spaces_ := cur + IndentationSpaces item;
       warnings_ := w |}.
Proof. unfold enter, LOG_IF_WARNING. cbn. rewrite andb_false_r. reflexivity. Qed.

(** A stack of two or more lines: the first starts a line, and every
    other one starts a line below it. *)
Lemma stack_of_several_lines (final_column : UnwrappedLine -> Z)
  (stack front second : LayoutItem) (rest : list LayoutItem)
  (ls : list UnwrappedLine) (cur : Z) (w : nat) :
  Type_ stack = kStack ->
  Forall (fun item => Type_ item = kLine) (front :: second :: rest) ->
  TraverseTree final_column
    (Node stack (map (fun item => Node item []) (front :: second :: rest)))
    {| unwrapped_lines_ := ls; active_unwrapped_line_ := None;
       current_indentation_spaces_ := cur; warnings_ := w |}
  = Ok {| unwrapped_lines_ :=
            ls ++ map (emitted (cur + IndentationSpaces stack))
                      (front :: second :: rest);
          active_unwrapped_line_ := Some (length ls + S (S (length rest)) - 1)%nat;
          current_indentation_spaces_ := cur;
          warnings_ := w |}.
Proof.
  intros Ht Hall. rewrite TraverseTree_unfold. unfold TraverseBody. rewrite Ht.
  cbn [unwrapped_lines_ current_indentation_spaces_ warnings_].
  rewrite enter_idle. set (s := {| unwrapped_lines_ := ls |}).
  inversion Hall as [|? ? Hf Hrest]; subst.
  change (map (fun item => Node item []) (front :: second :: rest))
    with (Node front [] :: map (fun item => Node item []) (second :: rest)).
  destruct (map (fun item => Node item []) (second :: rest)) as [|c cs] eqn:Hm;
    [discriminate|].
  unfold stack_indentation. cbn [active_unwrapped_line_ s bind].
  rewrite (TraverseTree_line_start final_column front s Hf eq_refl). cbn [bind].
  rewrite <- Hm. rewrite (stacked_lines final_column (second :: rest) Hrest).
  cbn [bind set_indentation unwrapped_lines_ active_unwrapped_line_
       current_indentation_spaces_ warnings_ s].
  rewrite <- app_assoc. cbn [app map]. unfold set_indentation.
  cbn [unwrapped_lines_ active_unwrapped_line_ warnings_].
  rewrite length_app. cbn [length].
  replace (length ls + 1 + S (length rest) - 1)%nat
    with (length ls + S (S (length rest)) - 1)%nat by lia.
  reflexivity.
Qed.

(** From a state with no active line, a stack of line items appends one
    flat line per item, in order, each at the current indentation plus
    those of the stack and of the item and marked as formatted; the last
    one is left active, and no warning is given. *)
Theorem TraverseTree_stack_of_lines (final_column : UnwrappedLine -> Z)
  (stack : LayoutItem) (items : list LayoutItem) (tr : TreeReconstructor) :
  Type_ stack = kStack ->
  Forall (fun item => Type_ item = kLine) items ->
  active_unwrapped_line_ tr = None ->
  TraverseTree final_column (Node stack (map (fun item => Node item []) items)) tr
  = Ok {| unwrapped_lines_ :=
            unwrapped_lines_ tr
            ++ map (emitted (current_indentation_spaces_ tr + IndentationSpaces stack))
                   items;
          active_unwrapped_line_ :=
            match items with
            | [] => None
            | _ => Some (length (unwrapped_lines_ tr) + length items - 1)%nat
            end;
          current_indentation_spaces_ := current_indentation_spaces_ tr;
          warnings_ := warnings_ tr |}.
Proof.
  intros Ht Hall Ha.
  destruct tr as [ls act cur w]. cbn in Ha. subst act.
  cbn [unwrapped_lines_ current_indentation_spaces_ warnings_].
  destruct items as [|front [|second rest]].
  - rewrite TraverseTree_unfold. unfold TraverseBody. rewrite Ht.
    cbn [unwrapped_lines_ current_indentation_spaces_ warnings_].
    rewrite enter_idle. cbn. rewrite app_nil_r. reflexivity.
  - rewrite TraverseTree_unfold. unfold TraverseBody. rewrite Ht.
    cbn [unwrapped_lines_ current_indentation_spaces_ warnings_].
    rewrite enter_idle. set (s := {| unwrapped_lines_ := ls |}).
    cbn [map]. inversion Hall as [|? ? Hf _]; subst.
    rewrite (TraverseTree_line_start final_column front s Hf eq_refl). cbn.
    rewrite Nat.add_sub. reflexivity.
  - apply stack_of_several_lines; assumption.
Qed.

Lemma TraverseTree_stack_of_lines_witness :
  TraverseTree sample_final_column
    (Node (SetItemIndentation (mkLayoutItem kStack 0 false) 3)
          (map (fun item => Node item [])
               [LayoutItem_of_line sample_tokens (sample_line 0 4);
                LayoutItem_of_line sample_tokens (sample_line 4 5);
                LayoutItem_of_line sample_tokens (sample_line 5 7)]))
    (mkTreeReconstructor 2)
  = Ok {| unwrapped_lines_ :=
            [SetPartitionPolicy (SetIndentationSpaces (sample_line 0 4) 5)
                                kAlreadyFormatted;
             SetPartitionPolicy (SetIndentationSpaces (sample_line 4 5) 5)
                                kAlreadyFormatted;
             SetPartitionPolicy (SetIndentationSpaces (sample_line 5 7) 5)
                                kAlreadyFormatted];
          active_unwrapped_line_ := Some 2%nat;
          current_indentation_spaces_ := 2;
          warnings_ := 0 |}.
Proof.
  apply (TraverseTree_stack_of_lines sample_final_column
           (SetItemIndentation (mkLayoutItem kStack 0 false) 3)
           [LayoutItem_of_line sample_tokens (sample_line 0 4);
            LayoutItem_of_line sample_tokens (sample_line 4 5);
            LayoutItem_of_line sample_tokens (sample_line 5 7)]
           (mkTreeReconstructor 2)).
  - reflexivity.
  - repeat constructor.
  - reflexivity.
Defined.

Lemma update_same {A} (l : list A) (i : nat) (x : A) :
  nth_error l i = Some x -> update l i x = l.
Proof.
  revert i. induction l as [|a l IH]; intros [|i] H; simpl in *; try discriminate.
  - congruence.
  - rewrite IH; auto.
Qed.

Lemma update_update {A} (l : list A) (i : nat) (x y : A) :
  update (update l i x) i y = update l i y.
Proof.
  revert i. induction l as [|a l IH]; intros [|i]; simpl; auto. rewrite IH. reflexivity.
Qed.

Lemma update_app_last {A} (l : list A) (x y : A) :
  update (l ++ [x]) (length l) y = l ++ [y].
Proof. induction l as [|a l IH]; simpl; auto. rewrite IH. reflexivity. Qed.

Lemma nth_error_update_same {A} (l : list A) (i : nat) (x a : A) :
  nth_error l i = Some a -> nth_error (update l i x) i = Some x.
Proof.
  intros H. rewrite nth_error_update, Nat.eqb_refl, H. reflexivity.
Qed.

Lemma last_cons_default {A} (l : list A) (x d : A) : last (x :: l) d = last l x.
Proof.
  revert x d. induction l as [|y l IH]; intros x d; [reflexivity|].
  change (last (x :: y :: l) d) with (last (y :: l) d). rewrite !IH. reflexivity.
Qed.

Lemma appended_lines (final_column : UnwrappedLine -> Z) (rest : list LayoutItem) :
  Forall (fun item => Type_ item = kLine) rest ->
  forall tr a l,
    active_unwrapped_line_ tr = Some a ->
    nth_error (unwrapped_lines_ tr) a = Some l ->
    foldM (fun tr child => TraverseTree final_column child tr)
          (map (fun item => Node item []) rest) tr
    = Ok {| unwrapped_lines_ :=
              update (unwrapped_lines_ tr) a
                     (SpanUpToToken l (last (map item_tokens_end rest) (tokens_end l)));
            active_unwrapped_line_ := Some a;
            current_indentation_spaces_ := current_indentation_spaces_ tr;
            warnings_ := (warnings_ tr + indented_items rest)%nat |}.
Proof.
  induction 1 as [|item rest Ht Hall IH]; intros tr a l Ha Hl.
  - cbn [map foldM last]. unfold indented_items. cbn [filter length].
    rewrite Nat.add_0_r.
    replace (SpanUpToToken l (tokens_end l)) with l by (destruct l; reflexivity).
    rewrite (update_same _ _ _ Hl). destruct tr. cbn in *. subst. reflexivity.
  - cbn [map foldM].
    rewrite (TraverseTree_line_append final_column item tr a l Ht Ha Hl). cbn [bind].
    rewrite (IH _ a (SpanUpToToken l (item_tokens_end item))).
    + cbn [unwrapped_lines_ current_indentation_spaces_ warnings_ SpanUpToToken tokens_end
           indentation_spaces tokens_begin partition_policy].
      rewrite update_update. cbn [map]. rewrite last_cons_default.
      replace (warnings_ tr + indented_items (item :: rest))%nat
        with ((if (0 <? IndentationSpaces item)%Z then S (warnings_ tr) else warnings_ tr)
              + indented_items rest)%nat; [reflexivity|].
      unfold indented_items. cbn [filter].
      destruct (0 <? IndentationSpaces item); cbn [length]; lia.
    + reflexivity.
    + cbn [unwrapped_lines_]. eapply nth_error_update_same. exact Hl.
Qed.

(** From a state with no active line, a juxtaposition of line items
    appends a single flat line, which starts as the line of the first item
    and ends at the last token of the last item, and leaves it active;
    every further item with a positive indentation gives one warning. *)
Theorem TraverseTree_juxtaposition_of_lines (final_column : UnwrappedLine -> Z)
  (juxtaposition : LayoutItem) (first : LayoutItem) (rest : list LayoutItem)
  (tr : TreeReconstructor) :
  Type_ juxtaposition = kJuxtaposition ->
  Forall (fun item => Type_ item = kLine) (first :: rest) ->
  active_unwrapped_line_ tr = None ->
  TraverseTree final_column
    (Node juxtaposition (map (fun item => Node item []) (first :: rest))) tr
  = Ok {| unwrapped_lines_ :=
            unwrapped_lines_ tr
            ++ [SpanUpToToken
                  (emitted (current_indentation_spaces_ tr
                            + IndentationSpaces juxtaposition) first)
                  (last (map item_tokens_end rest) (item_tokens_end first))];
          active_unwrapped_line_ := Some (length (unwrapped_lines_ tr));
          current_indentation_spaces_ := current_indentation_spaces_ tr;
          warnings_ := (warnings_ tr + indented_items rest)%nat |}.
Proof.
  intros Ht Hall Ha. rewrite TraverseTree_unfold. unfold TraverseBody. rewrite Ht.
  destruct tr as [ls act cur w]. cbn in Ha. subst act.
  cbn [unwrapped_lines_ current_indentation_spaces_ warnings_].
  assert (He : enter juxtaposition
                 {| unwrapped_lines_ := ls; active_unwrapped_line_ := None;
                    current_indentation_spaces_ := cur; warnings_ := w |}
               = {| unwrapped_lines_ := ls; active_unwrapped_line_ := None;
                    current_indentation_spaces_ := cur + IndentationSpaces juxtaposition;
                    warnings_ := w |}).
  { unfold enter, LOG_IF_WARNING. cbn. rewrite andb_false_r. reflexivity. }
  rewrite He. set (s := {| unwrapped_lines_ := ls |}).
  inversion Hall as [|? ? Hf Hrest]; subst.
  cbn [map foldM].
  rewrite (TraverseTree_line_start final_column first s Hf eq_refl). cbn [bind].
  cbn [unwrapped_lines_ current_indentation_spaces_ warnings_ s].
  set (s1 := {| unwrapped_lines_ := ls ++ _ |}).
  rewrite (appended_lines final_column rest Hrest s1 (length ls)
             (emitted (cur + IndentationSpaces juxtaposition) first) eq_refl).
  - cbn [bind unwrapped_lines_ current_indentation_spaces_ warnings_ set_indentation
         active_unwrapped_line_ s1].
    rewrite update_app_last. reflexivity.
  - cbn [unwrapped_lines_ s1]. rewrite nth_error_app2, Nat.sub_diag by lia. reflexivity.
Qed.

Lemma TraverseTree_juxtaposition_of_lines_witness :
  TraverseTree sample_final_column
    (Node (mkLayoutItem kJuxtaposition 0 false)
          (map (fun item => Node item [])
               [LayoutItem_of_line sample_tokens (sample_line 0 2);
                SetItemIndentation (LayoutItem_of_line sample_tokens (sample_line 2 3)) 4;
                LayoutItem_of_line sample_tokens (sample_line 3 4)]))
    (mkTreeReconstructor 2)
  = Ok {| unwrapped_lines_ :=
            [SetPartitionPolicy (SetIndentationSpaces (sample_line 0 4) 2)
                                kAlreadyFormatted];
          active_unwrapped_line_ := Some 0%nat;
          current_indentation_spaces_ := 2;
          warnings_ := 1 |}.
Proof.
  apply (TraverseTree_juxtaposition_of_lines sample_final_column
           (mkLayoutItem kJuxtaposition 0 false)
           (LayoutItem_of_line sample_tokens (sample_line 0 2))
           [SetItemIndentation (LayoutItem_of_line sample_tokens (sample_line 2 3)) 4;
            LayoutItem_of_line sample_tokens (sample_line 3 4)]
           (mkTreeReconstructor 2)).
  - reflexivity.
  - repeat constructor.
  - reflexivity.
Defined.

(** ** What the replacement leaves alone *)

Lemma line_effect_text (line : UnwrappedLine) (j : nat) (tok : PreFormatToken) :
  text_length (line_effect line j tok) = text_length tok.
Proof.
  unfold line_effect. destruct (IsEmpty line); [reflexivity|].
  destruct (j =? tokens_begin line)%nat; [reflexivity|].
  destruct (_ && _); reflexivity.
Qed.

Lemma lines_effect_text (lines : list UnwrappedLine) (j : nat) :
  forall tok,
    text_length (fold_left (fun t line => line_effect line j t) lines tok)
    = text_length tok.
Proof.
  induction lines as [|l lines IH]; intros tok; simpl; [reflexivity|].
  rewrite IH. apply line_effect_text.
Qed.

Lemma list_eq_nth_error {A} (l l' : list A) :
  (forall j, nth_error l j = nth_error l' j) -> l = l'.
Proof.
  revert l'. induction l as [|a l IH]; intros [|b l'] H.
  - reflexivity.
  - specialize (H 0%nat). discriminate.
  - specialize (H 0%nat). discriminate.
  - pose proof (H 0%nat) as H0. simpl in H0. injection H0 as ->. f_equal.
    apply IH. intros j. apply (H (S j)).
Qed.

Lemma Replace_tokens_nth (tr : TreeReconstructor) (node node' : TokenPartitionTree)
  (ftokens ftokens' : list PreFormatToken) :
  ReplaceTokenPartitionTreeNode tr node ftokens = Ok (node', ftokens') ->
  forall j,
    nth_error ftokens' j
    = option_map (fun tok => fold_left (fun t line => line_effect line j t)
                                       (unwrapped_lines_ tr) tok)
                 (nth_error ftokens j).
Proof.
  intros H j. apply Replace_eq in H. destruct H as (first_line & value & _ & Hr & _).
  assert (Htok : ftokens' = snd (fold_left Replace_step (unwrapped_lines_ tr)
                                           (Node value [], ftokens)))
    by (rewrite <- Hr; reflexivity).
  rewrite Htok. apply Replace_step_tokens.
Qed.

Lemma mapped_length {A} (f : nat -> A -> A) (l l' : list A) :
  (forall j, nth_error l' j = option_map (f j) (nth_error l j)) ->
  length l' = length l.
Proof.
  intros Hnth.
  destruct (Nat.lt_trichotomy (length l') (length l)) as [Hlt|[E|Hgt]]; auto.
  - exfalso. pose proof (Hnth (length l')) as Hj.
    destruct (nth_error l (length l')) eqn:E1.
    + cbn in Hj.
      assert (length l' < length l')%nat
        by (apply nth_error_Some; rewrite Hj; discriminate).
      lia.
    + apply nth_error_None in E1. lia.
  - exfalso. pose proof (Hnth (length l)) as Hj.
    rewrite (proj2 (nth_error_None l (length l)) (le_n _)) in Hj.
    cbn in Hj. apply nth_error_None in Hj. lia.
Qed.

Lemma Replace_tokens_text (tr : TreeReconstructor) (node node' : TokenPartitionTree)
  (ftokens ftokens' : list PreFormatToken) :
  ReplaceTokenPartitionTreeNode tr node ftokens = Ok (node', ftokens') ->
  length ftokens' = length ftokens
  /\ map text_length ftokens' = map text_length ftokens.
Proof.
  intros H. pose proof (Replace_tokens_nth tr node node' ftokens ftokens' H) as Hnth.
  split.
  - exact (mapped_length _ ftokens ftokens' Hnth).
  - apply list_eq_nth_error. intros j. rewrite !nth_error_map, Hnth.
    destruct (nth_error ftokens j); [|reflexivity]. cbn [option_map].
    rewrite lines_effect_text. reflexivity.
Qed.

(** The replaced node spans from the first token of the first line to the
    last token of the last line, at the current indentation; the token
    vector keeps its length and the text lengths of its tokens, and a
    token outside all the lines is not changed. *)
Theorem Replace_keeps_tokens (tr : TreeReconstructor) (node node' : TokenPartitionTree)
  (ftokens ftokens' : list PreFormatToken) :
  ReplaceTokenPartitionTreeNode tr node ftokens = Ok (node', ftokens') ->
  (exists first_line,
      hd_error (unwrapped_lines_ tr) = Some first_line
      /\ tokens_begin (Value node') = tokens_begin first_line
      /\ tokens_end (Value node')
         = tokens_end (last (unwrapped_lines_ tr) first_line))
  /\ indentation_spaces (Value node') = current_indentation_spaces_ tr
  /\ length ftokens' = length ftokens
  /\ map text_length ftokens' = map text_length ftokens
  /\ (forall j,
        Forall (fun l => (tokens_begin l <= tokens_end l)%nat
                         /\ (j < tokens_begin l \/ tokens_end l <= j)%nat)
               (unwrapped_lines_ tr) ->
        nth_error ftokens' j = nth_error ftokens j).
Proof.
  intros H.
  pose proof (Replace_tokens_nth tr node node' ftokens ftokens' H) as Hnth.
  destruct (Replace_tokens_text tr node node' ftokens ftokens' H) as (Hlen & Htext).
  apply Replace_eq in H.
  destruct H as (first_line & value & Hhd & Hr & _ & Hind & Hb & He).
  assert (Hnode : node' = fst (fold_left Replace_step (unwrapped_lines_ tr)
                                         (Node value [], ftokens)))
    by (rewrite <- Hr; reflexivity).
  rewrite Replace_step_node in Hnode.
  split; [|split; [|split; [|split]]].
  - exists first_line. subst node'. cbn [Value]. auto.
  - subst node'. cbn [Value]. exact Hind.
  - exact Hlen.
  - exact Htext.
  - intros j Hout. rewrite Hnth. destruct (nth_error ftokens j); [|reflexivity].
    cbn [option_map]. rewrite lines_effect_outside; auto.
Qed.

Lemma Replace_keeps_tokens_witness :
  exists node' ftokens',
    ReplaceTokenPartitionTreeNode
      {| unwrapped_lines_ := [sample_line 1 3; sample_line 3 5];
         active_unwrapped_line_ := Some 1%nat;
         current_indentation_spaces_ := 6; warnings_ := 0 |}
      (Node (mkUnwrappedLine 0 0) [Node (mkUnwrappedLine 0 0) []]) sample_tokens
    = Ok (node', ftokens')
    /\ Value node' = SetPartitionPolicy (SetIndentationSpaces (sample_line 1 5) 6)
                                        kOptimalFunctionCallLayout
    /\ map (fun t => break_decision (before t)) ftokens'
       = [Undecided; MustWrap; MustAppend; MustWrap; MustAppend; Undecided; Undecided]
    /\ length ftokens' = length sample_tokens
    /\ map text_length ftokens' = map text_length sample_tokens
    /\ nth_error ftokens' 0 = nth_error sample_tokens 0
    /\ nth_error ftokens' 5 = nth_error sample_tokens 5.
Proof.
  pose (tr := {| unwrapped_lines_ := [sample_line 1 3; sample_line 3 5];
                 active_unwrapped_line_ := Some 1%nat;
                 current_indentation_spaces_ := 6; warnings_ := 0 |}).
  pose (node := Node (mkUnwrappedLine 0 0) [Node (mkUnwrappedLine 0 0) []]
                : TokenPartitionTree).
  destruct (ReplaceTokenPartitionTreeNode tr node sample_tokens) as [[node' ftokens']|]
    eqn:H; [|vm_compute in H; discriminate].
  exists node', ftokens'. split; [exact H|].
  destruct (Replace_keeps_tokens tr node node' sample_tokens ftokens' H)
    as (_ & _ & Hlen & Htext & Hout).
  assert (E : Ok (node', ftokens') = ReplaceTokenPartitionTreeNode tr node sample_tokens)
    by (symmetry; exact H).
  vm_compute in E. injection E as En Et.
  split; [rewrite En; reflexivity|]. split; [rewrite Et; reflexivity|].
  split; [exact Hlen|]. split; [exact Htext|].
  split; apply Hout; repeat constructor; simpl; lia.
Defined.

(** ** The optimizer on a leaf *)

Lemma Line_knots_nonnegative (style : BasicFormatStyle) (ftokens : list PreFormatToken)
  (uwline : UnwrappedLine) (s : LayoutFunctionSegment) :
  In s (Line style ftokens uwline) -> 0 <= column s.
Proof.
  unfold Line. destruct (_ <? _) eqn:E.
  - apply Z.ltb_lt in E. intros [<-|[<-|[]]]; cbn [column]; lia.
  - intros [<-|[]]; cbn [column]; lia.
Qed.

(** The optimizer turns a leaf with an indentation that is not negative
    into a node with the same span and indentation and one child, the
    line itself marked as formatted, and formats the tokens of the line
    when there are some; on a negative indentation it stops at a failed
    [CHECK]. *)
Theorem Optimize_leaf (style : BasicFormatStyle) (ftokens : list PreFormatToken)
  (Wrap : list LayoutFunction -> Outcome LayoutFunction)
  (LayoutFunction_MustWrap : LayoutFunction -> Outcome bool)
  (final_column : UnwrappedLine -> Z) (value : UnwrappedLine) :
  (0 <= indentation_spaces value ->
   OptimizeTokenPartitionTree style ftokens Wrap LayoutFunction_MustWrap final_column
     (Node value [])
   = Ok (Node (with_policy value kOptimalFunctionCallLayout)
              [Node (with_policy value kAlreadyFormatted) []],
         if IsEmpty value then ftokens else format_line ftokens value))
  /\ (indentation_spaces value < 0 ->
      OptimizeTokenPartitionTree style ftokens Wrap LayoutFunction_MustWrap final_column
        (Node value [])
      = Fail CheckFailed).
Proof.
  unfold OptimizeTokenPartitionTree. cbn [Driver_TraverseTree is_leaf Children Value bind].
  assert (Hne : empty (Line style ftokens value) = false).
  { unfold Line. destruct (_ <? _); reflexivity. }
  rewrite Hne. cbn [negb].
  destruct (Line_shape style ftokens value) as [Hz Hs].
  split; intros Hind.
  - destruct (AtOrToTheLeftOf_defined _ _ Hz Hs Hind) as (i & Hi & s & Hn & _).
    rewrite Hi. cbn [bind].
    assert (Hlt : (i < length (Line style ftokens value))%nat)
      by (apply nth_error_Some; congruence).
    unfold IsEnd. replace (length (Line style ftokens value) <=? i)%nat with false
      by (symmetry; apply Nat.leb_gt; exact Hlt).
    cbn [negb]. unfold deref. rewrite Hn. cbn [bind].
    rewrite (Line_layouts style ftokens value s (nth_error_In _ _ Hn)).
    rewrite (TraverseTree_line_start final_column (LayoutItem_of_line ftokens value)
               (mkTreeReconstructor (indentation_spaces value)) eq_refl eq_refl).
    cbn [bind].
    unfold ReplaceTokenPartitionTreeNode, emitted.
    cbn [unwrapped_lines_ mkTreeReconstructor app current_indentation_spaces_ last
         fold_left Replace_step LayoutItem_of_line IndentationSpaces].
    rewrite Z.add_0_r.
    unfold IsEmpty, format_line, with_policy. cbn.
    destruct (tokens_begin value =? tokens_end value)%nat; reflexivity.
  - assert (Hall : forall s, In s (Line style ftokens value)
                             -> indentation_spaces value < column s).
    { intros s Hin. pose proof (Line_knots_nonnegative style ftokens value s Hin). lia. }
    unfold AtOrToTheLeftOf.
    destruct (Line style ftokens value) as [|s rest]; [discriminate|].
    rewrite lower_bound_all_right by exact Hall. reflexivity.
Qed.

Lemma Optimize_leaf_witness :
  OptimizeTokenPartitionTree test_style sample_tokens sample_Wrap sample_MustWrap
    sample_final_column (Node (SetIndentationSpaces (sample_line 0 4) 2) [])
  = Ok (Node (with_policy (SetIndentationSpaces (sample_line 0 4) 2)
                          kOptimalFunctionCallLayout)
             [Node (with_policy (SetIndentationSpaces (sample_line 0 4) 2)
                                kAlreadyFormatted) []],
        if IsEmpty (SetIndentationSpaces (sample_line 0 4) 2) then sample_tokens
        else format_line sample_tokens (SetIndentationSpaces (sample_line 0 4) 2))
  /\ OptimizeTokenPartitionTree test_style sample_tokens sample_Wrap sample_MustWrap
       sample_final_column (Node (SetIndentationSpaces (sample_line 0 4) (-1)) [])
     = Fail CheckFailed.
Proof.
  split.
  - apply (proj1 (Optimize_leaf test_style sample_tokens sample_Wrap sample_MustWrap
                    sample_final_column (SetIndentationSpaces (sample_line 0 4) 2))).
    simpl. lia.
  - apply (proj2 (Optimize_leaf test_style sample_tokens sample_Wrap sample_MustWrap
                    sample_final_column (SetIndentationSpaces (sample_line 0 4) (-1)))).
    simpl. lia.
Defined.

(** ** The flat lines cover the tokens of the layout *)

Lemma chain_app (b : nat) (l1 l2 : list (nat * nat)) :
  chain b (l1 ++ l2) = chain b l1 && chain (chain_end b l1) l2.
Proof.
  revert b. induction l1 as [|r l1 IH]; intros b; [reflexivity|].
  cbn [app chain]. rewrite IH. unfold chain_end. cbn [fold_left].
  rewrite andb_assoc. reflexivity.
Qed.

Lemma chain_end_app (b : nat) (l1 l2 : list (nat * nat)) :
  chain_end b (l1 ++ l2) = chain_end (chain_end b l1) l2.
Proof. unfold chain_end. apply fold_left_app. Qed.

Lemma lines_in_order_app (l1 l2 : list UnwrappedLine) :
  lines_in_order (l1 ++ l2)
  = lines_in_order l1 && lines_in_order l2
    && forallb (fun a => forallb (fun b => (tokens_end a <=? tokens_begin b)%nat) l2) l1.
Proof.
  induction l1 as [|a l1 IH]; cbn [app lines_in_order forallb].
  - rewrite andb_true_r. reflexivity.
  - rewrite IH, forallb_app.
    generalize (tokens_begin a <=? tokens_end a)%nat
               (forallb (fun l' => (tokens_end a <=? tokens_begin l')%nat) l1)
               (forallb (fun l' => (tokens_end a <=? tokens_begin l')%nat) l2)
               (lines_in_order l1) (lines_in_order l2)
               (forallb (fun a0 => forallb (fun b => (tokens_end a0 <=? tokens_begin b)%nat)
                                           l2) l1).
    intros [] [] [] [] [] []; reflexivity.
Qed.

Lemma last_error_split {A} (l : list A) (x : A) :
  last_error l = Some x -> exists init, l = init ++ [x].
Proof.
  intros H. destruct (exists_last (l := l)) as (init & y & ->).
  - intros ->. discriminate.
  - rewrite last_error_snoc in H. injection H as ->. exists init. reflexivity.
Qed.

(** In a sequence of lines in order, no line ends after the last one. *)
Lemma ends_before_last (init : list UnwrappedLine) (l : UnwrappedLine) :
  lines_in_order (init ++ [l]) = true ->
  lines_in_order init = true
  /\ (tokens_begin l <= tokens_end l)%nat
  /\ Forall (fun a => (tokens_end a <= tokens_begin l)%nat) init.
Proof.
  rewrite lines_in_order_app. intros H.
  apply andb_true_iff in H. destruct H as [H H3].
  apply andb_true_iff in H. destruct H as [H1 H2].
  cbn [lines_in_order forallb] in H2. rewrite !andb_true_r in H2.
  split; [exact H1|]. split; [apply Nat.leb_le; exact H2|].
  apply Forall_forall. intros a Ha. rewrite forallb_forall in H3.
  specialize (H3 a Ha). cbn [forallb] in H3. rewrite andb_true_r in H3.
  apply Nat.leb_le. exact H3.
Qed.

Lemma lines_in_order_snoc (init : list UnwrappedLine) (l : UnwrappedLine) :
  lines_in_order init = true ->
  (tokens_begin l <= tokens_end l)%nat ->
  Forall (fun a => (tokens_end a <= tokens_begin l)%nat) init ->
  lines_in_order (init ++ [l]) = true.
Proof.
  intros H1 H2 H3. rewrite lines_in_order_app, H1.
  cbn [lines_in_order forallb andb]. rewrite !andb_true_r.
  replace (tokens_begin l <=? tokens_end l)%nat with true
    by (symmetry; apply Nat.leb_le; exact H2).
  cbn [andb]. apply forallb_forall. intros a Ha. rewrite Forall_forall in H3.
  cbn [forallb]. rewrite andb_true_r. apply Nat.leb_le. apply H3. exact Ha.
Qed.

Lemma TraverseLine_covers (item : LayoutItem) :
  covers_ranges [(item_tokens_begin item, item_tokens_end item)] (TraverseLine item).
Proof.
  intros tr tr' b Hchain (Hord & Hact & Hend) H.
  cbn [chain fst snd] in Hchain. rewrite andb_true_r in Hchain.
  apply andb_true_iff in Hchain. destruct Hchain as [Hb Hle].
  apply Nat.eqb_eq in Hb. apply Nat.leb_le in Hle.
  unfold chain_end. cbn [fold_left snd].
  unfold TraverseLine in H. unfold active_is_last in Hact.
  destruct (active_unwrapped_line_ tr) as [a|] eqn:Ha.
  - unfold deref in H.
    destruct (nth_error (unwrapped_lines_ tr) a) as [line|] eqn:Hline; [|discriminate].
    cbn [bind] in H. injection H as <-.
    destruct (last_error (unwrapped_lines_ tr)) as [l|] eqn:Hl.
    + destruct (last_error_split _ _ Hl) as (init & Hinit).
      assert (Hline' : line = l /\ a = length init).
      { rewrite Hinit in Hline, Hact. rewrite length_app in Hact. cbn [length] in Hact.
        assert (a = length init) by lia. subst a.
        rewrite nth_error_app2, Nat.sub_diag in Hline by lia. cbn in Hline.
        split; [congruence|reflexivity]. }
      destruct Hline' as [-> ->].
      unfold emitted_upto, active_is_last, first_token.
      cbn [set_lines unwrapped_lines_ active_unwrapped_line_]. rewrite Ha.
      rewrite Hinit, update_app_last, last_error_snoc, length_app.
      rewrite Hinit in Hord, Hact. rewrite length_app in Hact.
      destruct (ends_before_last init l Hord) as (O1 & O2 & O3).
      split.
      * split; [|split; [exact Hact|reflexivity]].
        apply lines_in_order_snoc; auto. cbn [SpanUpToToken tokens_begin tokens_end].
        cbn [ToUnwrappedLine SetIndentationSpaces SpanUpToToken tokens_end]. lia.
      * destruct init; reflexivity.
    + exfalso. unfold last_error in Hl.
      destruct (unwrapped_lines_ tr) as [|x xs]; [destruct a; discriminate|].
      clear -Hl. revert x Hl. induction xs as [|y xs IH]; intros x Hl; [discriminate|].
      apply (IH y). exact Hl.
  - injection H as <-.
    unfold emitted_upto, active_is_last, first_token.
    cbn [set_active set_lines unwrapped_lines_ active_unwrapped_line_].
    rewrite last_error_snoc, length_app. cbn [length].
    split.
    + split; [|split; [lia|reflexivity]].
      destruct (last_error (unwrapped_lines_ tr)) as [l|] eqn:Hl.
      * destruct (last_error_split _ _ Hl) as (init & Hinit).
        rewrite Hinit in Hord |- *.
        destruct (ends_before_last init l Hord) as (O1 & O2 & O3).
        apply lines_in_order_snoc; [exact Hord|cbn; lia|].
        -- cbn [tokens_begin SetPartitionPolicy SetIndentationSpaces ToUnwrappedLine
                SpanUpToToken mkUnwrappedLine].
           apply Forall_app. split.
           ++ eapply Forall_impl; [|exact O3]. intros x Hx. cbn beta in Hx. lia.
           ++ constructor; [lia|constructor].
      * assert (E : unwrapped_lines_ tr = []).
        { destruct (unwrapped_lines_ tr) as [|x xs]; [reflexivity|]. exfalso.
          clear -Hl. unfold last_error in Hl. revert x Hl.
          induction xs as [|y xs IH]; intros x Hl; [discriminate|]. apply (IH y). exact Hl. }
        rewrite E. cbn. replace (item_tokens_begin item <=? item_tokens_end item)%nat
          with true by (symmetry; apply Nat.leb_le; lia).
        reflexivity.
    + destruct (unwrapped_lines_ tr); cbn; [f_equal; exact Hb|reflexivity].
Qed.

Lemma emitted_upto_same (tr tr' : TreeReconstructor) (e : nat) :
  unwrapped_lines_ tr' = unwrapped_lines_ tr ->
  (active_unwrapped_line_ tr' = active_unwrapped_line_ tr
   \/ active_unwrapped_line_ tr' = None) ->
  emitted_upto tr e -> emitted_upto tr' e /\ first_token tr' = first_token tr.
Proof.
  intros Hl Ha (H1 & H2 & H3). unfold emitted_upto, active_is_last, first_token in *.
  rewrite Hl. repeat split; auto.
  destruct Ha as [-> | ->]; auto.
Qed.

Lemma covers_ranges_foldM {A} (f : TreeReconstructor -> A -> Outcome TreeReconstructor)
  (ranges : A -> list (nat * nat)) (cs : list A) :
  (forall c, In c cs -> covers_ranges (ranges c) (fun tr => f tr c)) ->
  covers_ranges (flat_map ranges cs) (foldM f cs).
Proof.
  induction cs as [|c cs IH]; intros Hstep tr tr' b Hchain Hinv H.
  - cbn in H. injection H as <-. cbn [flat_map]. unfold chain_end. cbn [fold_left].
    split; [exact Hinv|]. destruct (first_token tr); reflexivity.
  - cbn [foldM] in H. destruct (f tr c) as [tr1|] eqn:Hc; [|discriminate].
    cbn [bind] in H. cbn [flat_map] in *.
    rewrite chain_app in Hchain. apply andb_true_iff in Hchain.
    destruct Hchain as [Hc1 Hc2].
    destruct (Hstep c (or_introl eq_refl) tr tr1 b Hc1 Hinv Hc) as [Hinv1 Hft1].
    destruct (IH (fun x Hx => Hstep x (or_intror Hx)) tr1 tr' _ Hc2 Hinv1 H)
      as [Hinv' Hft'].
    rewrite chain_end_app. split; [exact Hinv'|].
    rewrite Hft', Hft1. destruct (first_token tr); [reflexivity|].
    destruct (ranges c) as [|r rs]; [reflexivity|].
    destruct (flat_map ranges cs); reflexivity.
Qed.

Lemma covers_ranges_TraverseTree (final_column : UnwrappedLine -> Z) (t : LayoutTree) :
  covers_ranges (line_ranges t) (TraverseTree final_column t).
Proof.
  induction t as [item children IH] using VectorTree_ind'.
  rewrite Forall_forall in IH.
  intros tr tr' b Hchain Hinv H. rewrite TraverseTree_unfold in H.
  destruct (TraverseBody final_column item children (enter item tr)) as [tr1|] eqn:Hb;
    [|discriminate].
  cbn [bind] in H. injection H as <-.
  assert (Hent : emitted_upto (enter item tr) b
                 /\ first_token (enter item tr) = first_token tr).
  { apply emitted_upto_same; auto; unfold enter, LOG_IF_WARNING; destruct (_ && _); auto. }
  destruct Hent as [Hent Hft]. rewrite <- Hft.
  revert Hent Hb. generalize (enter item tr). intros s Hs Hb.
  assert (Hbody : emitted_upto tr1 (chain_end b (line_ranges (Node item children)))
                  /\ first_token tr1
                     = match first_token s with
                       | Some x => Some x
                       | None => match line_ranges (Node item children) with
                                 | [] => None
                                 | _ => Some b
                                 end
                       end).
  { unfold TraverseBody in Hb. cbn [line_ranges] in *. destruct (Type_ item).
    - destruct children; [|discriminate].
      apply (TraverseLine_covers item s tr1 b Hchain Hs Hb).
    - apply (covers_ranges_foldM (fun tr child => TraverseTree final_column child tr)
               line_ranges children IH s tr1 b Hchain Hs Hb).
    - destruct children as [|front [|second remaining]].
      + injection Hb as <-. cbn [flat_map]. unfold chain_end. cbn [fold_left].
        split; [exact Hs|]. destruct (first_token s); reflexivity.
      + cbn [flat_map] in *. rewrite app_nil_r in *.
        apply (IH front (or_introl eq_refl) s tr1 b Hchain Hs Hb).
      + destruct (stack_indentation final_column item s) as [d|]; [|discriminate].
        cbn [bind] in Hb.
        destruct (TraverseTree final_column front s) as [s1|] eqn:Hfront; [|discriminate].
        cbn [bind] in Hb.
        change (flat_map line_ranges (front :: second :: remaining))
          with (line_ranges front ++ flat_map line_ranges (second :: remaining)) in *.
        rewrite chain_app in Hchain. apply andb_true_iff in Hchain.
        destruct Hchain as [Hc1 Hc2].
        destruct (IH front (or_introl eq_refl) s s1 b Hc1 Hs Hfront) as [Hinv1 Hft1].
        assert (Hs1 : emitted_upto (set_indentation s1 d) (chain_end b (line_ranges front))
                      /\ first_token (set_indentation s1 d) = first_token s1)
          by (apply emitted_upto_same; auto).
        destruct Hs1 as [Hs1 Hft1'].
        assert (Hrest : covers_ranges (flat_map line_ranges (second :: remaining))
                          (foldM (fun tr child =>
                                    TraverseTree final_column child (set_active tr None))
                                 (second :: remaining))).
        { apply covers_ranges_foldM. intros c Hc x x' bx Hcx Hx Hxx'.
          assert (Hx0 : emitted_upto (set_active x None) bx
                        /\ first_token (set_active x None) = first_token x)
            by (apply emitted_upto_same; auto).
          destruct Hx0 as [Hx0 Hft0]. rewrite <- Hft0.
          apply (IH c (or_intror Hc) (set_active x None) x' bx Hcx Hx0 Hxx'). }
        destruct (Hrest _ _ _ Hc2 Hs1 Hb) as [Hinv' Hft'].
        rewrite chain_end_app. split; [exact Hinv'|].
        rewrite Hft', Hft1', Hft1. destruct (first_token s); [reflexivity|].
        destruct (line_ranges front) as [|r rs]; [reflexivity|].
        destruct (flat_map line_ranges (second :: remaining)); reflexivity. }
  destruct Hbody as [Hinv1 Hft1].
  assert (Hfin : emitted_upto (set_indentation tr1 (current_indentation_spaces_ tr))
                              (chain_end b (line_ranges (Node item children)))
                 /\ first_token (set_indentation tr1 (current_indentation_spaces_ tr))
                    = first_token tr1)
    by (apply emitted_upto_same; auto).
  destruct Hfin as [Hfin Hftf]. split; [exact Hfin|]. rewrite Hftf. exact Hft1.
Qed.

Lemma last_error_last {A} (l : list A) (x d : A) :
  last_error l = Some x -> last l d = x.
Proof.
  intros H. destruct (last_error_split l x H) as (init & ->). apply last_last.
Qed.

(** When the lines of a layout follow one another from the token [b]
    on, the flat lines that a traversal from a fresh reconstructor
    produces are in order, start at [b] and end where the last line of the
    layout ends. *)
Theorem TraverseTree_covers_tokens (final_column : UnwrappedLine -> Z) (t : LayoutTree)
  (b : nat) (indentation : Z) (tr : TreeReconstructor) :
  chain b (line_ranges t) = true ->
  line_ranges t <> [] ->
  TraverseTree final_column t (mkTreeReconstructor indentation) = Ok tr ->
  lines_in_order (unwrapped_lines_ tr) = true
  /\ exists first_line,
       hd_error (unwrapped_lines_ tr) = Some first_line
       /\ tokens_begin first_line = b
       /\ tokens_end (last (unwrapped_lines_ tr) first_line)
          = chain_end b (line_ranges t).
Proof.
  intros Hchain Hne H.
  destruct (covers_ranges_TraverseTree final_column t (mkTreeReconstructor indentation)
              tr b Hchain) as [(Hord & _ & Hend) Hft]; auto.
  { repeat split. }
  split; [exact Hord|].
  unfold first_token in Hft. cbn [mkTreeReconstructor unwrapped_lines_ hd_error option_map]
    in Hft.
  destruct (line_ranges t) as [|r rs] eqn:Hr; [congruence|].
  destruct (unwrapped_lines_ tr) as [|first_line lines] eqn:Hl; [discriminate|].
  exists first_line. split; [reflexivity|]. cbn in Hft. split; [congruence|].
  destruct (last_error (first_line :: lines)) as [l|] eqn:Hlast.
  - rewrite (last_error_last _ l first_line Hlast). exact Hend.
  - destruct (last_error_cons first_line lines) as (x & Hx & _). congruence.
Qed.

Lemma TraverseTree_covers_tokens_witness :
  exists tr,
    TraverseTree sample_final_column (indented_juxtaposition 5 (line_layout 2 3))
                 (mkTreeReconstructor 0) = Ok tr
    /\ map (fun l => (tokens_begin l, tokens_end l)) (unwrapped_lines_ tr)
       = [(1, 2); (2, 4)]%nat
    /\ lines_in_order (unwrapped_lines_ tr) = true
    /\ exists first_line,
         hd_error (unwrapped_lines_ tr) = Some first_line
         /\ tokens_begin first_line = 1%nat
         /\ tokens_end (last (unwrapped_lines_ tr) first_line)
            = chain_end 1 (line_ranges (indented_juxtaposition 5 (line_layout 2 3))).
Proof.
  eexists. split; [vm_compute; reflexivity|]. split; [reflexivity|].
  apply (TraverseTree_covers_tokens sample_final_column
           (indented_juxtaposition 5 (line_layout 2 3)) 1 0).
  - reflexivity.
  - discriminate.
  - vm_compute. reflexivity.
Defined.

(** ** What the optimizer keeps *)



(** ** The optimizer on a node that expands its leaves *)

Lemma Adopt_leaf (source destination : LayoutTree) :
  is_leaf source = true ->
  AdoptLayoutAndFlattenIfSameType source destination
  = Ok (AdoptSubtree destination source).
Proof.
  intros H. unfold AdoptLayoutAndFlattenIfSameType. rewrite H. reflexivity.
Qed.

Lemma Stack_accumulate_leaves (c : Z) (segments : list Iterator) (Ls : list LayoutTree) :
  Forall2 leaf_layout segments Ls ->
  forall init new_segment,
    foldM (Stack_accumulate c) segments init = Ok new_segment ->
    layout new_segment
    = Node (Value (layout init)) (Children (layout init) ++ Ls).
Proof.
  induction 1 as [|it L segments Ls [Hleaf HL] _ IH]; intros init ns H; simpl in H.
  - injection H as <-. rewrite app_nil_r. destruct (layout init); reflexivity.
  - unfold Stack_accumulate at 1 in H.
    destruct (it_deref it) as [s|] eqn:Hs; [|discriminate]. cbn [bind] in H.
    rewrite (HL s (deref_In _ _ _ Hs)) in H. rewrite (Adopt_leaf L _ Hleaf) in H.
    cbn [bind] in H. apply IH in H. cbn [layout] in H. rewrite H.
    cbn [AdoptSubtree Value Children]. rewrite <- app_assoc. reflexivity.
Qed.

Lemma moved_leaf_layouts (c : Z) (segments moved : list Iterator) (Ls : list LayoutTree) :
  Forall2 (fun it it' => Container it' = Container it
                         /\ container_id it' = container_id it
                         /\ AtOrToTheLeftOf (Container it) c = Ok (Index it'))
          segments moved ->
  Forall2 leaf_layout segments Ls ->
  Forall2 leaf_layout moved Ls.
Proof.
  intros H. revert Ls. induction H as [|it it' segments moved (HC & _) _ IH];
    intros Ls HL; inversion HL; subst; constructor; auto.
  unfold leaf_layout in *. rewrite HC. assumption.
Qed.

Lemma Stack_loop_leaves (fuel : nat) (Ls : list LayoutTree) :
  forall segments sb bd sp lbp c result R,
    Forall2 leaf_layout segments Ls ->
    Stack_loop fuel segments sb bd sp lbp c result = Ok R ->
    Forall (fun r => layout r = Node (mkLayoutItem kStack sb bd) Ls) result ->
    Forall (fun r => layout r = Node (mkLayoutItem kStack sb bd) Ls) R.
Proof.
  induction fuel as [|fuel IH]; intros segments sb bd sp lbp c result R HL H Hres;
    [discriminate|].
  cbn [Stack_loop] in H.
  destruct (mapM _ segments) as [moved|] eqn:Hmoved; [|discriminate]. cbn [bind] in H.
  destruct (foldM (Stack_accumulate c) moved _) as [ns|] eqn:Hns; [|discriminate].
  cbn [bind] in H.
  apply mapM_Move in Hmoved.
  pose proof (moved_leaf_layouts c segments moved Ls Hmoved HL) as HL'.
  apply (Stack_accumulate_leaves c moved Ls HL') in Hns. cbn [layout Value Children app] in Hns.
  assert (Hnew : Forall (fun r => layout r = Node (mkLayoutItem kStack sb bd) Ls)
                        (result ++ [ns])).
  { apply Forall_app. split; auto. }
  destruct (foldM (Stack_next_column c) moved kInfinity) as [next|]; [|discriminate].
  cbn [bind] in H.
  destruct (next <? kInfinity).
  - eapply IH; eauto.
  - inversion H; subst. exact Hnew.
Qed.

(** The layouts of a stack of lines: the lines, under a stack item that
    takes its spacing from the first one. *)
Lemma Stack_of_Lines_layouts (style : BasicFormatStyle) (ftokens : list PreFormatToken)
  (v1 v2 : UnwrappedLine) (vs : list UnwrappedLine) (R : LayoutFunction) :
  Stack style (map (Line style ftokens) (v1 :: v2 :: vs)) = Ok R ->
  Forall (fun r =>
            layout r
            = Node (mkLayoutItem kStack
                      (SpacesBefore (LayoutItem_of_line ftokens v1))
                      (MustWrap_ (LayoutItem_of_line ftokens v1)))
                   (map (fun v => Node (LayoutItem_of_line ftokens v) [])
                        (v1 :: v2 :: vs))) R.
Proof.
  intros HR. set (lfs := map (Line style ftokens) (v1 :: v2 :: vs)) in *.
  change (Stack style lfs) with (Stack_segments style (begin_iterators lfs)) in HR.
  pose proof (Container_begin_iterators lfs) as Hcont.
  assert (HL : Forall2 leaf_layout (begin_iterators lfs)
                 (map (fun v => Node (LayoutItem_of_line ftokens v) []) (v1 :: v2 :: vs))).
  { assert (G : forall its vs0, map Container its = map (Line style ftokens) vs0 ->
              Forall2 leaf_layout its
                (map (fun v => Node (LayoutItem_of_line ftokens v) []) vs0)).
    { induction its as [|it its IH]; intros [|v vs0] E; try discriminate; constructor.
      - cbn [map] in E. injection E as E1 E2. split; [reflexivity|].
        intros s Hs. rewrite E1 in Hs. eapply Line_layouts. exact Hs.
      - apply IH. cbn [map] in E. injection E as _ E2. exact E2. }
    apply G. exact Hcont. }
  unfold Stack_segments in HR.
  destruct (begin_iterators lfs) as [|it0 its] eqn:Hits; [discriminate|].
  cbn [negb] in HR.
  destruct (it_deref it0) as [front|] eqn:Hfront; [|discriminate]. cbn [bind] in HR.
  destruct (last_error (it0 :: its)); [|discriminate].
  destruct (it_deref i); [|discriminate]. cbn [bind] in HR.
  assert (Hf : layout front = Node (LayoutItem_of_line ftokens v1) []).
  { inversion HL as [|? ? ? ? [_ H0] _]; subst. apply H0.
    eapply deref_In. exact Hfront. }
  rewrite Hf in HR. cbn [Value] in HR.
  eapply Stack_loop_leaves; [exact HL|exact HR|constructor].
Qed.

Lemma mapM_leaves (style : BasicFormatStyle) (ftokens : list PreFormatToken)
  (Wrap : list LayoutFunction -> Outcome LayoutFunction)
  (LayoutFunction_MustWrap : LayoutFunction -> Outcome bool) (vs : list UnwrappedLine) :
  mapM (Driver_TraverseTree style ftokens Wrap LayoutFunction_MustWrap)
       (map (fun v => Node v []) vs)
  = Ok (map (Line style ftokens) vs).
Proof.
  induction vs as [|v vs IH]; [reflexivity|].
  cbn [map mapM]. cbn [Driver_TraverseTree is_leaf Children bind].
  change (mapM (Driver_TraverseTree style ftokens Wrap LayoutFunction_MustWrap)
               (map (fun v => Node v []) vs))
    with (mapM (Driver_TraverseTree style ftokens Wrap LayoutFunction_MustWrap)
               (map (fun v => Node v []) vs)) in IH.
  cbn [mapM] in IH. rewrite IH. reflexivity.
Qed.

Lemma emitted_line (d : Z) (ftokens : list PreFormatToken) (v : UnwrappedLine) :
  emitted (d + 0) (LayoutItem_of_line ftokens v) = expanded_line d v.
Proof.
  unfold emitted, expanded_line, ToUnwrappedLine, SetPartitionPolicy, SetIndentationSpaces,
    SpanUpToToken, mkUnwrappedLine, LayoutItem_of_line.
  cbn. f_equal. lia.
Qed.

(** A node that always expands (or aligns) two or more leaves gets one
    line per leaf, in order, each at the indentation of the node; the node
    spans them all. *)
Theorem Optimize_expands_leaves (style : BasicFormatStyle) (ftokens : list PreFormatToken)
  (Wrap : list LayoutFunction -> Outcome LayoutFunction)
  (LayoutFunction_MustWrap : LayoutFunction -> Outcome bool)
  (final_column : UnwrappedLine -> Z)
  (value v1 v2 : UnwrappedLine) (vs : list UnwrappedLine) :
  partition_policy value = kAlwaysExpand \/ partition_policy value = kTabularAlignment ->
  0 <= indentation_spaces value ->
  exists node' ftokens',
    OptimizeTokenPartitionTree style ftokens Wrap LayoutFunction_MustWrap final_column
      (Node value (map (fun v => Node v []) (v1 :: v2 :: vs)))
    = Ok (node', ftokens')
    /\ Value node'
       = {| indentation_spaces := indentation_spaces value;
            tokens_begin := tokens_begin v1;
            tokens_end := tokens_end (last vs v2);
            partition_policy := kOptimalFunctionCallLayout |}
    /\ Children node'
       = map (fun v => Node (expanded_line (indentation_spaces value) v) [])
             (v1 :: v2 :: vs)
    /\ ftokens'
       = fold_left (fun toks v => if IsEmpty v then toks else format_line toks v)
                   (v1 :: v2 :: vs) ftokens.
Proof.
  intros Hp Hind.
  set (lines := v1 :: v2 :: vs).
  assert (Hdrv : Driver_TraverseTree style ftokens Wrap LayoutFunction_MustWrap
                   (Node value (map (fun v => Node v []) lines))
                 = Stack style (map (Line style ftokens) lines)).
  { pose proof (mapM_leaves style ftokens Wrap LayoutFunction_MustWrap lines) as Hm.
    destruct Hp as [Hp | Hp];
      (transitivity
         (layouts <- mapM (Driver_TraverseTree style ftokens Wrap LayoutFunction_MustWrap)
                          (map (fun v => Node v []) lines) ;;
          Stack style layouts);
       [cbn [Driver_TraverseTree is_leaf Children lines map]; rewrite Hp; reflexivity
       |rewrite Hm; reflexivity]). }
  destruct (Stack_shape style (map (Line style ftokens) lines)) as (R & HR & Hz & Hs).
  { rewrite length_map. cbn [lines length]. lia. }
  { apply Forall_forall. intros F HF. apply in_map_iff in HF as (v & <- & _).
    apply Line_stackable. }
  pose proof (Stack_of_Lines_layouts style ftokens v1 v2 vs R HR) as HL.
  fold lines in HL.
  destruct (AtOrToTheLeftOf_defined R (indentation_spaces value) Hz Hs Hind)
    as (i & Hi & s & Hn & _).
  assert (Hlt : (i < length R)%nat) by (apply nth_error_Some; congruence).
  unfold OptimizeTokenPartitionTree. rewrite Hdrv, HR. cbn [bind Value].
  assert (Hne : empty R = false) by (destruct R; [contradiction|reflexivity]).
  rewrite Hne. cbn [negb]. rewrite Hi. cbn [bind].
  unfold IsEnd. replace (length R <=? i)%nat with false
    by (symmetry; apply Nat.leb_gt; exact Hlt).
  cbn [negb]. unfold deref. rewrite Hn. cbn [bind].
  rewrite Forall_forall in HL. rewrite (HL s (nth_error_In _ _ Hn)).
  rewrite <- (map_map (LayoutItem_of_line ftokens) (fun item => Node item [])).
  assert (Hrun :
    TraverseTree final_column
      (Node (mkLayoutItem kStack (SpacesBefore (LayoutItem_of_line ftokens v1))
               (MustWrap_ (LayoutItem_of_line ftokens v1)))
            (map (fun item => Node item []) (map (LayoutItem_of_line ftokens) lines)))
      (mkTreeReconstructor (indentation_spaces value))
    = Ok {| unwrapped_lines_ :=
              [] ++ map (emitted (indentation_spaces value + 0))
                        (map (LayoutItem_of_line ftokens) lines);
            active_unwrapped_line_ :=
              Some (length (@nil UnwrappedLine)
                    + S (S (length (map (LayoutItem_of_line ftokens) vs))) - 1)%nat;
            current_indentation_spaces_ := indentation_spaces value;
            warnings_ := 0 |}).
  { apply (stack_of_several_lines final_column
             (mkLayoutItem kStack (SpacesBefore (LayoutItem_of_line ftokens v1))
                (MustWrap_ (LayoutItem_of_line ftokens v1)))
             (LayoutItem_of_line ftokens v1) (LayoutItem_of_line ftokens v2)
             (map (LayoutItem_of_line ftokens) vs) [] (indentation_spaces value) 0%nat
             eq_refl).
    apply Forall_forall. intros item Hin.
    change (In item (map (LayoutItem_of_line ftokens) (v1 :: v2 :: vs))) in Hin.
    apply in_map_iff in Hin as (v & <- & _). reflexivity. }
  rewrite Hrun.
  cbn [bind unwrapped_lines_ current_indentation_spaces_ app
       mkLayoutItem IndentationSpaces].
  rewrite map_map.
  rewrite (map_ext _ (expanded_line (indentation_spaces value))
             (fun v => emitted_line (indentation_spaces value) ftokens v)).
  unfold ReplaceTokenPartitionTreeNode.
  cbn [unwrapped_lines_ current_indentation_spaces_ lines map].
  eexists. eexists. split; [apply f_equal; apply surjective_pairing|].
  fold (map (expanded_line (indentation_spaces value)) (v1 :: v2 :: vs)).
  split; [|split].
  - rewrite Replace_step_node.
    cbn [Value SetValue clear_children SetPartitionPolicy SetIndentationSpaces
         SpanUpToToken expanded_line tokens_begin indentation_spaces partition_policy].
    rewrite !last_cons_default.
    assert (G : forall l d,
               tokens_end (last (map (expanded_line (indentation_spaces value)) l)
                                (expanded_line (indentation_spaces value) d))
               = tokens_end (last l d)).
    { induction l as [|a l IH]; intros d; [reflexivity|].
      cbn [map]. rewrite !last_cons_default. apply IH. }
    rewrite G. reflexivity.
  - rewrite Replace_step_node. cbn [Children SetValue clear_children app].
    change (expanded_line (indentation_spaces value) v1
            :: expanded_line (indentation_spaces value) v2
            :: map (expanded_line (indentation_spaces value)) vs)
      with (map (expanded_line (indentation_spaces value)) (v1 :: v2 :: vs)).
    rewrite map_map. reflexivity.
  - assert (G : forall l toks n,
               snd (fold_left Replace_step
                      (map (expanded_line (indentation_spaces value)) l) (n, toks))
               = fold_left (fun toks v => if IsEmpty v then toks else format_line toks v)
                           l toks).
    { induction l as [|a l IH]; intros toks n; [reflexivity|].
      cbn [map fold_left Replace_step]. rewrite IH.
      unfold IsEmpty, format_line, expanded_line. cbn [tokens_begin tokens_end].
      destruct (tokens_begin a =? tokens_end a)%nat; reflexivity. }
    apply (G (v1 :: v2 :: vs)).
Qed.

Lemma Optimize_expands_leaves_witness :
  exists node' ftokens',
    OptimizeTokenPartitionTree test_style sample_tokens sample_Wrap sample_MustWrap
      sample_final_column
      (Node (SetPartitionPolicy (SetIndentationSpaces (sample_line 0 4) 2) kAlwaysExpand)
            (map (fun v => Node v []) [sample_line 0 1; sample_line 1 3; sample_line 3 4]))
    = Ok (node', ftokens')
    /\ Value node'
       = {| indentation_spaces := 2; tokens_begin := 0; tokens_end := 4;
            partition_policy := kOptimalFunctionCallLayout |}
    /\ Children node'
       = map (fun v => Node (expanded_line 2 v) [])
             [sample_line 0 1; sample_line 1 3; sample_line 3 4]
    /\ ftokens'
       = fold_left (fun toks v => if IsEmpty v then toks else format_line toks v)
                   [sample_line 0 1; sample_line 1 3; sample_line 3 4] sample_tokens.
Proof.
  apply (Optimize_expands_leaves test_style sample_tokens sample_Wrap sample_MustWrap
           sample_final_column
           (SetPartitionPolicy (SetIndentationSpaces (sample_line 0 4) 2) kAlwaysExpand)
           (sample_line 0 1) (sample_line 1 3) [sample_line 3 4]).
  - left. reflexivity.
  - simpl. lia.
Defined.

(** ** The optimizer on a call whose arguments must wrap *)

(** The layouts of a stack of two functions with leaf layouts. *)
Lemma Stack_of_two_leaves (style : BasicFormatStyle) (F1 F2 R : LayoutFunction)
  (L1 L2 : LayoutTree) :
  is_leaf L1 = true -> (forall s, In s F1 -> layout s = L1) ->
  is_leaf L2 = true -> (forall s, In s F2 -> layout s = L2) ->
  Stack style [F1; F2] = Ok R ->
  Forall (fun r => layout r
                   = Node (mkLayoutItem kStack (SpacesBefore (Value L1))
                                        (MustWrap_ (Value L1)))
                          [L1; L2]) R.
Proof.
  intros Hl1 H1 Hl2 H2 HR. set (lfs := [F1; F2]) in *.
  change (Stack style lfs) with (Stack_segments style (begin_iterators lfs)) in HR.
  pose proof (Container_begin_iterators lfs) as Hcont.
  assert (HL : Forall2 leaf_layout (begin_iterators lfs) [L1; L2]).
  { destruct (begin_iterators lfs) as [|a [|b [|c its]]]; try discriminate.
    cbn [map lfs] in Hcont. injection Hcont as E1 E2.
    constructor; [split; [exact Hl1|rewrite E1; exact H1]|].
    constructor; [split; [exact Hl2|rewrite E2; exact H2]|constructor]. }
  unfold Stack_segments in HR.
  destruct (begin_iterators lfs) as [|it0 its] eqn:Hits; [discriminate|].
  cbn [negb] in HR.
  destruct (it_deref it0) as [front|] eqn:Hfront; [|discriminate]. cbn [bind] in HR.
  destruct (last_error (it0 :: its)); [|discriminate].
  destruct (it_deref i); [|discriminate]. cbn [bind] in HR.
  assert (Hf : layout front = L1).
  { inversion HL as [|? ? ? ? [_ H0] _]; subst. apply H0.
    eapply deref_In. exact Hfront. }
  rewrite Hf in HR.
  eapply Stack_loop_leaves; [exact HL|exact HR|constructor].
Qed.

(** What the replacement makes of the lines [first_line :: lines]. *)
Lemma Replace_lines (first_line : UnwrappedLine) (lines : list UnwrappedLine)
  (active : option nat) (cur : Z) (w : nat)
  (node : TokenPartitionTree) (ftokens : list PreFormatToken) :
  ReplaceTokenPartitionTreeNode
    {| unwrapped_lines_ := first_line :: lines; active_unwrapped_line_ := active;
       current_indentation_spaces_ := cur; warnings_ := w |} node ftokens
  = Ok (Node {| indentation_spaces := cur;
                tokens_begin := tokens_begin first_line;
                tokens_end := tokens_end (last lines first_line);
                partition_policy := kOptimalFunctionCallLayout |}
             (map (fun l => Node l []) (first_line :: lines)),
        fold_left (fun toks l => if IsEmpty l then toks else format_line toks l)
                  (first_line :: lines) ftokens).
Proof.
  unfold ReplaceTokenPartitionTreeNode.
  cbn [unwrapped_lines_ current_indentation_spaces_].
  apply f_equal. rewrite (surjective_pairing (fold_left Replace_step _ _)).
  rewrite Replace_step_node. f_equal.
  - cbn [Value Children SetValue clear_children app SetPartitionPolicy
         SetIndentationSpaces SpanUpToToken tokens_begin indentation_spaces].
    rewrite last_cons_default. reflexivity.
  - assert (G : forall l n toks,
               snd (fold_left Replace_step l (n, toks))
               = fold_left (fun toks l => if IsEmpty l then toks else format_line toks l)
                           l toks).
    { induction l as [|a l IH]; intros n toks; [reflexivity|].
      cbn [fold_left Replace_step]. rewrite IH.
      destruct (IsEmpty a); reflexivity. }
    apply G.
Qed.

(** A call node over two leaves whose arguments must wrap: the header
    stays on the first line, and the arguments go to a second line,
    further in by the wrap indentation. *)
Theorem Optimize_wrapped_call (style : BasicFormatStyle) (ftokens : list PreFormatToken)
  (Wrap : list LayoutFunction -> Outcome LayoutFunction)
  (LayoutFunction_MustWrap : LayoutFunction -> Outcome bool)
  (final_column : UnwrappedLine -> Z)
  (value header args : UnwrappedLine) :
  partition_policy value = kOptimalFunctionCallLayout ->
  0 <= indentation_spaces value ->
  0 <= wrap_spaces style ->
  LayoutFunction_MustWrap (Line style ftokens args) = Ok true ->
  OptimizeTokenPartitionTree style ftokens Wrap LayoutFunction_MustWrap final_column
    (Node value [Node header []; Node args []])
  = Ok (Node {| indentation_spaces := indentation_spaces value;
                tokens_begin := tokens_begin header;
                tokens_end := tokens_end args;
                partition_policy := kOptimalFunctionCallLayout |}
             [Node (expanded_line (indentation_spaces value) header) [];
              Node (expanded_line (indentation_spaces value + wrap_spaces style) args)
                   []],
        fold_left (fun toks v => if IsEmpty v then toks else format_line toks v)
                  [header; args] ftokens).
Proof.
  intros Hp Hind Hws Hmw.
  destruct (Line_shape style ftokens args) as [Hza Hsa].
  destruct (Indent_shape style (Line style ftokens args) (wrap_spaces style) Hza Hsa Hws)
    as (I & i0 & HI & _ & HIeq & HzI & HsI).
  set (La := Node (SetItemIndentation (LayoutItem_of_line ftokens args)
                                      (0 + wrap_spaces style)) [] : LayoutTree).
  assert (HIl : forall s, In s I -> layout s = La).
  { intros s Hs. rewrite HIeq in Hs. apply in_map_iff in Hs as (s0 & <- & Hs0).
    apply In_skipn in Hs0.
    unfold shifted, Indent_segment. cbn [layout].
    rewrite (Line_layouts style ftokens args s0 Hs0). reflexivity. }
  assert (HIst : stackable I).
  { split; [exact HzI|]. split; [exact HsI|]. apply Forall_forall. intros s Hs.
    rewrite (HIl s Hs). reflexivity. }
  destruct (Stack_shape style [Line style ftokens header; I]) as (R & HR & Hz & Hs).
  { cbn [length]. lia. }
  { constructor; [apply Line_stackable|]. constructor; [exact HIst|constructor]. }
  pose proof (Stack_of_two_leaves style (Line style ftokens header) I R
                (Node (LayoutItem_of_line ftokens header) []) La
                eq_refl (Line_layouts style ftokens header) eq_refl HIl HR) as HL.
  destruct (AtOrToTheLeftOf_defined R (indentation_spaces value) Hz Hs Hind)
    as (i & Hi & s & Hn & _).
  assert (Hlt : (i < length R)%nat) by (apply nth_error_Some; congruence).
  assert (Hne : empty R = false) by (destruct R; [contradiction|reflexivity]).
  unfold OptimizeTokenPartitionTree.
  cbn [Driver_TraverseTree is_leaf Children Value length Nat.eqb bind].
  rewrite Hp. cbn [Nat.eqb bind]. rewrite HI. cbn [bind]. rewrite HR. cbn [bind].
  rewrite Hmw. cbn [bind]. rewrite Hne. cbn [negb]. rewrite Hi. cbn [bind].
  unfold IsEnd. replace (length R <=? i)%nat with false
    by (symmetry; apply Nat.leb_gt; exact Hlt).
  cbn [negb]. unfold deref. rewrite Hn. cbn [bind].
  rewrite Forall_forall in HL. rewrite (HL s (nth_error_In _ _ Hn)).
  assert (Hrun :
    TraverseTree final_column
      (Node (mkLayoutItem kStack
               (SpacesBefore (Value (Node (LayoutItem_of_line ftokens header) [])))
               (MustWrap_ (Value (Node (LayoutItem_of_line ftokens header) []))))
            [Node (LayoutItem_of_line ftokens header) []; La])
      (mkTreeReconstructor (indentation_spaces value))
    = Ok {| unwrapped_lines_ :=
              [expanded_line (indentation_spaces value) header;
               expanded_line (indentation_spaces value + wrap_spaces style) args];
            active_unwrapped_line_ := Some 1%nat;
            current_indentation_spaces_ := indentation_spaces value;
            warnings_ := 0 |}).
  { pose proof (stack_of_several_lines final_column
             (mkLayoutItem kStack (SpacesBefore (LayoutItem_of_line ftokens header))
                (MustWrap_ (LayoutItem_of_line ftokens header)))
             (LayoutItem_of_line ftokens header)
             (SetItemIndentation (LayoutItem_of_line ftokens args)
                                 (0 + wrap_spaces style))
             [] [] (indentation_spaces value) 0%nat eq_refl) as H.
    cbn [map app length Nat.add Nat.sub mkLayoutItem IndentationSpaces] in H.
    rewrite (emitted_line (indentation_spaces value) ftokens header) in H.
    replace (emitted (indentation_spaces value + 0)
               (SetItemIndentation (LayoutItem_of_line ftokens args)
                                   (0 + wrap_spaces style)))
      with (expanded_line (indentation_spaces value + wrap_spaces style) args) in H.
    - apply H. repeat constructor.
    - unfold emitted, expanded_line, ToUnwrappedLine, SetPartitionPolicy,
        SetIndentationSpaces, SpanUpToToken, mkUnwrappedLine, SetItemIndentation,
        LayoutItem_of_line. cbn. f_equal. lia. }
  match goal with
  | |- context [TraverseTree final_column ?t ?tr] =>
      replace (TraverseTree final_column t tr)
        with (Ok {| unwrapped_lines_ :=
                      [expanded_line (indentation_spaces value) header;
                       expanded_line (indentation_spaces value + wrap_spaces style) args];
                    active_unwrapped_line_ := Some 1%nat;
                    current_indentation_spaces_ := indentation_spaces value;
                    warnings_ := 0%nat |})
        by (symmetry; exact Hrun)
  end.
  cbn [bind]. rewrite Replace_lines. reflexivity.
Qed.

Lemma Optimize_wrapped_call_witness :
  OptimizeTokenPartitionTree test_style wrapping_tokens sample_Wrap sample_MustWrap
    sample_final_column
    (Node (SetPartitionPolicy (SetIndentationSpaces (sample_line 0 2) 2)
                              kOptimalFunctionCallLayout)
          [Node (sample_line 0 1) []; Node (sample_line 1 2) []])
  = Ok (Node {| indentation_spaces := 2; tokens_begin := 0; tokens_end := 2;
                partition_policy := kOptimalFunctionCallLayout |}
             [Node (expanded_line 2 (sample_line 0 1)) [];
              Node (expanded_line (2 + 4) (sample_line 1 2)) []],
        fold_left (fun toks v => if IsEmpty v then toks else format_line toks v)
                  [sample_line 0 1; sample_line 1 2] wrapping_tokens).
Proof.
  apply (Optimize_wrapped_call test_style wrapping_tokens sample_Wrap sample_MustWrap
           sample_final_column
           (SetPartitionPolicy (SetIndentationSpaces (sample_line 0 2) 2)
                               kOptimalFunctionCallLayout)
           (sample_line 0 1) (sample_line 1 2)).
  - reflexivity.
  - simpl. lia.
  - simpl. lia.
  - reflexivity.
Defined.
